(** * PyTricia: the Python facade over a Patricia trie of IPv4 prefixes

    A shallow embedding of [pytricia.c].  The facade functions
    ([convert_key_to_cstring], [parse_cidr], [pytricia_subscript],
    [pytricia_assign_subscript], [pytriciaiter_next], ...) are
    transcribed from the C source.  The trie engine they call
    ([patricia_lookup], [patricia_search_exact], [patricia_search_best],
    [patricia_remove], the [PATRICIA_WALK] macro) lives in [patricia.c]
    and [patricia.h]; it is modelled from the specification.

    Conventions.  A C string is a Rocq [string] without its terminator.
    A [struct in_addr] is the list of its four bytes in memory (network
    order).  A node pointer into the immutable tree is either the subtree
    it points to (read-only traversals) or the list of left/right turns
    that lead to it from the root (operations that write through it).
    Reference counts are not modelled.

    Where the outcome of a call is not defined the methods answer
    [Undefined]: a key of 32 bytes or more leaves the key buffer without
    terminator and its readers run past it; a prefix longer than 32 bits
    or than the tree's [maxbits] is outside the keys the engine is
    specified for; the parser behind assignment ([make_and_lookup]) is
    not in the sources, so assignment is modelled on canonical CIDR text
    only.  An integer key that does not fit a C [long] leaves
    OverflowError set ([convert_key_error]); a method that then returns
    a value is refused by the interpreter with SystemError. *)

From Stdlib Require Import ZArith List String Ascii Bool Lia Arith PeanoNat.
From Stdlib Require Import DecimalString.
Import ListNotations.

(* ================================================================= *)
(** * Part I.  The C library, as far as the facade uses it            *)
(* ================================================================= *)

Definition isdigit (c : ascii) : bool :=
  let n := nat_of_ascii c in (48 <=? n) && (n <=? 57).

Definition isspace (c : ascii) : bool :=
  let n := nat_of_ascii c in (n =? 32) || ((9 <=? n) && (n <=? 13)).

(** Value of [c] as a digit in [base] (10, 8 or 16), if it is one. *)
Definition digit_of (base : Z) (c : ascii) : option Z :=
  (let n := Z.of_nat (nat_of_ascii c) in
   let v :=
     if (48 <=? n) && (n <=? 57) then Some (n - 48)
     else if (97 <=? n) && (n <=? 122) then Some (n - 87)
     else if (65 <=? n) && (n <=? 90) then Some (n - 55)
     else None in
   match v with
   | Some d => if d <? base then Some d else None
   | None => None
   end)%Z.

(** The digit loop of [strtoul]/[strtol]: accumulated value and the
    unread rest of the string. *)
Fixpoint strto_digits (base acc : Z) (s : string) : Z * string :=
  match s with
  | String c s' =>
      match digit_of base c with
      | Some d => strto_digits base (acc * base + d) s'
      | None => (acc, s)
      end
  | EmptyString => (acc, s)
  end.

(** [strtoul (cp, &endp, 0)] on a string whose first character is a
    digit: "0x"/"0X" followed by a hexadecimal digit selects base 16, a
    leading "0" base 8, anything else base 10.  The value is unbounded
    here; the caller rejects what does not fit 32 bits. *)
Definition strtoul0 (s : string) : Z * string :=
  match s with
  | String "0" (String x (String h rest as s2)) =>
      if ((x =? "x") || (x =? "X"))%char then
        match digit_of 16 h with
        | Some _ => strto_digits 16 0 s2
        | None => (0%Z, String x s2)
        end
      else strto_digits 8 0 s
  | String "0" _ => strto_digits 8 0 s
  | _ => strto_digits 10 0 s
  end.

(** Largest last part of an address written with [n] parts before it. *)
Definition aton_max (n : nat) : Z :=
  match n with
  | 0 => 0xffffffff%Z
  | 1 => 0xffffff%Z
  | 2 => 0xffff%Z
  | _ => 0xff%Z
  end.

(** Big-endian bytes of a 32-bit value. *)
Definition be_bytes4 (v : Z) : list Z :=
  [ (v / 16777216) mod 256; (v / 65536) mod 256;
    (v / 256) mod 256; v mod 256 ]%Z.

(** The bytes already stored by [inet_aton], padded to four, merged with
    the last part: [res.word | htonl (val)]. *)
Definition aton_merge (bytes : list Z) (val : Z) : list Z :=
  map (fun bv => Z.lor (fst bv) (snd bv))
      (combine (bytes ++ repeat 0%Z (4 - List.length bytes)) (be_bytes4 val)).

(** The loop of [inet_aton]; it runs at most four times, [n] counts the
    turns left. *)
Fixpoint inet_aton_loop (n : nat) (cp : string) (bytes : list Z)
  : option (list Z) :=
  match cp with
  | EmptyString => None
  | String c _ =>
      if isdigit c then
        let '(val, rest) := strtoul0 cp in
        if (0xffffffff <? val)%Z then None
        else match rest with
             | String "." rest' =>
                 if (2 <? List.length bytes) || (0xff <? val)%Z then None
                 else match n with
                      | O => None
                      | S n' => inet_aton_loop n' rest' (bytes ++ [val])
                      end
             | _ =>
                 let trailing_ok :=
                   match rest with
                   | EmptyString => true
                   | String c' _ => isspace c'
                   end in
                 if trailing_ok then
                   if (aton_max (List.length bytes) <? val)%Z then None
                   else Some (aton_merge bytes val)
                 else None
             end
      else None
  end.

(** [inet_aton (cp, &addr)]: [Some] of the four bytes of [addr] on
    success (C returns 1), [None] on failure (C returns 0). *)
Definition inet_aton (cp : string) : option (list Z) :=
  inet_aton_loop 4 cp [].

Definition string_of_Z (z : Z) : string :=
  NilZero.string_of_uint (N.to_uint (Z.to_N z)).

(** The text [inet_ntop (AF_INET, ...)] writes for four bytes. *)
Definition dotted_quad (bytes : list Z) : string :=
  (string_of_Z (nth 0 bytes 0%Z) ++ "." ++ string_of_Z (nth 1 bytes 0%Z) ++ "."
   ++ string_of_Z (nth 2 bytes 0%Z) ++ "." ++ string_of_Z (nth 3 bytes 0%Z))%string.

(** [inet_ntop (AF_INET, src, dst, size)]: fails (NULL, ENOSPC) when the
    text and its terminator do not fit [size] bytes. *)
Definition inet_ntop (src : list Z) (size : nat) : option string :=
  let s := dotted_quad src in
  if String.length s <? size then Some s else None.

Fixpoint skip_spaces (s : string) : string :=
  match s with
  | String c s' => if isspace c then skip_spaces s' else s
  | EmptyString => s
  end.

Definition LONG_MAX : Z := 9223372036854775807.
Definition LONG_MIN : Z := -9223372036854775808.

(** [strtol (s, NULL, 10)]: white space, an optional sign, decimal digits;
    out-of-range values are clamped. *)
Definition strtol10 (s : string) : Z :=
  let s1 := skip_spaces s in
  let '(neg, s2) :=
    match s1 with
    | String "-" t => (true, t)
    | String "+" t => (false, t)
    | _ => (false, s1)
    end in
  let v := fst (strto_digits 10 0 s2) in
  let v := if neg then (- v)%Z else v in
  Z.max LONG_MIN (Z.min LONG_MAX v).

(** Conversion of a [long] to [int] (two's complement, 32 bits). *)
Definition int_of_long (v : Z) : Z :=
  ((v + 2147483648) mod 4294967296 - 2147483648)%Z.

(** [atoi (s)] is [(int) strtol (s, NULL, 10)]. *)
Definition atoi (s : string) : Z := int_of_long (strtol10 s).

(** [strchr (s, c)]: the text before the first [c] and the text after
    it, or [None] when [c] does not occur. *)
Fixpoint strchr (s : string) (c : ascii) : option (string * string) :=
  match s with
  | EmptyString => None
  | String a s' =>
      if (a =? c)%char then Some (EmptyString, s')
      else match strchr s' c with
           | Some (before, after) => Some (String a before, after)
           | None => None
           end
  end.

(** The C string inside a byte buffer: the bytes before the first NUL. *)
Fixpoint c_str (s : string) : string :=
  match s with
  | EmptyString => EmptyString
  | String a s' => if (a =? "000")%char then EmptyString else String a (c_str s')
  end.

Fixpoint string_take (n : nat) (s : string) : string :=
  match n, s with
  | S n', String a s' => String a (string_take n' s')
  | _, _ => EmptyString
  end.

(** [htonl] on a little-endian host: the argument is converted to
    [uint32_t] and its bytes are reversed. *)
Definition htonl (x : Z) : Z :=
  let v := (x mod 4294967296)%Z in
  (v mod 256 * 16777216 + (v / 256) mod 256 * 65536
   + (v / 65536) mod 256 * 256 + (v / 16777216) mod 256)%Z.

(** The first four bytes in memory of a [long] holding [v] on a
    little-endian host. *)
Definition le_bytes4 (v : Z) : list Z :=
  [ v mod 256; (v / 256) mod 256; (v / 65536) mod 256;
    (v / 16777216) mod 256 ]%Z.

(* ================================================================= *)
(** * Part II.  Python objects and the key codec of the facade        *)
(* ================================================================= *)

(** The Python objects the facade sees.  A [str] carries its UTF-8
    encoding, or [None] when [PyUnicode_AsUTF8] cannot produce one.
    [bool] is a subtype of [int], so [PyLong_Check] accepts it. *)
Inductive PyObject : Type :=
| PyNone
| PyBool (b : bool)
| PyLong (v : Z)
| PyUnicode (utf8 : option string)
| PyOther (id : nat).

Inductive PyExc : Type :=
| ValueError | KeyError | TypeError | StopIteration
| OverflowError | SystemError.

(** Outcome of a call into the extension: a value, a raised exception
    with its message, or no defined outcome.  [Undefined] stands for C
    undefined behaviour (a read past a buffer, a NULL value slot, a
    stack overrun), for a call into the engine outside the keys the
    engine is specified for, and for a slot that hands the interpreter a
    result while an exception is set: slot results are not checked, the
    stale exception surfaces at some later call. *)
Inductive PyResult (A : Type) : Type :=
| Return (a : A)
| Raise (e : PyExc) (msg : string)
| Undefined.

Arguments Return {A} a.
Arguments Raise {A} e msg.
Arguments Undefined {A}.

Definition ADDRSTRLEN : nat := 32.
Definition AF_INET : Z := 2.

(** [PATRICIA_MAXBITS] of [patricia.h]; the value is the one the error
    message of [pytricia_init] states. *)
Definition PATRICIA_MAXBITS : Z := 128.

(** [PyLong_AsLong]: the value returned, -1 when the integer does not
    fit a C [long]; the OverflowError it then leaves set is
    [PyLong_AsLong_error]. *)
Definition PyLong_AsLong (o : PyObject) : Z :=
  match o with
  | PyLong v => if ((LONG_MIN <=? v) && (v <=? LONG_MAX))%Z then v else (-1)%Z
  | PyBool b => if b then 1%Z else 0%Z
  | _ => (-1)%Z
  end.

(** The error indicator [PyLong_AsLong] leaves behind: OverflowError
    when the integer does not fit a C [long] (the caller is handed -1),
    nothing otherwise. *)
Definition PyLong_AsLong_error (o : PyObject) : option PyExc :=
  match o with
  | PyLong v =>
      if ((LONG_MIN <=? v) && (v <=? LONG_MAX))%Z then None
      else Some OverflowError
  | _ => None
  end.

(** [strncat (dst, src, n)] appends at most [n] characters of [src]. *)
Definition strncat (dst src : string) (n : nat) : string :=
  (dst ++ string_take n src)%string.

Definition inet_ntop_with_prefix (src : list Z) (bufflen : nat) : option string :=
  match inet_ntop src bufflen with
  | None => None
  | Some dst => Some (strncat dst "/32" bufflen)
  end.

(** [convert_key_to_cstring] (Python 3 branch): the return value and the
    bytes of [keystr] before its first NUL.  [memset] zeroes the
    [ADDRSTRLEN] bytes and [strncpy] copies at most [ADDRSTRLEN] bytes,
    stopping at a NUL; so 32 characters here mean that [keystr] holds no
    terminator (see [keystr_terminated]).  On the integer branch the C
    expression [(... == NULL)] is 0 on success and 1 on failure. *)
Definition convert_key_to_cstring (key : PyObject) : Z * string :=
  match key with
  | PyUnicode None => ((-1)%Z, EmptyString)
  | PyUnicode (Some temp) => (0%Z, string_take ADDRSTRLEN (c_str temp))
  | PyLong _ | PyBool _ =>
      let val := htonl (PyLong_AsLong key) in
      match inet_ntop_with_prefix (le_bytes4 val) ADDRSTRLEN with
      | None => (1%Z, EmptyString)
      | Some keystr => (0%Z, keystr)
      end
  | _ => ((-1)%Z, EmptyString)
  end.

(** The error indicator after [convert_key_to_cstring]: the integer
    branch calls [PyLong_AsLong] and neither tests nor clears what it
    leaves; the other branches set nothing. *)
Definition convert_key_error (key : PyObject) : option PyExc :=
  match key with
  | PyLong _ | PyBool _ => PyLong_AsLong_error key
  | _ => None
  end.

(** Whether [keystr] holds a C string: it is terminated exactly when
    fewer than [ADDRSTRLEN] characters were copied into it.  A callee
    that reads an unterminated [keystr] ([strchr], [atoi], [inet_aton])
    runs past the end of the buffer. *)
Definition keystr_terminated (keystr : string) : bool :=
  String.length keystr <? ADDRSTRLEN.

(** [prefix_t]: the address bytes [add.sin] and the prefix length. *)
Record prefix_t : Type := mk_prefix {
  family : Z;
  bitlen : nat;
  add_sin : list Z
}.

Definition make_prefix (addr : list Z) (width : Z) : prefix_t :=
  {| family := AF_INET; bitlen := Z.to_nat width; add_sin := firstn 4 addr |}.

(** [parse_cidr]: [None] is the return value -1; otherwise the address
    bytes and the mask length, an [unsigned short]. *)
Definition parse_cidr (cidr : string) : option (list Z * Z) :=
  let '(s, masklen) :=
    match strchr cidr "/" with
    | Some (before, after) =>
        let len := if String.length before <? 32 then String.length before else 31 in
        (string_take len cidr, (atoi after mod 65536)%Z)
    | None => (cidr, 32%Z)
    end in
  match inet_aton s with
  | None => None
  | Some addr => Some (addr, masklen)
  end.

Definition pystr_to_prefix (str : string) : option prefix_t :=
  match parse_cidr str with
  | None => None
  | Some (subnet, mask) => Some (make_prefix subnet mask)
  end.

(** The two steps every keyed operation starts with, and the error each
    raises on failure.  [KeyOk] is the clean case: the buffer holds a C
    string, the string parses and no exception is left set. *)
Inductive key_outcome : Type :=
| KeyOk (p : prefix_t)
| KeyBadObject          (* convert_key_to_cstring < 0: "Error parsing key." *)
| KeyBadPrefix          (* pystr_to_prefix NULL: "Error parsing prefix." *)
| KeyOverrun            (* keystr without terminator: the parser overreads *)
| KeyErrSet (p : prefix_t).  (* parsed, with OverflowError left set *)

Definition key_to_prefix (key : PyObject) : key_outcome :=
  let '(rv, keystr) := convert_key_to_cstring key in
  if (rv <? 0)%Z then KeyBadObject
  else if negb (keystr_terminated keystr) then KeyOverrun
  else match pystr_to_prefix keystr with
       | None => KeyBadPrefix
       | Some p =>
           match convert_key_error key with
           | None => KeyOk p
           | Some _ => KeyErrSet p
           end
       end.

(* ================================================================= *)
(** * Part III.  The trie engine ([patricia.c]), from the specification *)
(* ================================================================= *)

(** Modelled from the spec: the node of [patricia.h] (absent), with the
    fields the facade reads: [node->prefix] (NULL on a glue node, which
    is how [pytriciaiter_next] tells real from glue), [node->data],
    [node->l] and [node->r]; [bit] is the node's bit length.  [NULL] is
    the null pointer. *)
Inductive patricia_node_t : Type :=
| NULL
| Node (bit : nat) (prefix : option prefix_t) (data : option PyObject)
       (l r : patricia_node_t).

(** Modelled from the spec: the tree header of [patricia.h] (absent):
    the root, the [maxbits] constant fixed at construction and the count
    of real nodes the engine keeps. *)
Record patricia_tree_t : Type := mk_tree {
  head : patricia_node_t;
  maxbits : Z;
  num_active_node : nat
}.

(** Modelled from the spec: the keys the engine is specified for.  A
    key has at most [maxbits] significant bits (section 3) and the
    engine's operations are total over validated bits and length only
    (section 7).  [make_prefix] fills the four bytes of [add.sin] and
    nothing else of the [prefix_t], so a key of the facade is inside the
    engine's domain when its length is at most [maxbits] and at most
    32. *)
Definition prefix_in_domain (mb : Z) (p : prefix_t) : bool :=
  (Z.of_nat (bitlen p) <=? mb)%Z && (Z.of_nat (bitlen p) <=? 32)%Z.

Definition engine_defined (tree : patricia_tree_t) (p : prefix_t) : bool :=
  prefix_in_domain (maxbits tree) p.

(** A node handle: the turns from the root to the node, [true] for
    right. *)
Definition node_ref : Type := list bool.

Definition bit_of (t : patricia_node_t) : nat :=
  match t with NULL => 0 | Node b _ _ _ _ => b end.

Definition prefix_of (t : patricia_node_t) : option prefix_t :=
  match t with NULL => None | Node _ p _ _ _ => p end.

Definition data_of (t : patricia_node_t) : option PyObject :=
  match t with NULL => None | Node _ _ d _ _ => d end.

Definition is_real (t : patricia_node_t) : bool :=
  match prefix_of t with Some _ => true | None => false end.

Definition is_null (t : patricia_node_t) : bool :=
  match t with NULL => true | Node _ _ _ _ _ => false end.

Fixpoint node_at (t : patricia_node_t) (h : node_ref) : patricia_node_t :=
  match h, t with
  | [], _ => t
  | d :: h', Node _ _ _ l r => node_at (if d then r else l) h'
  | _ :: _, NULL => NULL
  end.

(** Modelled from the spec: [New_Patricia] of [patricia.c] (absent): an
    empty tree with the given maximum bit length. *)
Definition New_Patricia (mb : Z) : patricia_tree_t :=
  {| head := NULL; maxbits := mb; num_active_node := 0 |}.

(** Modelled from the spec: the bit test of [patricia.h] (absent): bit
    [i] of a key buffer, counted from the most significant bit of the
    first byte.  The function is total: a position past the four bytes
    reads as 0 here, which says nothing about the memory behind
    [add.sin]; the facade calls the engine only with keys of at most 32
    bits ([engine_defined]), and every statement about the engine's
    answers is made for such keys. *)
Definition BIT_TEST (addr : list Z) (i : nat) : bool :=
  Z.testbit (nth (i / 8) addr 0%Z) (Z.of_nat (7 - i mod 8)).

(** Modelled from the spec: the scan for the first differing bit, from
    position [i] on, over [n] positions. *)
Fixpoint first_diff_from (a b : list Z) (i n : nat) : nat :=
  match n with
  | O => i
  | S n' =>
      if Bool.eqb (BIT_TEST a i) (BIT_TEST b i)
      then first_diff_from a b (S i) n' else i
  end.

(** Modelled from the spec: the first bit position, scanning from the
    most significant bit, at which two keys differ, looking at [check]
    bits only ([check] itself when they agree on all of them). *)
Definition differ_bit (a b : list Z) (check : nat) : nat :=
  first_diff_from a b 0 check.

(** Modelled from the spec: [comp_with_mask] of [patricia.c] (absent):
    two keys match when masked to [mask] bits. *)
Definition comp_with_mask (a b : list Z) (mask : nat) : bool :=
  differ_bit a b mask =? mask.

(** Modelled from the spec: find_exact, [patricia_search_exact] of
    [patricia.c] (absent).  Descends by testing branch bits; at the node
    whose bit length equals the query's, the bits must match masked to
    that length and the node must be real. *)
Fixpoint search_exact_from (p : prefix_t) (t : patricia_node_t)
  : option node_ref :=
  match t with
  | NULL => None
  | Node bit pfx _ l r =>
      if bit <? bitlen p then
        if BIT_TEST (add_sin p) bit
        then option_map (cons true) (search_exact_from p r)
        else option_map (cons false) (search_exact_from p l)
      else if bit =? bitlen p then
        match pfx with
        | Some q =>
            if comp_with_mask (add_sin q) (add_sin p) (bitlen p)
            then Some [] else None
        | None => None
        end
      else None
  end.

(** Modelled from the spec: find_exact from the root of the tree. *)
Definition patricia_search_exact (tree : patricia_tree_t) (p : prefix_t)
  : option node_ref :=
  search_exact_from p (head tree).

(** Modelled from the spec: find_best, [patricia_search_best] of
    [patricia.c] (absent).  Descends from the root; a real node whose
    key matches the query's leading bits becomes the best candidate, a
    longer one overriding a shorter one; the descent ends at a node
    longer than the query, at a mismatch, or where the child is absent.
    [here] is the handle of [t], [best] the candidate so far. *)
Fixpoint search_best_from (p : prefix_t) (t : patricia_node_t)
         (here : node_ref) (best : option node_ref) : option node_ref :=
  match t with
  | NULL => best
  | Node bit pfx _ l r =>
      if bitlen p <? bit then best
      else
        match pfx with
        | Some q =>
            if comp_with_mask (add_sin q) (add_sin p) bit then
              if BIT_TEST (add_sin p) bit
              then search_best_from p r (here ++ [true]) (Some here)
              else search_best_from p l (here ++ [false]) (Some here)
            else best
        | None =>
            if BIT_TEST (add_sin p) bit
            then search_best_from p r (here ++ [true]) best
            else search_best_from p l (here ++ [false]) best
        end
  end.

(** Modelled from the spec: find_best from the root of the tree, with
    no candidate yet. *)
Definition patricia_search_best (tree : patricia_tree_t) (p : prefix_t)
  : option node_ref :=
  search_best_from p (head tree) [] None.

(** Modelled from the spec: the first phase of insert.  The descent
    tests one bit per node and stops at the node reached: a real node at
    least as long as the new key, or a node whose child on the key's
    side is absent.  A glue node stores no key, so the descent goes on
    through it. *)
Fixpoint reached (p : prefix_t) (t : patricia_node_t) : patricia_node_t :=
  match t with
  | NULL => NULL
  | Node bit pfx _ l r =>
      if (bit <? bitlen p) || negb (is_real t) then
        let c := if BIT_TEST (add_sin p) bit then r else l in
        match c with
        | NULL => t
        | Node _ _ _ _ _ => reached p c
        end
      else t
  end.

(** Modelled from the spec: the real leaf insert creates for a key; its
    value slot is empty until the facade fills it. *)
Definition new_leaf (p : prefix_t) : patricia_node_t :=
  Node (bitlen p) (Some p) None NULL NULL.

(** Modelled from the spec: the second phase of insert.  [d] is the
    first position at which the new key differs from the key [test] of
    the node reached.  The descent is repeated down to the point where
    the paths diverge, the first node on it that is not shorter than
    [d].  There: the node itself is the key's node (same bit length, no
    difference) and is returned, made real if it was glue; or the new
    leaf is spliced in below it or above it when one prefix is an
    ancestor of the other; or a glue node at [d] takes the new leaf and
    the subtree as its two children.  Returns the new subtree, the
    handle of the key's node in it and whether a node became real. *)
Fixpoint splice (p : prefix_t) (d : nat) (test : list Z)
         (t : patricia_node_t) : patricia_node_t * node_ref * bool :=
  match t with
  | NULL => (new_leaf p, [], true)
  | Node bit pfx dat l r =>
      if (bit <? d) || ((bit =? d) && (d <? bitlen p)) then
        if BIT_TEST (add_sin p) bit then
          let '(r', h, c) := splice p d test r in
          (Node bit pfx dat l r', true :: h, c)
        else
          let '(l', h, c) := splice p d test l in
          (Node bit pfx dat l' r, false :: h, c)
      else if d =? bitlen p then
        if bit =? bitlen p then
          match pfx with
          | Some _ => (t, [], false)
          | None => (Node bit (Some p) dat l r, [], true)
          end
        else if BIT_TEST test (bitlen p)
             then (Node (bitlen p) (Some p) None NULL t, [], true)
             else (Node (bitlen p) (Some p) None t NULL, [], true)
      else if BIT_TEST (add_sin p) d
           then (Node d None None t (new_leaf p), [true], true)
           else (Node d None None (new_leaf p) t, [false], true)
  end.

(** Modelled from the spec: insert, [patricia_lookup] of [patricia.c]
    (absent): the tree after the insertion and the handle of the key's
    node.  The count of real nodes grows when a node became real.  When
    the node reached stores no key (a glue node with a missing child,
    which the engine never builds) the new key is compared with
    itself. *)
Definition patricia_lookup (tree : patricia_tree_t) (p : prefix_t)
  : patricia_tree_t * node_ref :=
  let x := reached p (head tree) in
  let test := match prefix_of x with
              | Some q => add_sin q
              | None => add_sin p
              end in
  let check := Nat.min (bit_of x) (bitlen p) in
  let d := differ_bit (add_sin p) test check in
  let '(t', h, created) := splice p d test (head tree) in
  ({| head := t'; maxbits := maxbits tree;
      num_active_node := if created then S (num_active_node tree)
                         else num_active_node tree |}, h).


(** Modelled from the spec: a glue node left with at most one child is
    spliced out: its place is taken by the remaining child, or by
    nothing. *)
Definition collapse (t : patricia_node_t) : patricia_node_t * bool :=
  match t with
  | Node _ None _ NULL c => (c, true)
  | Node _ None _ c NULL => (c, true)
  | _ => (t, false)
  end.

(** Modelled from the spec: remove.  A node with two children is
    demoted to glue (value and real flag cleared).  A node with at most
    one child is spliced out; a glue parent left with one child and no
    value collapses the same way, and so on upward.  The flag tells the
    parent that the node at this position was spliced out. *)
Fixpoint remove_at (t : patricia_node_t) (h : node_ref)
  : patricia_node_t * bool :=
  match t with
  | NULL => (NULL, false)
  | Node bit pfx dat l r =>
      match h with
      | [] =>
          match l, r with
          | Node _ _ _ _ _, Node _ _ _ _ _ => (Node bit None None l r, false)
          | NULL, _ => (r, true)
          | _, NULL => (l, true)
          end
      | true :: h' =>
          let '(r', spliced) := remove_at r h' in
          if spliced then collapse (Node bit pfx dat l r')
          else (Node bit pfx dat l r', false)
      | false :: h' =>
          let '(l', spliced) := remove_at l h' in
          if spliced then collapse (Node bit pfx dat l' r)
          else (Node bit pfx dat l' r, false)
      end
  end.

(** Modelled from the spec: [patricia_remove] of [patricia.c] (absent);
    the count of real nodes drops when the node removed was real. *)
Definition patricia_remove (tree : patricia_tree_t) (h : node_ref)
  : patricia_tree_t :=
  {| head := fst (remove_at (head tree) h);
     maxbits := maxbits tree;
     num_active_node :=
       if is_real (node_at (head tree) h)
       then pred (num_active_node tree) else num_active_node tree |}.

(** The store [node->data = value] of [pytricia_assign_subscript],
    through a handle. *)
Fixpoint set_data (t : patricia_node_t) (h : node_ref)
         (v : option PyObject) : patricia_node_t :=
  match t with
  | NULL => NULL
  | Node bit pfx dat l r =>
      match h with
      | [] => Node bit pfx v l r
      | true :: h' => Node bit pfx dat l (set_data r h' v)
      | false :: h' => Node bit pfx dat (set_data l h' v) r
      end
  end.

(** Modelled from the spec: [prefix_toa2x] of [patricia.c] (absent):
    canonical CIDR notation, address/length. *)
Definition prefix_toa2x (p : prefix_t) : string :=
  (dotted_quad (add_sin p) ++ "/" ++ string_of_Z (Z.of_nat (bitlen p)))%string.

(** Canonical CIDR text and the prefix it denotes: [str] is canonical
    when it is, character for character, the text "b0.b1.b2.b3/n" of
    the prefix it parses to (decimal numbers without sign, space or
    leading zero). *)
Definition canonical_cidr (str : string) : option prefix_t :=
  match pystr_to_prefix str with
  | Some p => if (prefix_toa2x p =? str)%string then Some p else None
  | None => None
  end.

(** What [make_and_lookup] hands back: a node (with the tree after the
    insertion), NULL, or nothing this model can tell. *)
Inductive made_node : Type :=
| MadeNode (tree' : patricia_tree_t) (node : node_ref)
| MadeNULL
| MadeUnspecified.

(** Modelled from the spec: [make_and_lookup] of [patricia.c] (absent)
    parses the key text with the engine's own parser and inserts the
    prefix.  That parser is not in src/ and the specification leaves
    parsing out of scope, so the model covers canonical CIDR text only,
    on which the reading of the text is not in doubt, and only a prefix
    inside the engine's domain; for any other text (an unterminated
    buffer included) it tells nothing. *)
Definition make_and_lookup (tree : patricia_tree_t) (str : string)
  : made_node :=
  match canonical_cidr str with
  | Some p =>
      if engine_defined tree p then
        let '(tree', node) := patricia_lookup tree p in MadeNode tree' node
      else MadeUnspecified
  | None => MadeUnspecified
  end.

(* ================================================================= *)
(** * Part IV.  The walk over the nodes and the iterator              *)
(* ================================================================= *)

(** Number of slots of [m_Xstack]: [PATRICIA_MAXBITS + 1]. *)
Definition XSTACK_SLOTS : nat := Z.to_nat (PATRICIA_MAXBITS + 1).

(** The step that moves [Xrn] to the next node in pre-order; the stack
    is the list of the nodes between [m_Xstack] and [m_Xsp], the top
    first.  The code does not check the push against the end of the
    buffer: [None] is a write past the last slot. *)
Definition walk_advance (rn : patricia_node_t) (sp : list patricia_node_t)
  : option (patricia_node_t * list patricia_node_t) :=
  match rn with
  | NULL => Some (rn, sp)
  | Node _ _ _ l r =>
      match l with
      | Node _ _ _ _ _ =>
          match r with
          | Node _ _ _ _ _ =>
              if List.length sp <? XSTACK_SLOTS then Some (l, r :: sp) else None
          | NULL => Some (l, sp)
          end
      | NULL =>
          match r with
          | Node _ _ _ _ _ => Some (r, sp)
          | NULL =>
              match sp with
              | top :: sp' => Some (top, sp')
              | [] => Some (NULL, [])
              end
          end
      end
  end.

Fixpoint node_count (t : patricia_node_t) : nat :=
  match t with
  | NULL => 0
  | Node _ _ _ l r => S (node_count l + node_count r)
  end.

(** Nodes the walk still has to look at: a bound on the turns of its
    loop. *)
Definition pending (rn : patricia_node_t) (sp : list patricia_node_t) : nat :=
  node_count rn + list_sum (map node_count sp).

(** Modelled from the spec: the [PATRICIA_WALK] / [PATRICIA_WALK_END]
    macros of [patricia.h] (absent), from which [pytriciaiter_next] says
    its stepping code is copied: the loop runs its body on every node
    that has a prefix.  The result lists those nodes in the order of the
    walk; [None] is a write past the stack (or no turns left, which
    [S (pending rn sp)] turns rule out). *)
Fixpoint PATRICIA_WALK_loop (fuel : nat) (rn : patricia_node_t)
         (sp : list patricia_node_t) : option (list patricia_node_t) :=
  match fuel with
  | O => None
  | S fuel' =>
      match rn with
      | NULL => Some []
      | Node _ _ _ _ _ =>
          match walk_advance rn sp with
          | None => None
          | Some (rn', sp') =>
              match PATRICIA_WALK_loop fuel' rn' sp' with
              | None => None
              | Some rest => Some (if is_real rn then rn :: rest else rest)
              end
          end
      end
  end.

Definition PATRICIA_WALK (Xhead : patricia_node_t)
  : option (list patricia_node_t) :=
  PATRICIA_WALK_loop (S (pending Xhead [])) Xhead [].

(** The iterator object. *)
Record PyTriciaIter : Type := mk_iter {
  m_tree : patricia_tree_t;
  m_Xnode : patricia_node_t;
  m_Xhead : patricia_node_t;
  m_Xsp : list patricia_node_t;
  m_Xrn : patricia_node_t
}.

Definition pytricia_iter (self : patricia_tree_t) : PyTriciaIter :=
  {| m_tree := self; m_Xnode := NULL; m_Xhead := head self;
     m_Xsp := []; m_Xrn := head self |}.

(** The [while (1)] loop of [pytriciaiter_next]; [fuel] bounds its
    turns.  Running out of turns is reported as [Undefined]; with
    [S (pending ...)] turns it does not happen. *)
Fixpoint pytriciaiter_next_loop (fuel : nat) (iter : PyTriciaIter)
  : PyResult string * PyTriciaIter :=
  match fuel with
  | O => (Undefined, iter)
  | S fuel' =>
      let Xnode := m_Xrn iter in
      match Xnode with
      | NULL =>
          (Raise StopIteration EmptyString,
           mk_iter (m_tree iter) Xnode (m_Xhead iter) (m_Xsp iter) (m_Xrn iter))
      | Node _ pfx _ _ _ =>
          match walk_advance Xnode (m_Xsp iter) with
          | None => (Undefined, iter)
          | Some (rn', sp') =>
              let iter' := mk_iter (m_tree iter) Xnode (m_Xhead iter) sp' rn' in
              match pfx with
              | Some prefix => (Return (prefix_toa2x prefix), iter')
              | None => pytriciaiter_next_loop fuel' iter'
              end
          end
      end
  end.

Definition pytriciaiter_next (iter : PyTriciaIter)
  : PyResult string * PyTriciaIter :=
  pytriciaiter_next_loop (S (pending (m_Xrn iter) (m_Xsp iter))) iter.

(* ================================================================= *)
(** * Part V.  The methods of the [PyTricia] object                   *)
(* ================================================================= *)

Definition INT_MIN : Z := -2147483648.
Definition INT_MAX : Z := 2147483647.

(** [PyArg_ParseTuple (args, "|i", &prefixlen)]: at most one argument,
    an integer that fits a C [int]. *)
Definition parse_optional_int (args : list PyObject) (default : Z) : option Z :=
  match args with
  | [] => Some default
  | [PyLong v] => if ((INT_MIN <=? v) && (v <=? INT_MAX))%Z then Some v else None
  | [PyBool b] => Some (if b then 1%Z else 0%Z)
  | _ => None
  end.

(** [pytricia_init]: the return value (0 is [Return tt], -1 comes with
    the exception set) and the tree stored into [self->m_tree]. *)
Definition pytricia_init (args : list PyObject)
  : PyResult unit * patricia_tree_t :=
  match parse_optional_int args 32%Z with
  | None =>
      (Raise ValueError "Error parsing prefix length.", New_Patricia 1)
  | Some prefixlen =>
      if ((prefixlen <? 0) || (PATRICIA_MAXBITS <? prefixlen))%Z then
        (Raise ValueError
           "Invalid number of maximum bits; must be between 0 and 128, inclusive.",
         New_Patricia 1)
      else (Return tt, New_Patricia prefixlen)
  end.

Definition pytricia_length (self : patricia_tree_t) : PyResult nat :=
  match PATRICIA_WALK (head self) with
  | Some nodes => Return (List.length nodes)
  | None => Undefined
  end.

(** A function of the method table returns to the interpreter, which
    checks the result: a value returned while an exception is set is
    refused with SystemError (the interpreter's message names the
    callable first).  [pending] is the error indicator the key
    conversion left. *)
Definition method_return {A : Type} (pending : option PyExc) (r : PyResult A)
  : PyResult A :=
  match r, pending with
  | Return _, Some _ =>
      Raise SystemError "returned a result with an exception set"
  | _, _ => r
  end.

(** A slot ([mp_subscript], [sq_contains]) returns to the interpreter
    unchecked: a value returned while an exception is set has no
    defined outcome. *)
Definition slot_return {A : Type} (pending : option PyExc) (r : PyResult A)
  : PyResult A :=
  match r, pending with
  | Return _, Some _ => Undefined
  | _, _ => r
  end.

Definition pytricia_subscript (self : patricia_tree_t) (key : PyObject)
  : PyResult PyObject :=
  let '(rv, keystr) := convert_key_to_cstring key in
  if (rv <? 0)%Z then Raise ValueError "Error parsing key."
  else if negb (keystr_terminated keystr) then Undefined
  else
    match pystr_to_prefix keystr with
    | None => Raise ValueError "Error parsing prefix."
    | Some subnet =>
        if negb (engine_defined self subnet) then Undefined
        else
          match patricia_search_best self subnet with
          | None => Raise KeyError "Prefix not found."
          | Some node =>
              match data_of (node_at (head self) node) with
              | Some data => slot_return (convert_key_error key) (Return data)
              | None => Undefined
              end
          end
    end.

(** A C helper: the value is what the function returns to its caller
    in C (0 is [Return tt], -1 comes with the exception it set); an
    exception the key conversion left is not touched. *)
Definition pytricia_internal_delete (self : patricia_tree_t) (key : PyObject)
  : PyResult unit * patricia_tree_t :=
  let '(rv, keystr) := convert_key_to_cstring key in
  if (rv <? 0)%Z then (Raise ValueError "Error parsing key.", self)
  else if negb (keystr_terminated keystr) then (Undefined, self)
  else
    match pystr_to_prefix keystr with
    | None => (Raise ValueError "Error parsing prefix.", self)
    | Some prefix =>
        if negb (engine_defined self prefix) then (Undefined, self)
        else
          match patricia_search_exact self prefix with
          | None => (Raise KeyError "Prefix doesn't exist.", self)
          | Some node => (Return tt, patricia_remove self node)
          end
    end.

(** [value] is [None] for the NULL the interpreter passes on [del].
    The value is what the C function returns (0 is [Return tt]);
    [pytricia_insert] calls it as a C function.  As the slot behind
    [t[key] = v] it is subject to [convert_key_error] like the other
    slots: the statements about assignment are made for keys that leave
    no exception set. *)
Definition pytricia_assign_subscript (self : patricia_tree_t)
           (key : PyObject) (value : option PyObject)
  : PyResult unit * patricia_tree_t :=
  match value with
  | None => pytricia_internal_delete self key
  | Some v =>
      let '(rv, keystr) := convert_key_to_cstring key in
      if (rv <? 0)%Z then (Raise ValueError "Error parsing key.", self)
      else
        match make_and_lookup self keystr with
        | MadeUnspecified => (Undefined, self)
        | MadeNULL =>
            (Raise ValueError "Error inserting into patricia tree", self)
        | MadeNode tree' node =>
            (Return tt,
             {| head := set_data (head tree') node (Some v);
                maxbits := maxbits tree';
                num_active_node := num_active_node tree' |})
        end
  end.

(** [PyArg_ParseTuple] sets [TypeError] when the argument count is
    wrong. *)
Definition pytricia_insert (self : patricia_tree_t) (args : list PyObject)
  : PyResult PyObject * patricia_tree_t :=
  match args with
  | [key; value] =>
      match pytricia_assign_subscript self key (Some value) with
      | (Return _, self') =>
          (method_return (convert_key_error key) (Return PyNone), self')
      | (Raise e m, self') => (Raise e m, self')
      | (Undefined, self') => (Undefined, self')
      end
  | _ => (Raise TypeError "function takes exactly 2 arguments", self)
  end.

Definition pytricia_delitem (self : patricia_tree_t) (args : list PyObject)
  : PyResult PyObject * patricia_tree_t :=
  match args with
  | [key] =>
      match pytricia_internal_delete self key with
      | (Return _, self') =>
          (method_return (convert_key_error key) (Return PyNone), self')
      | (Raise e m, self') => (Raise e m, self')
      | (Undefined, self') => (Undefined, self')
      end
  | _ => (Raise ValueError "Unclear what happened!", self)
  end.

Definition pytricia_get (obj : patricia_tree_t) (args : list PyObject)
  : PyResult PyObject :=
  let parsed :=
    match args with
    | [key] => Some (key, None)
    | [key; defvalue] => Some (key, Some defvalue)
    | _ => None
    end in
  match parsed with
  | None => Raise TypeError "get() takes 1 or 2 arguments"
  | Some (key, defvalue) =>
      let '(rv, keystr) := convert_key_to_cstring key in
      if (rv <? 0)%Z then Raise ValueError "Error parsing key."
      else if negb (keystr_terminated keystr) then Undefined
      else
        match pystr_to_prefix keystr with
        | None => Raise ValueError "Error parsing prefix."
        | Some prefix =>
            if negb (engine_defined obj prefix) then Undefined
            else
              match patricia_search_best obj prefix with
              | None =>
                  match defvalue with
                  | Some d => method_return (convert_key_error key) (Return d)
                  | None => method_return (convert_key_error key) (Return PyNone)
                  end
              | Some node =>
                  match data_of (node_at (head obj) node) with
                  | Some data =>
                      method_return (convert_key_error key) (Return data)
                  | None => Undefined
                  end
              end
        end
  end.

(** [pytricia_contains]: 1 is [Return true], 0 is [Return false], -1
    comes with the exception. *)
Definition pytricia_contains (self : patricia_tree_t) (key : PyObject)
  : PyResult bool :=
  let '(rv, keystr) := convert_key_to_cstring key in
  if (rv <? 0)%Z then Raise ValueError "Error parsing key."
  else if negb (keystr_terminated keystr) then Undefined
  else
    match pystr_to_prefix keystr with
    | None => Raise ValueError "Error parsing prefix."
    | Some prefix =>
        if negb (engine_defined self prefix) then Undefined
        else
          match patricia_search_best self prefix with
          | Some _ => slot_return (convert_key_error key) (Return true)
          | None => slot_return (convert_key_error key) (Return false)
          end
    end.

Definition pytricia_has_key (self : patricia_tree_t) (args : list PyObject)
  : PyResult PyObject :=
  match args with
  | [key] =>
      let '(rv, keystr) := convert_key_to_cstring key in
      if (rv <? 0)%Z then Raise ValueError "Error parsing key."
      else if negb (keystr_terminated keystr) then Undefined
      else
        match pystr_to_prefix keystr with
        | None => Raise ValueError "Error parsing prefix."
        | Some prefix =>
            if negb (engine_defined self prefix) then Undefined
            else
              match patricia_search_exact self prefix with
              | Some _ =>
                  method_return (convert_key_error key) (Return (PyBool true))
              | None =>
                  method_return (convert_key_error key) (Return (PyBool false))
              end
        end
  | _ => Raise TypeError "function takes exactly 1 argument"
  end.

Definition pytricia_keys (self : patricia_tree_t) : PyResult (list string) :=
  match PATRICIA_WALK (head self) with
  | None => Undefined
  | Some nodes =>
      Return (flat_map (fun n => match prefix_of n with
                                 | Some q => [prefix_toa2x q]
                                 | None => []
                                 end) nodes)
  end.

(* ================================================================= *)
(** * Part VI.  Notions the statements are written with               *)
(* ================================================================= *)

(** Two key buffers agree on their first [n] bits. *)
Definition agree (a b : list Z) (n : nat) : Prop :=
  forall i, i < n -> BIT_TEST a i = BIT_TEST b i.

(** Same (bits masked to bitlen, bitlen) pair. *)
Definition same_key (q p : prefix_t) : Prop :=
  bitlen q = bitlen p /\ agree (add_sin q) (add_sin p) (bitlen p).

Definition same_keyb (q p : prefix_t) : bool :=
  (bitlen q =? bitlen p) && comp_with_mask (add_sin q) (add_sin p) (bitlen p).

(** The stored prefix [q] covers the query [p]. *)
Definition covers (q p : prefix_t) : Prop :=
  bitlen q <= bitlen p /\ agree (add_sin q) (add_sin p) (bitlen q).

(** The nodes that have a prefix, in pre-order. *)
Fixpoint real_nodes (t : patricia_node_t) : list patricia_node_t :=
  match t with
  | NULL => []
  | Node _ pfx _ l r =>
      (if is_real t then [t] else []) ++ real_nodes l ++ real_nodes r
  end.

(** The stored prefixes, in pre-order. *)
Fixpoint keys (t : patricia_node_t) : list prefix_t :=
  match t with
  | NULL => []
  | Node _ pfx _ l r =>
      (match pfx with Some q => [q] | None => [] end) ++ keys l ++ keys r
  end.

Definition stored (tree : patricia_tree_t) (p : prefix_t) : Prop :=
  exists q, In q (keys (head tree)) /\ same_key q p.

Definition covered (tree : patricia_tree_t) (p : prefix_t) : Prop :=
  exists q, In q (keys (head tree)) /\ covers q p.

(** Most slots of the walk's stack in use at once below [t]. *)
Fixpoint stack_need (t : patricia_node_t) : nat :=
  match t with
  | NULL => 0
  | Node _ _ _ l r =>
      match l, r with
      | Node _ _ _ _ _, Node _ _ _ _ _ =>
          Nat.max (S (stack_need l)) (stack_need r)
      | _, _ => Nat.max (stack_need l) (stack_need r)
      end
  end.

(** The shape the engine keeps: a real node is as long as its key; a
    glue node has two children; bit lengths grow strictly downward; the
    keys below a node agree on the node's leading bits and sit on the
    side their next bit selects. *)
Fixpoint wf_node (t : patricia_node_t) : Prop :=
  match t with
  | NULL => True
  | Node bit pfx _ l r =>
      (forall q, pfx = Some q -> bitlen q = bit) /\
      (pfx = None -> l <> NULL /\ r <> NULL) /\
      (forall q, In q (keys l) -> BIT_TEST (add_sin q) bit = false) /\
      (forall q, In q (keys r) -> BIT_TEST (add_sin q) bit = true) /\
      (forall q q', In q (keys t) -> In q' (keys t) ->
                    agree (add_sin q) (add_sin q') bit) /\
      (l <> NULL -> bit < bit_of l) /\
      (r <> NULL -> bit < bit_of r) /\
      wf_node l /\ wf_node r
  end.

(** Every real node carries a value and no glue node does. *)
Fixpoint data_ok (t : patricia_node_t) : Prop :=
  match t with
  | NULL => True
  | Node _ pfx dat l r =>
      (pfx = None <-> dat = None) /\ data_ok l /\ data_ok r
  end.

(** The trees a program can hold: built by the constructor and changed
    by assignment and deletion only. *)
Inductive reachable : patricia_tree_t -> Prop :=
| reachable_init : forall args tree,
    pytricia_init args = (Return tt, tree) -> reachable tree
| reachable_assign : forall tree key value r tree',
    reachable tree ->
    pytricia_assign_subscript tree key value = (r, tree') ->
    reachable tree'.

(** Operations of a program on one tree, and the tree they leave. *)
Inductive pytricia_op : Type :=
| OpAssign (key value : PyObject)
| OpDelete (key : PyObject).

Definition apply_op (tree : patricia_tree_t) (o : pytricia_op)
  : patricia_tree_t :=
  match o with
  | OpAssign key value => snd (pytricia_assign_subscript tree key (Some value))
  | OpDelete key => snd (pytricia_internal_delete tree key)
  end.

Definition run_ops (tree : patricia_tree_t) (ops : list pytricia_op)
  : patricia_tree_t :=
  fold_left apply_op ops tree.

(** The distinct (bits, bitlen) pairs inserted and not deleted since, for
    operations whose outcome is defined ([op_defined]). *)
Definition model_op (m : list prefix_t) (o : pytricia_op) : list prefix_t :=
  match o with
  | OpAssign key _ =>
      match key_to_prefix key with
      | KeyOk p => if existsb (fun q => same_keyb q p) m then m else p :: m
      | _ => m
      end
  | OpDelete key =>
      match key_to_prefix key with
      | KeyOk p => filter (fun q => negb (same_keyb q p)) m
      | _ => m
      end
  end.

Definition model_ops (ops : list pytricia_op) : list prefix_t :=
  fold_left model_op ops [].

(** The first [n] calls of [next] on an iterator: what each returned. *)
Fixpoint iterate_next (n : nat) (iter : PyTriciaIter) : list (PyResult string) :=
  match n with
  | O => []
  | S n' =>
      let '(r, iter') := pytriciaiter_next iter in
      r :: iterate_next n' iter'
  end.


Definition is_KeyError {A : Type} (r : PyResult A) : Prop :=
  exists msg, r = Raise KeyError msg.

Definition str (s : string) : PyObject := PyUnicode (Some s).

(** What a walk in state ([rn], [sp]) still has to produce. *)
Definition walk_list (rn : patricia_node_t) (sp : list patricia_node_t)
  : list patricia_node_t :=
  real_nodes rn ++ flat_map real_nodes sp.

(** Every node waiting on the stack fits the slots above it. *)
Fixpoint stack_fits (sp : list patricia_node_t) : Prop :=
  match sp with
  | [] => True
  | x :: sp' =>
      x <> NULL /\ stack_need x + List.length sp' <= XSTACK_SLOTS /\ stack_fits sp'
  end.

Definition walk_inv (rn : patricia_node_t) (sp : list patricia_node_t) : Prop :=
  (rn = NULL -> sp = []) /\
  stack_need rn + List.length sp <= XSTACK_SLOTS /\
  stack_fits sp.

(** The text the iterator hands back for a node. *)
Definition node_text (x : patricia_node_t) : string :=
  match prefix_of x with
  | Some q => prefix_toa2x q
  | None => EmptyString
  end.

Definition StopIteration_raised : PyResult string :=
  Raise StopIteration EmptyString.

(** The best match below [t] as a handle relative to [t]: the deepest
    matching real node on the query's path. *)
Fixpoint best_below (p : prefix_t) (t : patricia_node_t) : option node_ref :=
  match t with
  | NULL => None
  | Node bit pfx _ l r =>
      if bitlen p <? bit then None
      else
        let deeper :=
          if BIT_TEST (add_sin p) bit
          then option_map (cons true) (best_below p r)
          else option_map (cons false) (best_below p l) in
        match pfx with
        | Some q =>
            if comp_with_mask (add_sin q) (add_sin p) bit then
              match deeper with
              | Some h => Some h
              | None => Some []
              end
            else None
        | None => deeper
        end
  end.

(** [K'] is [K] with [p] put in at some place. *)
Definition adds (p : prefix_t) (K K' : list prefix_t) : Prop :=
  exists k1 k2, K = k1 ++ k2 /\ K' = k1 ++ p :: k2.

(** What one insertion step below a node guarantees: see [splice]. *)
Definition splice_ok (p : prefix_t) (t t' : patricia_node_t)
           (h : node_ref) (created : bool) : Prop :=
  wf_node t' /\ t' <> NULL /\
  (created = true ->
   adds p (keys t) (keys t') /\
   (forall k, In k (keys t) -> ~ same_key k p) /\
   prefix_of (node_at t' h) = Some p) /\
  (created = false ->
   t' = t /\ search_exact_from p t = Some h /\
   exists q0, prefix_of (node_at t h) = Some q0 /\ In q0 (keys t) /\ same_key q0 p).

(** No two keys of the list are the same (bits, bitlen) pair. *)
Fixpoint distinct (K : list prefix_t) : Prop :=
  match K with
  | [] => True
  | a :: K' => (forall b, In b K' -> ~ same_key a b) /\ distinct K'
  end.

(** What holds of every tree a program can hold. *)
Definition tree_inv (tree : patricia_tree_t) : Prop :=
  wf_node (head tree) /\
  data_ok (head tree) /\
  num_active_node tree = List.length (keys (head tree)) /\
  (forall q, In q (keys (head tree)) -> List.length (add_sin q) <= 4).

(** The two lists hold the same (bits, bitlen) pairs. *)
Definition same_set (m K : list prefix_t) : Prop :=
  forall x, (exists q, In q m /\ same_key q x) <->
            (exists q, In q K /\ same_key q x).

(** The list [m] of distinct pairs describes the content of [tree]. *)
Definition models (m : list prefix_t) (tree : patricia_tree_t) : Prop :=
  tree_inv tree /\ distinct m /\
  same_set m (keys (head tree)) /\
  List.length m = List.length (keys (head tree)).

Fixpoint all_digits (s : string) : bool :=
  match s with
  | EmptyString => true
  | String c s' => isdigit c && all_digits s'
  end.

(** What the decimal text of an address byte looks like: one to three
    digits, no leading zero, and the value read back is the byte. *)
Definition byte_text_ok (b : Z) : bool :=
  match string_of_Z b with
  | EmptyString => false
  | String c s' =>
      isdigit c && all_digits s' && (String.length s' <=? 2)
      && (if (c =? "0")%char then String.length s' =? 0 else true)
      && (fst (strto_digits 10 0 (String c s')) =? b)%Z
  end.

Fixpoint has_char (c : ascii) (s : string) : bool :=
  match s with
  | EmptyString => false
  | String a s' => (a =? c)%char || has_char c s'
  end.

(** The first character after a number: the end of the string or a
    character that is no digit. *)
Definition ends_number (rest : string) : Prop :=
  match rest with
  | EmptyString => True
  | String c _ => isdigit c = false
  end.

(** The tree after [t[key] = v], for a key that parsed to [p]. *)
Definition assigned (tree : patricia_tree_t) (p : prefix_t) (v : PyObject)
  : patricia_tree_t :=
  {| head := set_data (head (fst (patricia_lookup tree p)))
                      (snd (patricia_lookup tree p)) (Some v);
     maxbits := maxbits (fst (patricia_lookup tree p));
     num_active_node := num_active_node (fst (patricia_lookup tree p)) |}.

(** ** The trees of the worked example *)

Definition fresh_tree : patricia_tree_t := snd (pytricia_init []).

Definition scenario_a : patricia_tree_t :=
  snd (pytricia_assign_subscript fresh_tree (str "10.0.0.0/8") (Some (str "A"))).

Definition scenario_b : patricia_tree_t :=
  snd (pytricia_assign_subscript scenario_a (str "10.1.0.0/16") (Some (str "B"))).

Definition scenario_tree : patricia_tree_t :=
  snd (pytricia_assign_subscript scenario_b (str "10.1.1.0/24") (Some (str "C"))).

Definition scenario_after_delete : patricia_tree_t :=
  snd (pytricia_delitem scenario_tree [str "10.1.0.0/16"]).

(** Splits a hypothesis [wf_node (Node ...)] into its parts. *)
Ltac wf_split H :=
  let Hlen := fresh "Hlen" in
  let Hglue := fresh "Hglue" in
  let Hkl := fresh "Hkl" in
  let Hkr := fresh "Hkr" in
  let Hag := fresh "Hag" in
  let Hbl := fresh "Hbl" in
  let Hbr := fresh "Hbr" in
  let Hwl := fresh "Hwl" in
  let Hwr := fresh "Hwr" in
  cbn [wf_node] in H;
  destruct H as (Hlen & Hglue & Hkl & Hkr & Hag & Hbl & Hbr & Hwl & Hwr).

(** Exact search for the prefix a key parses to; nothing when the key
    does not parse cleanly. *)
Definition patricia_search_exact_key (tree : patricia_tree_t) (key : PyObject)
  : option node_ref :=
  match key_to_prefix key with
  | KeyOk p => patricia_search_exact tree p
  | _ => None
  end.

(** An address byte. *)
Definition is_byte (b : Z) : Prop := (0 <= b < 256)%Z.

(** A prefix as the codec builds it: IPv4 family, four address bytes,
    a length that fits an [unsigned short]. *)
Definition prefix_wf (p : prefix_t) : Prop :=
  family p = AF_INET /\ (Z.of_nat (bitlen p) <= 65535)%Z /\
  List.length (add_sin p) = 4 /\ Forall is_byte (add_sin p).

(** The text after the slash does not start with a number: it is empty
    or starts with a character that is no digit, no white space and no
    sign. *)
Definition starts_without_number (after : string) : bool :=
  match after with
  | EmptyString => true
  | String c _ =>
      negb (isdigit c) && negb (isspace c)
      && negb (c =? "+")%char && negb (c =? "-")%char
  end.

(** What the decimal text of a mask length looks like: at most five
    characters, no NUL, and [atoi] reads the length back. *)
Definition length_text_ok (n : Z) : bool :=
  let s := string_of_Z n in
  (String.length s <=? 5) && negb (has_char "000" s)
  && (atoi s =? n)%Z.

(** The key buffer holds canonical CIDR text: the keys on which
    assignment is modelled (see [make_and_lookup]).  Every integer key
    is one, its text is a dotted quad followed by "/32". *)
Definition canonical_key (key : PyObject) : bool :=
  match canonical_cidr (snd (convert_key_to_cstring key)) with
  | Some _ => true
  | None => false
  end.

(** The keys on which a read or a deletion is defined: a key the codec
    rejects (the method raises ValueError), or a key that parses cleanly
    to a prefix inside the engine's domain. *)
Definition key_defined (tree : patricia_tree_t) (key : PyObject) : bool :=
  match key_to_prefix key with
  | KeyOk p => engine_defined tree p
  | KeyBadObject | KeyBadPrefix => true
  | KeyOverrun | KeyErrSet _ => false
  end.

(** The operations of a program that stay inside what is defined, on a
    tree of maximum length [mb]: an assignment takes a canonical key
    that parses cleanly to a prefix inside the engine's domain, or an
    object that is no key at all; a deletion takes a key on which
    deletion is defined. *)
Definition op_defined (mb : Z) (o : pytricia_op) : bool :=
  match o with
  | OpAssign key _ =>
      match key_to_prefix key with
      | KeyOk p => canonical_key key && prefix_in_domain mb p
      | KeyBadObject => true
      | _ => false
      end
  | OpDelete key =>
      match key_to_prefix key with
      | KeyOk p => prefix_in_domain mb p
      | KeyBadObject | KeyBadPrefix => true
      | _ => false
      end
  end.

(* ================================================================= *)
(** * Part VII.  Bits and keys                                        *)
(* ================================================================= *)

Lemma first_diff_from_spec (a b : list Z) (n i : nat) :
  let d := first_diff_from a b i n in
  i <= d <= i + n /\
  (forall j, i <= j < d -> BIT_TEST a j = BIT_TEST b j) /\
  (d < i + n -> BIT_TEST a d <> BIT_TEST b d).
Proof.
  revert i. induction n as [|n IH]; intros i; simpl.
  - repeat split; try lia.
  - destruct (Bool.eqb (BIT_TEST a i) (BIT_TEST b i)) eqn:E.
    + specialize (IH (S i)). simpl in IH. destruct IH as (Hr & Hag & Hne).
      apply Bool.eqb_prop in E.
      repeat split; try lia.
      * intros j Hj. destruct (Nat.eq_dec j i) as [->|Hji]; [exact E|].
        apply Hag. lia.
      * intros Hd. apply Hne. lia.
    + repeat split; try lia.
      intros _ Heq. rewrite Heq in E. rewrite Bool.eqb_reflx in E. discriminate.
Qed.

Lemma differ_bit_le (a b : list Z) (n : nat) : differ_bit a b n <= n.
Proof.
  unfold differ_bit. pose proof (first_diff_from_spec a b n 0) as H.
  simpl in H. lia.
Qed.

Lemma differ_bit_agree (a b : list Z) (n : nat) :
  agree a b (differ_bit a b n).
Proof.
  unfold differ_bit, agree. intros i Hi.
  pose proof (first_diff_from_spec a b n 0) as H. simpl in H.
  apply H. lia.
Qed.

Lemma differ_bit_differs (a b : list Z) (n : nat) :
  differ_bit a b n < n ->
  BIT_TEST a (differ_bit a b n) <> BIT_TEST b (differ_bit a b n).
Proof.
  unfold differ_bit. intros Hd.
  pose proof (first_diff_from_spec a b n 0) as H. simpl in H.
  apply H. exact Hd.
Qed.

Lemma differ_bit_full (a b : list Z) (n : nat) :
  agree a b n -> differ_bit a b n = n.
Proof.
  intros Hag. pose proof (differ_bit_le a b n) as Hle.
  destruct (Nat.eq_dec (differ_bit a b n) n) as [E|E]; [exact E|].
  exfalso. apply (@differ_bit_differs a b n); [lia|].
  apply Hag. lia.
Qed.

Lemma comp_with_mask_true (a b : list Z) (n : nat) :
  comp_with_mask a b n = true <-> agree a b n.
Proof.
  unfold comp_with_mask. rewrite Nat.eqb_eq. split.
  - intros E. rewrite <- E at 1. apply differ_bit_agree.
  - apply differ_bit_full.
Qed.

Lemma comp_with_mask_false (a b : list Z) (n : nat) :
  comp_with_mask a b n = false <-> ~ agree a b n.
Proof.
  rewrite <- comp_with_mask_true.
  destruct (comp_with_mask a b n); split; intros H; congruence.
Qed.

Lemma agree_refl (a : list Z) (n : nat) : agree a a n.
Proof. intros i _. reflexivity. Qed.

Lemma agree_sym (a b : list Z) (n : nat) : agree a b n -> agree b a n.
Proof. intros H i Hi. symmetry. apply H. exact Hi. Qed.

Lemma agree_trans (a b c : list Z) (n : nat) :
  agree a b n -> agree b c n -> agree a c n.
Proof. intros H1 H2 i Hi. rewrite (H1 i Hi). apply H2. exact Hi. Qed.

Lemma agree_le (a b : list Z) (n m : nat) :
  m <= n -> agree a b n -> agree a b m.
Proof. intros Hmn H i Hi. apply H. lia. Qed.

Lemma same_keyb_true (q p : prefix_t) :
  same_keyb q p = true <-> same_key q p.
Proof.
  unfold same_keyb, same_key.
  rewrite Bool.andb_true_iff, Nat.eqb_eq, comp_with_mask_true. tauto.
Qed.

Lemma same_key_refl (p : prefix_t) : same_key p p.
Proof. split; [reflexivity | apply agree_refl]. Qed.

Lemma same_key_sym (q p : prefix_t) : same_key q p -> same_key p q.
Proof.
  intros [Hl Ha]. split; [congruence|].
  rewrite Hl. apply agree_sym. exact Ha.
Qed.

Lemma same_key_trans (a b c : prefix_t) :
  same_key a b -> same_key b c -> same_key a c.
Proof.
  intros [Hl1 Ha1] [Hl2 Ha2]. split; [congruence|].
  apply agree_trans with (add_sin b); [|exact Ha2].
  rewrite <- Hl2. exact Ha1.
Qed.

Lemma same_key_covers (q p : prefix_t) : same_key q p -> covers q p.
Proof.
  intros [Hl Ha]. split; [lia|]. rewrite Hl. exact Ha.
Qed.

(* ================================================================= *)
(** * Part VIII.  The walk visits every real node once, in pre-order  *)
(* ================================================================= *)

Lemma walk_inv_start (t : patricia_node_t) :
  stack_need t <= XSTACK_SLOTS -> walk_inv t [].
Proof.
  intros H. unfold walk_inv. simpl. repeat split; auto. lia.
Qed.

Lemma walk_advance_pending rn sp rn' sp' :
  rn <> NULL ->
  walk_advance rn sp = Some (rn', sp') ->
  S (pending rn' sp') = pending rn sp.
Proof.
  intros Hnn Hadv. unfold walk_advance in Hadv. unfold pending.
  destruct rn as [|bit pfx dat l r]; [contradiction|].
  destruct l as [|lb lp ld ll lr]; destruct r as [|rb rp rd rl rr].
  - destruct sp as [|top sp0]; inversion Hadv; subst; simpl; lia.
  - inversion Hadv; subst; simpl; lia.
  - inversion Hadv; subst; simpl; lia.
  - destruct (List.length sp <? XSTACK_SLOTS); inversion Hadv; subst.
    simpl. lia.
Qed.

Lemma walk_advance_ok bit pfx dat l r sp :
  walk_inv (Node bit pfx dat l r) sp ->
  exists rn' sp',
    walk_advance (Node bit pfx dat l r) sp = Some (rn', sp') /\
    walk_inv rn' sp' /\
    walk_list rn' sp' = real_nodes l ++ real_nodes r ++ flat_map real_nodes sp.
Proof.
  intros (_ & Hneed & Hfits). unfold walk_list.
  destruct l as [|lb lp ld ll lr]; destruct r as [|rb rp rd rl rr].
  - destruct sp as [|top sp'].
    + exists NULL, []. simpl. unfold walk_inv. simpl. intuition lia.
    + exists top, sp'. simpl in Hfits. destruct Hfits as (Hnn & Htop & Hrest).
      simpl. unfold walk_inv. intuition.
  - eexists _, sp. simpl walk_advance. split; [reflexivity|].
    simpl in Hneed. unfold walk_inv. split; [|reflexivity].
    split; [discriminate|]. split; [simpl; lia | exact Hfits].
  - eexists _, sp. simpl walk_advance. split; [reflexivity|].
    simpl in Hneed. unfold walk_inv. split.
    + split; [discriminate|]. split; [simpl; lia | exact Hfits].
    + simpl. rewrite ?app_nil_r. reflexivity.
  - change (stack_need (Node bit pfx dat (Node lb lp ld ll lr) (Node rb rp rd rl rr)))
      with (Nat.max (S (stack_need (Node lb lp ld ll lr)))
                    (stack_need (Node rb rp rd rl rr))) in Hneed.
    assert (Hlt : List.length sp < XSTACK_SLOTS) by lia.
    exists (Node lb lp ld ll lr), (Node rb rp rd rl rr :: sp).
    unfold walk_advance. apply Nat.ltb_lt in Hlt. rewrite Hlt.
    apply Nat.ltb_lt in Hlt.
    split; [reflexivity|]. split.
    + unfold walk_inv. split; [discriminate|]. split.
      * simpl List.length. lia.
      * cbn [stack_fits]. split; [discriminate|]. split; [lia | exact Hfits].
    + cbn [flat_map]. reflexivity.
Qed.

Lemma PATRICIA_WALK_loop_correct (fuel : nat) :
  forall rn sp,
    pending rn sp < fuel -> walk_inv rn sp ->
    PATRICIA_WALK_loop fuel rn sp = Some (walk_list rn sp).
Proof.
  induction fuel as [|fuel IH]; intros rn sp Hfuel Hinv; [lia|].
  destruct rn as [|bit pfx dat l r].
  - destruct Hinv as (Hnull & _). rewrite (Hnull eq_refl). reflexivity.
  - destruct (walk_advance_ok _ _ _ _ _ _ Hinv) as (rn' & sp' & Hadv & Hinv' & Hlist).
    assert (Hpend := @walk_advance_pending _ sp rn' sp'
                       (ltac:(discriminate) : Node bit pfx dat l r <> NULL) Hadv).
    cbn [PATRICIA_WALK_loop]. rewrite Hadv.
    rewrite (IH rn' sp'); [|lia|exact Hinv'].
    rewrite Hlist. unfold walk_list. cbn [real_nodes].
    destruct (is_real (Node bit pfx dat l r)); simpl; rewrite <- ?app_assoc; reflexivity.
Qed.

Lemma PATRICIA_WALK_correct (t : patricia_node_t) :
  stack_need t <= XSTACK_SLOTS -> PATRICIA_WALK t = Some (real_nodes t).
Proof.
  intros H. unfold PATRICIA_WALK.
  rewrite PATRICIA_WALK_loop_correct; [|lia|apply walk_inv_start; exact H].
  unfold walk_list. simpl. rewrite app_nil_r. reflexivity.
Qed.

(** More turns than pending nodes never change the result of the walk. *)
Lemma PATRICIA_WALK_loop_fuel (fuel : nat) :
  forall fuel' rn sp,
    pending rn sp < fuel -> pending rn sp < fuel' ->
    PATRICIA_WALK_loop fuel rn sp = PATRICIA_WALK_loop fuel' rn sp.
Proof.
  induction fuel as [|fuel IH]; intros fuel' rn sp Hfuel Hfuel'; [lia|].
  destruct fuel' as [|fuel']; [lia|].
  destruct rn as [|bit pfx dat l r]; [reflexivity|].
  cbn [PATRICIA_WALK_loop].
  destruct (walk_advance (Node bit pfx dat l r) sp) as [[rn' sp']|] eqn:Hadv;
    [|reflexivity].
  assert (Hpend := @walk_advance_pending _ sp rn' sp'
                     (ltac:(discriminate) : Node bit pfx dat l r <> NULL) Hadv).
  rewrite (IH fuel' rn' sp') by lia. reflexivity.
Qed.

Lemma real_nodes_keys (t : patricia_node_t) :
  map node_text (real_nodes t) = map prefix_toa2x (keys t).
Proof.
  induction t as [|bit pfx dat l IHl r IHr]; [reflexivity|].
  cbn [real_nodes keys]. rewrite !map_app, IHl, IHr.
  destruct pfx as [q|]; reflexivity.
Qed.

Lemma real_nodes_length (t : patricia_node_t) :
  List.length (real_nodes t) = List.length (keys t).
Proof.
  rewrite <- (length_map node_text), real_nodes_keys, length_map. reflexivity.
Qed.

Lemma pytriciaiter_next_loop_spec (fuel : nat) :
  forall iter,
    pending (m_Xrn iter) (m_Xsp iter) < fuel ->
    walk_inv (m_Xrn iter) (m_Xsp iter) ->
    match walk_list (m_Xrn iter) (m_Xsp iter) with
    | [] =>
        exists iter',
          pytriciaiter_next_loop fuel iter = (StopIteration_raised, iter') /\
          m_Xrn iter' = NULL /\ m_Xsp iter' = []
    | x :: rest =>
        exists iter',
          pytriciaiter_next_loop fuel iter = (Return (node_text x), iter') /\
          walk_inv (m_Xrn iter') (m_Xsp iter') /\
          walk_list (m_Xrn iter') (m_Xsp iter') = rest
    end.
Proof.
  induction fuel as [|fuel IH]; intros iter Hfuel Hinv; [lia|].
  destruct iter as [tree xnode xhead sp rn]. cbn [m_Xrn m_Xsp] in *.
  destruct rn as [|bit pfx dat l r].
  - destruct Hinv as (Hnull & _). rewrite (Hnull eq_refl).
    unfold walk_list. simpl. eexists. split; [reflexivity|]. split; reflexivity.
  - destruct (walk_advance_ok _ _ _ _ _ _ Hinv) as (rn' & sp' & Hadv & Hinv' & Hlist).
    assert (Hpend := @walk_advance_pending _ sp rn' sp'
                       (ltac:(discriminate) : Node bit pfx dat l r <> NULL) Hadv).
    assert (Hwl : walk_list (Node bit pfx dat l r) sp =
                  (if is_real (Node bit pfx dat l r)
                   then [Node bit pfx dat l r] else []) ++ walk_list rn' sp').
    { rewrite Hlist. unfold walk_list. cbn [real_nodes].
      rewrite <- !app_assoc. reflexivity. }
    rewrite Hwl. clear Hwl Hlist.
    cbn [pytriciaiter_next_loop m_Xrn m_Xsp m_tree m_Xhead]. rewrite Hadv.
    destruct pfx as [q|].
    + cbn [is_real prefix_of app]. eexists. split; [reflexivity|].
      cbn [m_Xrn m_Xsp]. split; [exact Hinv' | reflexivity].
    + cbn [is_real prefix_of app].
      specialize (IH (mk_iter tree (Node bit None dat l r) xhead sp' rn')).
      cbn [m_Xrn m_Xsp] in IH. apply IH; [lia | exact Hinv'].
Qed.

Lemma iterate_next_spec (n : nat) :
  forall iter,
    walk_inv (m_Xrn iter) (m_Xsp iter) ->
    iterate_next n iter =
    map (fun x => Return (node_text x))
        (firstn n (walk_list (m_Xrn iter) (m_Xsp iter)))
    ++ repeat StopIteration_raised
         (n - List.length (walk_list (m_Xrn iter) (m_Xsp iter))).
Proof.
  induction n as [|n IH]; intros iter Hinv; [reflexivity|].
  cbn [iterate_next]. unfold pytriciaiter_next.
  pose proof (pytriciaiter_next_loop_spec
                (S (pending (m_Xrn iter) (m_Xsp iter))) iter
                (Nat.lt_succ_diag_r _) Hinv) as Hspec.
  destruct (walk_list (m_Xrn iter) (m_Xsp iter)) as [|x rest] eqn:Hwl.
  - destruct Hspec as (iter' & Hnext & Hrn & Hsp). rewrite Hnext.
    rewrite IH.
    + rewrite Hrn, Hsp. unfold walk_list. simpl. rewrite firstn_nil. simpl.
      rewrite Nat.sub_0_r. reflexivity.
    + rewrite Hrn, Hsp. apply walk_inv_start. simpl. lia.
  - destruct Hspec as (iter' & Hnext & Hinv' & Hlist). rewrite Hnext.
    rewrite (IH iter' Hinv'), Hlist. reflexivity.
Qed.

(** The turns given to the loop of [pytriciaiter_next] always suffice:
    any larger number gives the same result. *)
Lemma pytriciaiter_next_loop_fuel (fuel : nat) :
  forall fuel' iter,
    pending (m_Xrn iter) (m_Xsp iter) < fuel ->
    pending (m_Xrn iter) (m_Xsp iter) < fuel' ->
    pytriciaiter_next_loop fuel iter = pytriciaiter_next_loop fuel' iter.
Proof.
  induction fuel as [|fuel IH]; intros fuel' iter Hfuel Hfuel'; [lia|].
  destruct fuel' as [|fuel']; [lia|].
  destruct iter as [tree xnode xhead sp rn]. cbn [m_Xrn m_Xsp] in *.
  destruct rn as [|bit pfx dat l r]; [reflexivity|].
  cbn [pytriciaiter_next_loop m_Xrn m_Xsp m_tree m_Xhead].
  destruct (walk_advance (Node bit pfx dat l r) sp) as [[rn' sp']|] eqn:Hadv;
    [|reflexivity].
  assert (Hpend := @walk_advance_pending _ sp rn' sp'
                     (ltac:(discriminate) : Node bit pfx dat l r <> NULL) Hadv).
  destruct pfx as [q|]; [reflexivity|].
  apply IH; cbn [m_Xrn m_Xsp]; lia.
Qed.

(* ================================================================= *)
(** * Part IX.  Well-formed tries and the two searches                *)
(* ================================================================= *)

Lemma keys_NULL_iff (t : patricia_node_t) :
  wf_node t -> (keys t = [] <-> t = NULL).
Proof.
  induction t as [|bit pfx dat l IHl r IHr]; intros Hwf.
  - split; reflexivity.
  - split; [|discriminate]. intros Hk. exfalso.
    wf_split Hwf. cbn [keys] in Hk.
    destruct pfx as [q|]; [discriminate|].
    destruct (Hglue eq_refl) as [Hl _].
    simpl in Hk. apply app_eq_nil in Hk. destruct Hk as [Hk _].
    apply Hl. apply IHl; assumption.
Qed.

Lemma wf_has_key (t : patricia_node_t) :
  wf_node t -> t <> NULL -> exists q, In q (keys t).
Proof.
  intros Hwf Hnn. destruct (keys t) as [|q ks] eqn:E.
  - exfalso. apply Hnn. apply keys_NULL_iff; assumption.
  - exists q. left. reflexivity.
Qed.

Lemma keys_not_NULL (t : patricia_node_t) (q : prefix_t) :
  In q (keys t) -> t <> NULL.
Proof. intros Hin ->. exact Hin. Qed.

(** Every key below a node is at least as long as the node. *)
Lemma keys_bitlen_ge (t : patricia_node_t) :
  wf_node t -> forall q, In q (keys t) -> bit_of t <= bitlen q.
Proof.
  induction t as [|bit pfx dat l IHl r IHr]; intros Hwf q Hin; [contradiction|].
  wf_split Hwf. cbn [keys] in Hin. cbn [bit_of].
  apply in_app_or in Hin. destruct Hin as [Hin|Hin].
  - destruct pfx as [q0|]; [|contradiction].
    destruct Hin as [<-|[]]. rewrite (Hlen q0 eq_refl). lia.
  - apply in_app_or in Hin. destruct Hin as [Hin|Hin].
    + specialize (IHl Hwl q Hin). specialize (Hbl (keys_not_NULL _ _ Hin)). lia.
    + specialize (IHr Hwr q Hin). specialize (Hbr (keys_not_NULL _ _ Hin)). lia.
Qed.

Lemma keys_Node_in bit pfx dat l r q :
  In q (keys (Node bit pfx dat l r)) <->
  pfx = Some q \/ In q (keys l) \/ In q (keys r).
Proof.
  cbn [keys]. rewrite !in_app_iff.
  destruct pfx as [q0|]; simpl; split; intros H.
  - destruct H as [[->|[]]|H]; auto.
  - destruct H as [H|H]; auto. inversion H. auto.
  - destruct H as [[]|H]; auto.
  - destruct H as [H|H]; auto. discriminate.
Qed.

(** ** Exact search *)

Lemma search_exact_sound (p : prefix_t) (t : patricia_node_t) :
  wf_node t ->
  forall h, search_exact_from p t = Some h ->
  exists q, prefix_of (node_at t h) = Some q /\ In q (keys t) /\ same_key q p.
Proof.
  induction t as [|bit pfx dat l IHl r IHr]; intros Hwf h Hs; [discriminate|].
  wf_split Hwf. cbn [search_exact_from] in Hs.
  destruct (bit <? bitlen p) eqn:Hlt.
  - destruct (BIT_TEST (add_sin p) bit) eqn:Hb.
    + destruct (search_exact_from p r) as [h'|] eqn:Hr; [|discriminate].
      inversion Hs; subst h. destruct (IHr Hwr h' eq_refl) as (q & Hq & Hin & Hsk).
      exists q. cbn [node_at]. rewrite keys_Node_in. auto.
    + destruct (search_exact_from p l) as [h'|] eqn:Hl; [|discriminate].
      inversion Hs; subst h. destruct (IHl Hwl h' eq_refl) as (q & Hq & Hin & Hsk).
      exists q. cbn [node_at]. rewrite keys_Node_in. auto.
  - destruct (bit =? bitlen p) eqn:Heq; [|discriminate].
    apply Nat.eqb_eq in Heq.
    destruct pfx as [q|]; [|discriminate].
    destruct (comp_with_mask (add_sin q) (add_sin p) (bitlen p)) eqn:Hc;
      [|discriminate].
    inversion Hs; subst h. exists q. cbn [node_at prefix_of].
    rewrite keys_Node_in. split; [reflexivity|]. split; [auto|].
    split; [rewrite (Hlen q eq_refl); exact Heq|].
    apply comp_with_mask_true. exact Hc.
Qed.

Lemma search_exact_complete (p : prefix_t) (t : patricia_node_t) :
  wf_node t ->
  forall q, In q (keys t) -> same_key q p ->
  exists h, search_exact_from p t = Some h /\ prefix_of (node_at t h) = Some q.
Proof.
  induction t as [|bit pfx dat l IHl r IHr]; intros Hwf q Hin Hsk; [contradiction|].
  pose proof (keys_bitlen_ge _ Hwf _ Hin) as Hge. cbn [bit_of] in Hge.
  wf_split Hwf. destruct Hsk as [Hsl Hsa].
  apply keys_Node_in in Hin. cbn [search_exact_from].
  destruct Hin as [Hin|[Hin|Hin]].
  - subst pfx. pose proof (Hlen q eq_refl) as Hqb.
    assert (Hnlt : (bit <? bitlen p) = false) by (apply Nat.ltb_ge; lia).
    assert (Heq : (bit =? bitlen p) = true) by (apply Nat.eqb_eq; lia).
    rewrite Hnlt, Heq.
    rewrite (proj2 (comp_with_mask_true _ _ _) Hsa).
    exists []. split; reflexivity.
  - pose proof (keys_bitlen_ge _ Hwl _ Hin) as Hgl.
    specialize (Hbl (keys_not_NULL _ _ Hin)).
    assert (Hlt : (bit <? bitlen p) = true) by (apply Nat.ltb_lt; lia).
    rewrite Hlt.
    assert (Hb : BIT_TEST (add_sin p) bit = false).
    { rewrite <- (Hsa bit); [apply Hkl; exact Hin | lia]. }
    rewrite Hb.
    destruct (IHl Hwl q Hin (conj Hsl Hsa)) as (h & Hs & Hq).
    exists (false :: h). rewrite Hs. split; [reflexivity | exact Hq].
  - pose proof (keys_bitlen_ge _ Hwr _ Hin) as Hgr.
    specialize (Hbr (keys_not_NULL _ _ Hin)).
    assert (Hlt : (bit <? bitlen p) = true) by (apply Nat.ltb_lt; lia).
    rewrite Hlt.
    assert (Hb : BIT_TEST (add_sin p) bit = true).
    { rewrite <- (Hsa bit); [apply Hkr; exact Hin | lia]. }
    rewrite Hb.
    destruct (IHr Hwr q Hin (conj Hsl Hsa)) as (h & Hs & Hq).
    exists (true :: h). rewrite Hs. split; [reflexivity | exact Hq].
Qed.

(** ** Best-match search *)

Lemma search_best_from_below (p : prefix_t) (t : patricia_node_t) :
  forall here best,
    search_best_from p t here best =
    match best_below p t with
    | Some h => Some (here ++ h)
    | None => best
    end.
Proof.
  induction t as [|bit pfx dat l IHl r IHr]; intros here best; [reflexivity|].
  cbn [search_best_from best_below].
  destruct (bitlen p <? bit); [reflexivity|].
  destruct pfx as [q|].
  - destruct (comp_with_mask (add_sin q) (add_sin p) bit); [|reflexivity].
    destruct (BIT_TEST (add_sin p) bit).
    + rewrite IHr. destruct (best_below p r) as [h|]; simpl.
      * rewrite <- app_assoc. reflexivity.
      * rewrite app_nil_r. reflexivity.
    + rewrite IHl. destruct (best_below p l) as [h|]; simpl.
      * rewrite <- app_assoc. reflexivity.
      * rewrite app_nil_r. reflexivity.
  - destruct (BIT_TEST (add_sin p) bit).
    + rewrite IHr. destruct (best_below p r) as [h|]; simpl;
        [rewrite <- app_assoc|]; reflexivity.
    + rewrite IHl. destruct (best_below p l) as [h|]; simpl;
        [rewrite <- app_assoc|]; reflexivity.
Qed.

Lemma patricia_search_best_below (tree : patricia_tree_t) (p : prefix_t) :
  patricia_search_best tree p = best_below p (head tree).
Proof.
  unfold patricia_search_best. rewrite search_best_from_below.
  destruct (best_below p (head tree)); reflexivity.
Qed.

Lemma best_below_sound (p : prefix_t) (t : patricia_node_t) :
  wf_node t ->
  forall h, best_below p t = Some h ->
  exists q, prefix_of (node_at t h) = Some q /\ In q (keys t) /\ covers q p.
Proof.
  induction t as [|bit pfx dat l IHl r IHr]; intros Hwf h Hs; [discriminate|].
  wf_split Hwf. cbn [best_below] in Hs.
  destruct (bitlen p <? bit) eqn:Hlt; [discriminate|].
  apply Nat.ltb_ge in Hlt.
  assert (Hdeep : forall h',
             (if BIT_TEST (add_sin p) bit
              then option_map (cons true) (best_below p r)
              else option_map (cons false) (best_below p l)) = Some h' ->
             exists q, prefix_of (node_at (Node bit pfx dat l r) h') = Some q /\
                       In q (keys (Node bit pfx dat l r)) /\ covers q p).
  { intros h' Hd. destruct (BIT_TEST (add_sin p) bit).
    - destruct (best_below p r) as [h1|] eqn:Hr; [|discriminate].
      inversion Hd; subst h'. destruct (IHr Hwr h1 eq_refl) as (q & Hq & Hin & Hc).
      exists q. cbn [node_at]. rewrite keys_Node_in. auto.
    - destruct (best_below p l) as [h1|] eqn:Hl; [|discriminate].
      inversion Hd; subst h'. destruct (IHl Hwl h1 eq_refl) as (q & Hq & Hin & Hc).
      exists q. cbn [node_at]. rewrite keys_Node_in. auto. }
  destruct pfx as [q|]; [|apply Hdeep; exact Hs].
  destruct (comp_with_mask (add_sin q) (add_sin p) bit) eqn:Hc; [|discriminate].
  destruct (if BIT_TEST (add_sin p) bit
            then option_map (cons true) (best_below p r)
            else option_map (cons false) (best_below p l)) as [h1|] eqn:Hd.
  - inversion Hs; subst h1. apply Hdeep. reflexivity.
  - inversion Hs; subst h. exists q. cbn [node_at prefix_of].
    rewrite keys_Node_in. split; [reflexivity|]. split; [auto|].
    pose proof (Hlen q eq_refl) as Hqb. split; [lia|].
    rewrite Hqb. apply comp_with_mask_true. exact Hc.
Qed.

(** A key on the other side of a node cannot cover a query that is
    longer than the node. *)
Lemma covers_side (q p : prefix_t) (bit : nat) :
  covers q p -> bit < bitlen q ->
  BIT_TEST (add_sin q) bit = BIT_TEST (add_sin p) bit.
Proof. intros [_ Ha] Hlt. apply Ha. exact Hlt. Qed.

Lemma best_below_complete (p : prefix_t) (t : patricia_node_t) :
  wf_node t ->
  forall q, In q (keys t) -> covers q p -> best_below p t <> None.
Proof.
  induction t as [|bit pfx dat l IHl r IHr]; intros Hwf q Hin Hc; [contradiction|].
  pose proof (keys_bitlen_ge _ Hwf _ Hin) as Hge. cbn [bit_of] in Hge.
  pose proof Hwf as Hwf0. wf_split Hwf. cbn [best_below].
  assert (Hlt : (bitlen p <? bit) = false).
  { apply Nat.ltb_ge. destruct Hc as [Hc _]. lia. }
  rewrite Hlt.
  assert (Hdeep : pfx <> Some q ->
            (if BIT_TEST (add_sin p) bit
             then option_map (cons true) (best_below p r)
             else option_map (cons false) (best_below p l)) <> None).
  { intros Hnq. apply keys_Node_in in Hin.
    destruct Hin as [Hin|[Hin|Hin]]; [contradiction| |].
    - pose proof (keys_bitlen_ge _ Hwl _ Hin) as Hgl.
      specialize (Hbl (keys_not_NULL _ _ Hin)).
      rewrite <- (covers_side q p bit Hc) by lia. rewrite (Hkl q Hin).
      specialize (IHl Hwl q Hin Hc).
      destruct (best_below p l); [discriminate | contradiction].
    - pose proof (keys_bitlen_ge _ Hwr _ Hin) as Hgr.
      specialize (Hbr (keys_not_NULL _ _ Hin)).
      rewrite <- (covers_side q p bit Hc) by lia. rewrite (Hkr q Hin).
      specialize (IHr Hwr q Hin Hc).
      destruct (best_below p r); [discriminate | contradiction]. }
  destruct pfx as [q0|].
  - assert (Hm : comp_with_mask (add_sin q0) (add_sin p) bit = true).
    { apply comp_with_mask_true.
      apply agree_trans with (add_sin q).
      - apply Hag; [apply keys_Node_in; auto | exact Hin].
      - apply agree_le with (bitlen q); [lia | apply Hc]. }
    rewrite Hm.
    destruct (if BIT_TEST (add_sin p) bit
              then option_map (cons true) (best_below p r)
              else option_map (cons false) (best_below p l)); discriminate.
  - apply Hdeep. discriminate.
Qed.

Lemma best_below_longest (p : prefix_t) (t : patricia_node_t) :
  wf_node t ->
  forall h q, best_below p t = Some h -> prefix_of (node_at t h) = Some q ->
  forall q', In q' (keys t) -> covers q' p -> bitlen q' <= bitlen q.
Proof.
  induction t as [|bit pfx dat l IHl r IHr]; intros Hwf h q Hs Hq q' Hin' Hc';
    [discriminate|].
  pose proof Hwf as Hwf0. wf_split Hwf. cbn [best_below] in Hs.
  destruct (bitlen p <? bit) eqn:Hlt; [discriminate|].
  apply keys_Node_in in Hin'.
  destruct (BIT_TEST (add_sin p) bit) eqn:Hb.
  - (* the query goes right *)
    assert (Hnotl : ~ In q' (keys l)).
    { intros Hin. pose proof (keys_bitlen_ge _ Hwl _ Hin) as Hgl.
      specialize (Hbl (keys_not_NULL _ _ Hin)).
      pose proof (covers_side q' p bit Hc' ltac:(lia)) as E.
      rewrite (Hkl q' Hin), Hb in E. discriminate. }
    destruct (best_below p r) as [h1|] eqn:Hr.
    + assert (Hh : h = true :: h1).
      { destruct pfx as [q0|]; [|simpl in Hs; congruence].
        destruct (comp_with_mask (add_sin q0) (add_sin p) bit);
          simpl in Hs; congruence. }
      subst h. cbn [node_at] in Hq.
      destruct (best_below_sound p r Hwr h1 Hr) as (q1 & Hq1 & Hin1 & _).
      assert (q1 = q) by congruence. subst q1.
      pose proof (keys_bitlen_ge _ Hwr _ Hin1) as Hgr.
      specialize (Hbr (keys_not_NULL _ _ Hin1)).
      destruct Hin' as [Hin'|[Hin'|Hin']]; [|contradiction|].
      * pose proof (Hlen q' Hin'). lia.
      * apply (IHr Hwr h1 q eq_refl Hq q' Hin' Hc').
    + destruct Hin' as [Hin'|[Hin'|Hin']]; [|contradiction|].
      * subst pfx.
        destruct (comp_with_mask (add_sin q') (add_sin p) bit);
          simpl in Hs; [|discriminate].
        inversion Hs; subst h. cbn [node_at prefix_of] in Hq.
        inversion Hq; subst q. lia.
      * exfalso. apply (best_below_complete p r Hwr q' Hin' Hc'). exact Hr.
  - (* the query goes left *)
    assert (Hnotr : ~ In q' (keys r)).
    { intros Hin. pose proof (keys_bitlen_ge _ Hwr _ Hin) as Hgr.
      specialize (Hbr (keys_not_NULL _ _ Hin)).
      pose proof (covers_side q' p bit Hc' ltac:(lia)) as E.
      rewrite (Hkr q' Hin), Hb in E. discriminate. }
    destruct (best_below p l) as [h1|] eqn:Hl.
    + assert (Hh : h = false :: h1).
      { destruct pfx as [q0|]; [|simpl in Hs; congruence].
        destruct (comp_with_mask (add_sin q0) (add_sin p) bit);
          simpl in Hs; congruence. }
      subst h. cbn [node_at] in Hq.
      destruct (best_below_sound p l Hwl h1 Hl) as (q1 & Hq1 & Hin1 & _).
      assert (q1 = q) by congruence. subst q1.
      pose proof (keys_bitlen_ge _ Hwl _ Hin1) as Hgl.
      specialize (Hbl (keys_not_NULL _ _ Hin1)).
      destruct Hin' as [Hin'|[Hin'|Hin']]; [| |contradiction].
      * pose proof (Hlen q' Hin'). lia.
      * apply (IHl Hwl h1 q eq_refl Hq q' Hin' Hc').
    + destruct Hin' as [Hin'|[Hin'|Hin']]; [| |contradiction].
      * subst pfx.
        destruct (comp_with_mask (add_sin q') (add_sin p) bit);
          simpl in Hs; [|discriminate].
        inversion Hs; subst h. cbn [node_at prefix_of] in Hq.
        inversion Hq; subst q. lia.
      * exfalso. apply (best_below_complete p l Hwl q' Hin' Hc'). exact Hl.
Qed.

(* ================================================================= *)
(** * Part X.  Insertion keeps the trie well formed                   *)
(* ================================================================= *)

Lemma adds_in (p : prefix_t) (K K' : list prefix_t) :
  adds p K K' -> forall x, In x K' <-> x = p \/ In x K.
Proof.
  intros (k1 & k2 & -> & ->) x. rewrite !in_app_iff. simpl.
  split; intros H; intuition congruence.
Qed.

Lemma adds_length (p : prefix_t) (K K' : list prefix_t) :
  adds p K K' -> List.length K' = S (List.length K).
Proof.
  intros (k1 & k2 & -> & ->). rewrite !length_app. simpl. lia.
Qed.

Lemma adds_here (p : prefix_t) (K : list prefix_t) : adds p K (p :: K).
Proof. exists [], K. split; reflexivity. Qed.

Lemma adds_end (p : prefix_t) (K : list prefix_t) : adds p K (K ++ [p]).
Proof. exists K, []. rewrite app_nil_r. split; reflexivity. Qed.

Lemma adds_app_l (p : prefix_t) (A K K' : list prefix_t) :
  adds p K K' -> adds p (A ++ K) (A ++ K').
Proof.
  intros (k1 & k2 & -> & ->). exists (A ++ k1), k2.
  rewrite !app_assoc. split; reflexivity.
Qed.

Lemma adds_app_r (p : prefix_t) (B K K' : list prefix_t) :
  adds p K K' -> adds p (K ++ B) (K' ++ B).
Proof.
  intros (k1 & k2 & -> & ->). exists k1, (k2 ++ B).
  rewrite <- !app_assoc. split; reflexivity.
Qed.

Lemma wf_new_leaf (p : prefix_t) : wf_node (new_leaf p).
Proof.
  unfold new_leaf. cbn [wf_node keys]. repeat split; auto; try contradiction.
  - intros q E. inversion E. reflexivity.
  - intros E. discriminate.
  - intros E. discriminate.
  - simpl. intros q q' [<-|[]] [<-|[]]. apply agree_refl.
Qed.

(** The node reached by the first phase is real and lies below the
    starting node. *)
Lemma reached_spec (p : prefix_t) (t : patricia_node_t) :
  wf_node t -> t <> NULL ->
  exists q, prefix_of (reached p t) = Some q /\ In q (keys t) /\
            bit_of t <= bit_of (reached p t).
Proof.
  induction t as [|bit pfx dat l IHl r IHr]; intros Hwf Hnn; [contradiction|].
  pose proof Hwf as Hwf0. wf_split Hwf. cbn [reached].
  assert (Hself : pfx <> None ->
            exists q, prefix_of (Node bit pfx dat l r) = Some q /\
                      In q (keys (Node bit pfx dat l r)) /\
                      bit_of (Node bit pfx dat l r) <= bit_of (Node bit pfx dat l r)).
  { intros Hp. destruct pfx as [q|]; [|contradiction].
    exists q. cbn [prefix_of]. rewrite keys_Node_in. auto. }
  destruct ((bit <? bitlen p) || negb (is_real (Node bit pfx dat l r))) eqn:Hc.
  - destruct (BIT_TEST (add_sin p) bit).
    + destruct r as [|rb rp rd rl rr].
      * apply Hself. intros E. destruct (Hglue E) as [_ Hr]. contradiction.
      * destruct (IHr Hwr ltac:(discriminate)) as (q & Hq & Hin & Hb).
        exists q. rewrite keys_Node_in. split; [exact Hq|]. split; [auto|].
        specialize (Hbr ltac:(discriminate)). cbn [bit_of] in *. lia.
    + destruct l as [|lb lp ld ll lr].
      * apply Hself. intros E. destruct (Hglue E) as [Hl _]. contradiction.
      * destruct (IHl Hwl ltac:(discriminate)) as (q & Hq & Hin & Hb).
        exists q. rewrite keys_Node_in. split; [exact Hq|]. split; [auto|].
        specialize (Hbl ltac:(discriminate)). cbn [bit_of] in *. lia.
  - apply Hself. apply Bool.orb_false_iff in Hc. destruct Hc as [_ Hc].
    unfold is_real in Hc. cbn [prefix_of] in Hc.
    destruct pfx; [discriminate | discriminate].
Qed.

(** Where the second phase goes down, the first phase went down too,
    into the same child. *)
Lemma reached_descend (p : prefix_t) bit pfx dat l r :
  bit < bitlen p ->
  reached p (Node bit pfx dat l r) =
  match (if BIT_TEST (add_sin p) bit then r else l) with
  | NULL => Node bit pfx dat l r
  | Node _ _ _ _ _ => reached p (if BIT_TEST (add_sin p) bit then r else l)
  end.
Proof.
  intros Hlt. cbn [reached]. apply Nat.ltb_lt in Hlt. rewrite Hlt.
  reflexivity.
Qed.

Lemma wf_node_intro bit pfx dat l r :
  (forall q, pfx = Some q -> bitlen q = bit) ->
  (pfx = None -> l <> NULL /\ r <> NULL) ->
  (forall q, In q (keys l) -> BIT_TEST (add_sin q) bit = false) ->
  (forall q, In q (keys r) -> BIT_TEST (add_sin q) bit = true) ->
  (forall q q', In q (keys (Node bit pfx dat l r)) ->
                In q' (keys (Node bit pfx dat l r)) ->
                agree (add_sin q) (add_sin q') bit) ->
  (l <> NULL -> bit < bit_of l) ->
  (r <> NULL -> bit < bit_of r) ->
  wf_node l -> wf_node r ->
  wf_node (Node bit pfx dat l r).
Proof.
  intros H1 H2 H3 H4 H5 H6 H7 H8 H9. cbn [wf_node].
  split; [exact H1|]. split; [exact H2|]. split; [exact H3|].
  split; [exact H4|]. split; [exact H5|]. split; [exact H6|].
  split; [exact H7|]. split; [exact H8 | exact H9].
Qed.

Lemma agree_pairs_add (n : nat) (p : prefix_t) (K K' : list prefix_t) :
  (forall a, In a K' -> a = p \/ In a K) ->
  (forall a b, In a K -> In b K -> agree (add_sin a) (add_sin b) n) ->
  (forall k, In k K -> agree (add_sin p) (add_sin k) n) ->
  forall a b, In a K' -> In b K' -> agree (add_sin a) (add_sin b) n.
Proof.
  intros Hall HK Hp a b Ha Hb.
  destruct (Hall a Ha) as [->|Ha']; destruct (Hall b Hb) as [->|Hb'].
  - apply agree_refl.
  - apply Hp. exact Hb'.
  - apply agree_sym. apply Hp. exact Ha'.
  - apply HK; assumption.
Qed.

Lemma same_key_bit (k p : prefix_t) (i : nat) :
  same_key k p -> i < bitlen p ->
  BIT_TEST (add_sin k) i = BIT_TEST (add_sin p) i.
Proof. intros [_ Ha] Hi. apply Ha. exact Hi. Qed.

(** The facts about the differing position that the proof below uses. *)
Lemma differ_bit_facts (p q : prefix_t) (xb d : nat) :
  d = differ_bit (add_sin p) (add_sin q) (Nat.min xb (bitlen p)) ->
  d <= xb /\ d <= bitlen p /\
  agree (add_sin p) (add_sin q) d /\
  (d < xb -> d < bitlen p ->
   BIT_TEST (add_sin p) d <> BIT_TEST (add_sin q) d).
Proof.
  intros ->.
  pose proof (differ_bit_le (add_sin p) (add_sin q) (Nat.min xb (bitlen p))) as Hle.
  repeat split; try lia.
  - apply differ_bit_agree.
  - intros H1 H2. apply differ_bit_differs. lia.
Qed.

(** The step of [splice] that hangs the new leaf into an empty slot or
    goes on into the child on the key's side ([side] tells which). *)
Lemma splice_descend_ok (p : prefix_t) (side : bool) bit pfx dat l r
      (c' : patricia_node_t) (h' : node_ref) (cc : bool) :
  let t := Node bit pfx dat l r in
  let c := if side then r else l in
  let t' := if side then Node bit pfx dat l c' else Node bit pfx dat c' r in
  wf_node t ->
  BIT_TEST (add_sin p) bit = side ->
  bit < bitlen p ->
  (forall k, In k (keys t) -> agree (add_sin p) (add_sin k) bit) ->
  c' <> NULL -> wf_node c' -> bit < bit_of c' ->
  (cc = true ->
   adds p (keys c) (keys c') /\
   (forall k, In k (keys c) -> ~ same_key k p) /\
   prefix_of (node_at c' h') = Some p) ->
  (cc = false ->
   c' = c /\ search_exact_from p c = Some h' /\
   exists q0, prefix_of (node_at c h') = Some q0 /\ In q0 (keys c) /\ same_key q0 p) ->
  splice_ok p t t' (side :: h') cc.
Proof.
  intros t c t' Hwf Hside Hlt Hpk Hnn' Hwf' Hbit' Hnew Hold.
  pose proof Hwf as Hwf0. unfold t in Hwf. wf_split Hwf.
  assert (Hin' : forall k, In k (keys c') -> k = p \/ In k (keys c)).
  { intros k Hk. destruct cc.
    - destruct (Hnew eq_refl) as (Hadd & _). apply (adds_in _ _ _ Hadd). exact Hk.
    - destruct (Hold eq_refl) as (-> & _). auto. }
  assert (Hall : forall k, In k (keys t') -> k = p \/ In k (keys t)).
  { intros k Hk. unfold t', t, c in *. destruct side.
    - apply keys_Node_in in Hk. rewrite keys_Node_in.
      destruct Hk as [Hk|[Hk|Hk]]; auto.
      destruct (Hin' k Hk); auto.
    - apply keys_Node_in in Hk. rewrite keys_Node_in.
      destruct Hk as [Hk|[Hk|Hk]]; auto.
      destruct (Hin' k Hk); auto. }
  assert (Hwft' : wf_node t').
  { unfold t', t, c in *. destruct side; cbn [wf_node].
    - repeat split; auto.
      + apply Hglue; assumption.
      + intros k Hk. destruct (Hin' k Hk) as [->|Hk']; auto.
      + apply (agree_pairs_add bit p (keys (Node bit pfx dat l r))); auto.
    - repeat split; auto.
      + apply Hglue; assumption.
      + intros k Hk. destruct (Hin' k Hk) as [->|Hk']; auto.
      + apply (agree_pairs_add bit p (keys (Node bit pfx dat l r))); auto. }
  unfold splice_ok. split; [exact Hwft'|].
  split; [unfold t'; destruct side; discriminate|].
  split.
  - intros ->. destruct (Hnew eq_refl) as (Hadd & Hnot & Hh).
    split; [|split].
    + unfold t', t, c in *. cbn [keys]. destruct side.
      * apply adds_app_l. apply adds_app_l. exact Hadd.
      * apply adds_app_l. apply adds_app_r. exact Hadd.
    + intros k Hk Hsk. unfold t in Hk. apply keys_Node_in in Hk.
      destruct Hk as [Hk|[Hk|Hk]].
      * pose proof (Hlen k Hk). destruct Hsk as [Hsl _]. lia.
      * pose proof (same_key_bit k p bit Hsk Hlt) as E.
        rewrite (Hkl k Hk), Hside in E. unfold c in Hnot.
        destruct side; [discriminate|]. apply (Hnot k Hk Hsk).
      * pose proof (same_key_bit k p bit Hsk Hlt) as E.
        rewrite (Hkr k Hk), Hside in E. unfold c in Hnot.
        destruct side; [|discriminate]. apply (Hnot k Hk Hsk).
    + unfold t'. destruct side; cbn [node_at]; exact Hh.
  - intros ->. destruct (Hold eq_refl) as (Hc & Hse & q0 & Hq0 & Hin0 & Hsk).
    split; [|split].
    + unfold t', t, c in *. destruct side; rewrite Hc; reflexivity.
    + unfold t, c in *. cbn [search_exact_from].
      apply Nat.ltb_lt in Hlt. rewrite Hlt, Hside.
      destruct side; rewrite Hse; reflexivity.
    + exists q0. unfold t, c in *. rewrite keys_Node_in.
      destruct side; cbn [node_at]; auto.
Qed.

Lemma splice_spec (p : prefix_t) :
  forall t, wf_node t -> t <> NULL ->
  forall q d,
    prefix_of (reached p t) = Some q ->
    d = differ_bit (add_sin p) (add_sin q)
                   (Nat.min (bit_of (reached p t)) (bitlen p)) ->
  forall t' h c,
    splice p d (add_sin q) t = (t', h, c) ->
    splice_ok p t t' h c /\ Nat.min (bit_of t) d <= bit_of t'.
Proof.
  induction t as [|bit pfx dat l IHl r IHr]; intros Hwf Hnn q d Hq Hd t' h c Hs;
    [contradiction|].
  destruct (reached_spec p _ Hwf Hnn) as (q1 & Hq1 & Hinq & Hbx).
  assert (q1 = q) by congruence. subst q1. clear Hq1.
  destruct (differ_bit_facts p q _ d Hd) as (Hdx & Hdl & Hdag & Hdne).
  pose proof Hwf as Hwf0. wf_split Hwf. cbn [bit_of] in Hbx.
  assert (Hqk : forall k, In k (keys (Node bit pfx dat l r)) ->
                          agree (add_sin q) (add_sin k) bit).
  { intros k Hk. apply Hag; assumption. }
  cbn [splice] in Hs.
  destruct ((bit <? d) || ((bit =? d) && (d <? bitlen p))) eqn:HA.
  - (* above the point of divergence: follow the key *)
    assert (Hbd : bit <= d /\ bit < bitlen p).
    { apply Bool.orb_true_iff in HA. destruct HA as [HA|HA].
      - apply Nat.ltb_lt in HA. lia.
      - apply Bool.andb_true_iff in HA. destruct HA as [H1 H2].
        apply Nat.eqb_eq in H1. apply Nat.ltb_lt in H2. lia. }
    destruct Hbd as [Hbd Hbl'].
    assert (Hpk : forall k, In k (keys (Node bit pfx dat l r)) ->
                            agree (add_sin p) (add_sin k) bit).
    { intros k Hk. apply agree_trans with (add_sin q).
      - apply agree_le with d; [lia | exact Hdag].
      - apply Hqk. exact Hk. }
    pose proof (reached_descend p bit pfx dat l r Hbl') as Hrd.
    destruct (BIT_TEST (add_sin p) bit) eqn:Hside.
    + destruct r as [|rb rp rd rl rr].
      * cbn [splice] in Hs. inversion Hs; subst t' h c. clear Hs.
        split; [|cbn [bit_of]; lia].
        apply (splice_descend_ok p true bit pfx dat l NULL (new_leaf p) [] true);
          try assumption;
          first [ apply wf_new_leaf
                | discriminate
                | intros _; cbn [keys]; split; [apply adds_here|];
                  split; [intros k []|reflexivity]
                | intros E; discriminate
                | reflexivity
                | cbn [new_leaf bit_of]; lia ].
      * rewrite Hrd in Hq, Hd.
        destruct (splice p d (add_sin q) (Node rb rp rd rl rr))
          as [[r' h'] c'] eqn:Hsp.
        inversion Hs; subst t' h c. clear Hs.
        destruct (IHr Hwr ltac:(discriminate) q d Hq Hd r' h' c' Hsp)
          as [(Hwf' & Hnn' & Hnew & Hold) Hbit'].
        destruct (reached_spec p _ Hwr ltac:(discriminate))
          as (q1 & Hq1 & Hinq1 & Hbx1).
        assert (q1 = q) by congruence. subst q1.
        specialize (Hbr ltac:(discriminate)).
        assert (Hlt : bit < d).
        { destruct (Nat.eq_dec bit d) as [E|E]; [|lia]. exfalso.
          rewrite Hrd in Hdne. rewrite <- E in Hdne.
          apply Hdne; [lia | lia |]. rewrite Hside. symmetry.
          apply Hkr. exact Hinq1. }
        split; [|cbn [bit_of]; lia].
        apply (splice_descend_ok p true bit pfx dat l (Node rb rp rd rl rr) r' h' c');
          auto. lia.
    + destruct l as [|lb lp ld ll lr].
      * cbn [splice] in Hs. inversion Hs; subst t' h c. clear Hs.
        split; [|cbn [bit_of]; lia].
        apply (splice_descend_ok p false bit pfx dat NULL r (new_leaf p) [] true);
          try assumption;
          first [ apply wf_new_leaf
                | discriminate
                | intros _; cbn [keys]; split; [apply adds_here|];
                  split; [intros k []|reflexivity]
                | intros E; discriminate
                | reflexivity
                | cbn [new_leaf bit_of]; lia ].
      * rewrite Hrd in Hq, Hd.
        destruct (splice p d (add_sin q) (Node lb lp ld ll lr))
          as [[l' h'] c'] eqn:Hsp.
        inversion Hs; subst t' h c. clear Hs.
        destruct (IHl Hwl ltac:(discriminate) q d Hq Hd l' h' c' Hsp)
          as [(Hwf' & Hnn' & Hnew & Hold) Hbit'].
        destruct (reached_spec p _ Hwl ltac:(discriminate))
          as (q1 & Hq1 & Hinq1 & Hbx1).
        assert (q1 = q) by congruence. subst q1.
        specialize (Hbl ltac:(discriminate)).
        assert (Hlt : bit < d).
        { destruct (Nat.eq_dec bit d) as [E|E]; [|lia]. exfalso.
          rewrite Hrd in Hdne. rewrite <- E in Hdne.
          apply Hdne; [lia | lia |]. rewrite Hside. symmetry.
          apply Hkl. exact Hinq1. }
        split; [|cbn [bit_of]; lia].
        apply (splice_descend_ok p false bit pfx dat (Node lb lp ld ll lr) r l' h' c');
          auto. lia.
  - (* the point of divergence *)
    assert (HB : d < bit \/ (bit = d /\ d = bitlen p)).
    { apply Bool.orb_false_iff in HA. destruct HA as [H1 H2].
      apply Nat.ltb_ge in H1. apply Bool.andb_false_iff in H2.
      destruct H2 as [H2|H2].
      - apply Nat.eqb_neq in H2. lia.
      - apply Nat.ltb_ge in H2. lia. }
    assert (Hpq : forall n, n <= d -> n <= bit ->
                forall k, In k (keys (Node bit pfx dat l r)) ->
                          agree (add_sin p) (add_sin k) n).
    { intros n Hn1 Hn2 k Hk. apply agree_trans with (add_sin q).
      - apply agree_le with d; [lia | exact Hdag].
      - apply agree_le with bit; [lia | apply Hqk; exact Hk]. }
    assert (Hkk : forall n, n <= bit ->
                forall a b, In a (keys (Node bit pfx dat l r)) ->
                            In b (keys (Node bit pfx dat l r)) ->
                            agree (add_sin a) (add_sin b) n).
    { intros n Hn a b Ha Hb. apply agree_le with bit; [lia | apply Hag; assumption]. }
    assert (Hqbit : forall i, i < bit ->
                forall k, In k (keys (Node bit pfx dat l r)) ->
                          BIT_TEST (add_sin k) i = BIT_TEST (add_sin q) i).
    { intros i Hi k Hk. symmetry. apply (Hqk k Hk). exact Hi. }
    destruct (d =? bitlen p) eqn:Hdlen.
    + apply Nat.eqb_eq in Hdlen.
      destruct (bit =? bitlen p) eqn:Hbl2.
      * (* the node of the key itself *)
        apply Nat.eqb_eq in Hbl2.
        destruct pfx as [q0|]; inversion Hs; subst t' h c; clear Hs.
        -- split; [|cbn [bit_of]; lia].
           unfold splice_ok. split; [exact Hwf0|]. split; [discriminate|].
           split; [intros E; discriminate|]. intros _. split; [reflexivity|].
           assert (Hq0p : agree (add_sin q0) (add_sin p) (bitlen p)).
           { apply agree_sym. rewrite <- Hbl2.
             apply Hpq; [lia | lia | apply keys_Node_in; auto]. }
           split.
           { cbn [search_exact_from].
             assert (E1 : (bit <? bitlen p) = false) by (apply Nat.ltb_ge; lia).
             assert (E2 : (bit =? bitlen p) = true) by (apply Nat.eqb_eq; lia).
             rewrite E1, E2, (proj2 (comp_with_mask_true _ _ _) Hq0p).
             reflexivity. }
           exists q0. cbn [node_at prefix_of]. split; [reflexivity|].
           split; [apply keys_Node_in; auto|].
           split; [rewrite (Hlen q0 eq_refl); exact Hbl2 | exact Hq0p].
        -- split; [|cbn [bit_of]; lia].
           assert (Hall : forall a, In a (keys (Node bit (Some p) dat l r)) ->
                                    a = p \/ In a (keys (Node bit None dat l r))).
           { intros a Ha. apply keys_Node_in in Ha. rewrite keys_Node_in.
             destruct Ha as [Ha|Ha]; [inversion Ha|]; auto. }
           unfold splice_ok. split; [|split; [discriminate|split]].
           ++ cbn [wf_node]. repeat split; auto.
              ** intros q0 E. inversion E; subst q0. lia.
              ** intros E. discriminate.
              ** intros E. discriminate.
              ** apply (agree_pairs_add bit p (keys (Node bit None dat l r)));
                   auto. apply Hpq; lia.
           ++ intros _. split; [|split].
              ** cbn [keys]. apply adds_here.
              ** intros k Hk [Hsl _].
                 pose proof (keys_bitlen_ge _ Hwf0 _ Hk) as Hge.
                 apply keys_Node_in in Hk.
                 destruct Hk as [Hk|[Hk|Hk]]; [discriminate| |].
                 --- pose proof (keys_bitlen_ge _ Hwl _ Hk).
                     specialize (Hbl (keys_not_NULL _ _ Hk)). lia.
                 --- pose proof (keys_bitlen_ge _ Hwr _ Hk).
                     specialize (Hbr (keys_not_NULL _ _ Hk)). lia.
              ** reflexivity.
           ++ intros E. discriminate.
      * (* the new node goes above this one *)
        apply Nat.eqb_neq in Hbl2.
        assert (Hlb : bitlen p < bit) by lia.
        assert (Hall : forall (side : bool) a,
                  In a (keys (if side
                              then Node (bitlen p) (Some p) None NULL
                                        (Node bit pfx dat l r)
                              else Node (bitlen p) (Some p) None
                                        (Node bit pfx dat l r) NULL)) ->
                  a = p \/ In a (keys (Node bit pfx dat l r))).
        { intros side a Ha. destruct side; apply keys_Node_in in Ha;
            destruct Ha as [Ha|[Ha|Ha]]; try (inversion Ha; auto; fail); auto;
            contradiction. }
        assert (Hnot : forall k, In k (keys (Node bit pfx dat l r)) ->
                                 ~ same_key k p).
        { intros k Hk [Hsl _].
          pose proof (keys_bitlen_ge _ Hwf0 _ Hk) as Hge. cbn [bit_of] in Hge. lia. }
        destruct (BIT_TEST (add_sin q) (bitlen p)) eqn:Hside;
          inversion Hs; subst t' h c; clear Hs.
        -- split; [|cbn [bit_of]; lia].
           unfold splice_ok. split; [|split; [discriminate|split]].
           ++ apply wf_node_intro.
              ** intros q0 E. inversion E; subst q0. reflexivity.
              ** intros E. discriminate.
              ** intros k [].
              ** intros k Hk. rewrite (Hqbit _ Hlb k Hk). exact Hside.
              ** apply (agree_pairs_add (bitlen p) p (keys (Node bit pfx dat l r)));
                   [apply (Hall true) | apply Hkk; lia | apply Hpq; lia].
              ** intros E. contradiction.
              ** intros _. cbn [bit_of]. lia.
              ** exact I.
              ** exact Hwf0.
           ++ intros _. split; [|split; [exact Hnot | reflexivity]].
              change (keys (Node (bitlen p) (Some p) None NULL (Node bit pfx dat l r)))
                with (p :: keys (Node bit pfx dat l r)). apply adds_here.
           ++ intros E. discriminate.
        -- split; [|cbn [bit_of]; lia].
           unfold splice_ok. split; [|split; [discriminate|split]].
           ++ apply wf_node_intro.
              ** intros q0 E. inversion E; subst q0. reflexivity.
              ** intros E. discriminate.
              ** intros k Hk. rewrite (Hqbit _ Hlb k Hk). exact Hside.
              ** intros k [].
              ** apply (agree_pairs_add (bitlen p) p (keys (Node bit pfx dat l r)));
                   [apply (Hall false) | apply Hkk; lia | apply Hpq; lia].
              ** intros _. cbn [bit_of]. lia.
              ** intros E. contradiction.
              ** exact Hwf0.
              ** exact I.
           ++ intros _. split; [|split; [exact Hnot | reflexivity]].
              change (keys (Node (bitlen p) (Some p) None (Node bit pfx dat l r) NULL))
                with (p :: keys (Node bit pfx dat l r) ++ []).
              rewrite app_nil_r. apply adds_here.
           ++ intros E. discriminate.
    + (* a glue node at the differing bit *)
      apply Nat.eqb_neq in Hdlen.
      assert (Hdb : d < bit) by lia.
      assert (Hdp : d < bitlen p) by lia.
      assert (Hne : BIT_TEST (add_sin p) d <> BIT_TEST (add_sin q) d).
      { apply Hdne; lia. }
      assert (Hall : forall (side : bool) a,
                In a (keys (if side
                            then Node d None None (Node bit pfx dat l r) (new_leaf p)
                            else Node d None None (new_leaf p) (Node bit pfx dat l r))) ->
                a = p \/ In a (keys (Node bit pfx dat l r))).
      { intros side a Ha. destruct side; apply keys_Node_in in Ha;
          destruct Ha as [Ha|[Ha|Ha]]; try discriminate; auto;
          destruct Ha as [<-|[]]; auto. }
      assert (Hnot : forall k, In k (keys (Node bit pfx dat l r)) ->
                               ~ same_key k p).
      { intros k Hk Hsk. apply Hne.
        rewrite <- (same_key_bit k p d Hsk Hdp). apply Hqbit; assumption. }
      destruct (BIT_TEST (add_sin p) d) eqn:Hside;
        inversion Hs; subst t' h c; clear Hs.
      * split; [|cbn [bit_of]; lia].
        unfold splice_ok. split; [|split; [discriminate|split]].
        -- apply wf_node_intro.
           ++ intros q0 E. discriminate.
           ++ intros _. split; discriminate.
           ++ intros k Hk. rewrite (Hqbit _ Hdb k Hk).
              destruct (BIT_TEST (add_sin q) d); [congruence | reflexivity].
           ++ intros k [<-|[]]. exact Hside.
           ++ apply (agree_pairs_add d p (keys (Node bit pfx dat l r)));
                [apply (Hall true) | apply Hkk; lia | apply Hpq; lia].
           ++ intros _. cbn [bit_of]. lia.
           ++ intros _. cbn [new_leaf bit_of]. lia.
           ++ exact Hwf0.
           ++ apply wf_new_leaf.
        -- intros _. split; [|split; [exact Hnot | reflexivity]].
           change (keys (Node d None None (Node bit pfx dat l r) (new_leaf p)))
             with (keys (Node bit pfx dat l r) ++ [p]). apply adds_end.
        -- intros E. discriminate.
      * split; [|cbn [bit_of]; lia].
        unfold splice_ok. split; [|split; [discriminate|split]].
        -- apply wf_node_intro.
           ++ intros q0 E. discriminate.
           ++ intros _. split; discriminate.
           ++ intros k [<-|[]]. exact Hside.
           ++ intros k Hk. rewrite (Hqbit _ Hdb k Hk).
              destruct (BIT_TEST (add_sin q) d); [reflexivity | congruence].
           ++ apply (agree_pairs_add d p (keys (Node bit pfx dat l r)));
                [apply (Hall false) | apply Hkk; lia | apply Hpq; lia].
           ++ intros _. cbn [new_leaf bit_of]. lia.
           ++ intros _. cbn [bit_of]. lia.
           ++ apply wf_new_leaf.
           ++ exact Hwf0.
        -- intros _. split; [|split; [exact Hnot | reflexivity]].
           change (keys (Node d None None (new_leaf p) (Node bit pfx dat l r)))
             with (p :: keys (Node bit pfx dat l r)). apply adds_here.
        -- intros E. discriminate.
Qed.

Lemma patricia_lookup_ok (tree : patricia_tree_t) (p : prefix_t) :
  wf_node (head tree) ->
  exists t' h (c : bool),
    patricia_lookup tree p =
    ({| head := t'; maxbits := maxbits tree;
        num_active_node := if c then S (num_active_node tree)
                           else num_active_node tree |}, h) /\
    splice_ok p (head tree) t' h c.
Proof.
  intros Hwf. unfold patricia_lookup.
  destruct (head tree) as [|bit pfx dat l r] eqn:Hhead.
  - cbn [reached prefix_of bit_of splice].
    exists (new_leaf p), [], true. split; [reflexivity|].
    unfold splice_ok. split; [apply wf_new_leaf|]. split; [discriminate|].
    split; [|intros E; discriminate].
    intros _. cbn [keys]. split; [apply adds_here|].
    split; [intros k []|reflexivity].
  - destruct (reached_spec p (Node bit pfx dat l r) Hwf ltac:(discriminate))
      as (q & Hq & _ & _).
    rewrite Hq.
    destruct (splice p
                (differ_bit (add_sin p) (add_sin q)
                   (Nat.min (bit_of (reached p (Node bit pfx dat l r))) (bitlen p)))
                (add_sin q) (Node bit pfx dat l r)) as [[t' h] c] eqn:Hs.
    exists t', h, c. split; [reflexivity|].
    apply (splice_spec p (Node bit pfx dat l r) Hwf ltac:(discriminate)
                       q _ Hq eq_refl t' h c Hs).
Qed.

(** ** The value slot *)

Lemma set_data_is_null (t : patricia_node_t) (h : node_ref) (v : option PyObject) :
  set_data t h v = NULL <-> t = NULL.
Proof.
  destruct t as [|bit pfx dat l r]; [split; reflexivity|].
  destruct h as [|[|] h']; cbn [set_data]; split; discriminate.
Qed.

Lemma set_data_bit_of (t : patricia_node_t) (h : node_ref) (v : option PyObject) :
  bit_of (set_data t h v) = bit_of t.
Proof.
  destruct t as [|bit pfx dat l r]; [reflexivity|].
  destruct h as [|[|] h']; reflexivity.
Qed.

Lemma set_data_keys (t : patricia_node_t) :
  forall h v, keys (set_data t h v) = keys t.
Proof.
  induction t as [|bit pfx dat l IHl r IHr]; intros h v; [reflexivity|].
  destruct h as [|[|] h']; cbn [set_data keys]; rewrite ?IHl, ?IHr; reflexivity.
Qed.

Lemma set_data_wf (t : patricia_node_t) :
  forall h v, wf_node t -> wf_node (set_data t h v).
Proof.
  induction t as [|bit pfx dat l IHl r IHr]; intros h v Hwf; [exact I|].
  wf_split Hwf.
  destruct h as [|[|] h']; cbn [set_data]; apply wf_node_intro;
    try assumption.
  - intros E. destruct (Hglue E) as [H1 H2]. split; [exact H1|].
    rewrite set_data_is_null. exact H2.
  - rewrite set_data_keys. exact Hkr.
  - cbn [keys]. rewrite set_data_keys. exact Hag.
  - rewrite set_data_is_null, set_data_bit_of. exact Hbr.
  - apply IHr. exact Hwr.
  - intros E. destruct (Hglue E) as [H1 H2]. split; [|exact H2].
    rewrite set_data_is_null. exact H1.
  - rewrite set_data_keys. exact Hkl.
  - cbn [keys]. rewrite set_data_keys. exact Hag.
  - rewrite set_data_is_null, set_data_bit_of. exact Hbl.
  - apply IHl. exact Hwl.
Qed.

Lemma stack_need_Node bit pfx dat l r :
  stack_need (Node bit pfx dat l r) =
  if is_null l || is_null r
  then Nat.max (stack_need l) (stack_need r)
  else Nat.max (S (stack_need l)) (stack_need r).
Proof. destruct l, r; reflexivity. Qed.

Lemma set_data_is_nullb (t : patricia_node_t) (h : node_ref) (v : option PyObject) :
  is_null (set_data t h v) = is_null t.
Proof.
  destruct t as [|bit pfx dat l r]; [reflexivity|].
  destruct h as [|[|] h']; reflexivity.
Qed.

Lemma set_data_stack_need (t : patricia_node_t) :
  forall h v, stack_need (set_data t h v) = stack_need t.
Proof.
  induction t as [|bit pfx dat l IHl r IHr]; intros h v; [reflexivity|].
  destruct h as [|[|] h']; cbn [set_data]; rewrite !stack_need_Node.
  - reflexivity.
  - rewrite set_data_is_nullb, IHr. reflexivity.
  - rewrite set_data_is_nullb, IHl. reflexivity.
Qed.

(** After the store through the handle the insertion returned, every
    real node carries a value again. *)
Lemma splice_data_ok (p : prefix_t) (d : nat) (test : list Z) :
  forall t t' h c v,
    data_ok t -> splice p d test t = (t', h, c) ->
    data_ok (set_data t' h (Some v)).
Proof.
  induction t as [|bit pfx dat l IHl r IHr]; intros t' h c v Hok Hs.
  - cbn [splice] in Hs. inversion Hs; subst. cbn. repeat split; easy.
  - cbn [data_ok] in Hok. destruct Hok as (Hpd & Hdl & Hdr).
    cbn [splice] in Hs.
    destruct ((bit <? d) || ((bit =? d) && (d <? bitlen p))).
    + destruct (BIT_TEST (add_sin p) bit).
      * destruct (splice p d test r) as [[r' h'] c'] eqn:Hsp.
        inversion Hs; subst. cbn [set_data data_ok].
        split; [exact Hpd|]. split; [exact Hdl|]. eapply IHr; eauto.
      * destruct (splice p d test l) as [[l' h'] c'] eqn:Hsp.
        inversion Hs; subst. cbn [set_data data_ok].
        split; [exact Hpd|]. split; [|exact Hdr]. eapply IHl; eauto.
    + destruct (d =? bitlen p).
      * destruct (bit =? bitlen p).
        -- destruct pfx as [q0|]; inversion Hs; subst; cbn [set_data data_ok];
             repeat split; easy.
        -- destruct (BIT_TEST test (bitlen p)); inversion Hs; subst;
             cbn [set_data data_ok]; intuition congruence.
      * destruct (BIT_TEST (add_sin p) d); inversion Hs; subst;
          cbn [set_data data_ok new_leaf]; intuition congruence.
Qed.

(* ================================================================= *)
(** * Part XI.  Removal keeps the trie well formed                    *)
(* ================================================================= *)

Lemma node_at_NULL (h : node_ref) : node_at NULL h = NULL.
Proof. destruct h; reflexivity. Qed.

Lemma adds_sub (p : prefix_t) (K K' : list prefix_t) :
  adds p K K' -> forall k, In k K -> In k K'.
Proof. intros Hadd k Hk. apply (adds_in _ _ _ Hadd). auto. Qed.

Lemma remove_at_spec :
  forall t h q0 t' s,
    wf_node t -> prefix_of (node_at t h) = Some q0 ->
    remove_at t h = (t', s) ->
    wf_node t' /\ adds q0 (keys t') (keys t) /\
    (t' <> NULL -> bit_of t <= bit_of t') /\
    (s = false -> t' <> NULL).
Proof.
  induction t as [|bit pfx dat l IHl r IHr]; intros h q0 t' s Hwf Hq Hrm.
  - rewrite node_at_NULL in Hq. discriminate.
  - pose proof Hwf as Hwf0. wf_split Hwf.
    destruct h as [|[|] h'].
    + (* the node itself *)
      cbn [node_at prefix_of] in Hq. subst pfx. cbn [remove_at] in Hrm.
      destruct l as [|lb lp ld ll lr]; [|destruct r as [|rb rp rd rl rr]].
      * inversion Hrm; subst t' s. split; [exact Hwr|].
        split; [cbn [keys]; apply adds_here|].
        split; [intros Hnn; specialize (Hbr Hnn); cbn [bit_of]; lia|].
        intros E; discriminate.
      * inversion Hrm; subst t' s. split; [exact Hwl|].
        split; [cbn [keys app]; rewrite app_nil_r; apply adds_here|].
        split; [intros Hnn; specialize (Hbl Hnn); cbn [bit_of] in *; lia|].
        intros E; discriminate.
      * inversion Hrm; subst t' s.
        split; [|split; [cbn [keys]; apply adds_here|split; [reflexivity|discriminate]]].
        apply wf_node_intro; try assumption.
        -- intros q E. discriminate.
        -- intros _. split; discriminate.
        -- intros q q' Hin Hin'. apply Hag; apply keys_Node_in;
             [apply keys_Node_in in Hin | apply keys_Node_in in Hin'];
             intuition discriminate.
    + (* below, on the right *)
      cbn [node_at] in Hq. cbn [remove_at] in Hrm.
      destruct (remove_at r h') as [r' s'] eqn:Hr.
      destruct (IHr h' q0 r' s' Hwr Hq Hr) as (Hwr' & Hadd & Hbit & Hs').
      assert (Hrnn : r <> NULL).
      { intros ->. rewrite node_at_NULL in Hq. discriminate. }
      specialize (Hbr Hrnn).
      assert (Hsub : forall k, In k (keys (Node bit pfx dat l r')) ->
                               In k (keys (Node bit pfx dat l r))).
      { intros k Hk. apply keys_Node_in in Hk. apply keys_Node_in.
        destruct Hk as [Hk|[Hk|Hk]]; auto.
        right; right. apply (adds_sub _ _ _ Hadd). exact Hk. }
      assert (Hnode : (pfx = None -> r' <> NULL) ->
                wf_node (Node bit pfx dat l r') /\
                adds q0 (keys (Node bit pfx dat l r')) (keys (Node bit pfx dat l r)) /\
                (Node bit pfx dat l r' <> NULL ->
                 bit_of (Node bit pfx dat l r) <= bit_of (Node bit pfx dat l r')) /\
                (false = false -> Node bit pfx dat l r' <> NULL)).
      { intros Hg. split; [|split; [|split; [reflexivity|discriminate]]].
        - apply wf_node_intro; try assumption.
          + intros E. destruct (Hglue E) as [H1 _]. split; [exact H1 | exact (Hg E)].
          + intros k Hk. apply Hkr. apply (adds_sub _ _ _ Hadd). exact Hk.
          + intros q q' Hin Hin'. apply Hag; apply Hsub; assumption.
          + intros Hnn. specialize (Hbit Hnn). lia.
        - cbn [keys]. apply adds_app_l. apply adds_app_l. exact Hadd. }
      destruct s'.
      * destruct pfx as [qn|].
        -- cbn [collapse] in Hrm. inversion Hrm; subst t' s.
           apply Hnode. intros E; discriminate.
        -- destruct (Hglue eq_refl) as [Hlnn _].
           destruct l as [|lb lp ld ll lr]; [contradiction|].
           destruct r' as [|rb' rp' rd' rl' rr'].
           ++ cbn [collapse] in Hrm. inversion Hrm; subst t' s.
              split; [exact Hwl|].
              split; [|split; [intros _; specialize (Hbl Hlnn); cbn [bit_of] in *; lia
                              |intros E; discriminate]].
              destruct Hadd as (k1 & k2 & Hk1 & Hk2). cbn [keys] in Hk1.
              symmetry in Hk1. apply app_eq_nil in Hk1. destruct Hk1 as [-> ->].
              cbn [keys app]. rewrite Hk2. apply adds_end.
           ++ cbn [collapse] in Hrm. inversion Hrm; subst t' s.
              apply Hnode. intros _; discriminate.
      * inversion Hrm; subst t' s. apply Hnode. intros _. apply Hs'. reflexivity.
    + (* below, on the left *)
      cbn [node_at] in Hq. cbn [remove_at] in Hrm.
      destruct (remove_at l h') as [l' s'] eqn:Hl.
      destruct (IHl h' q0 l' s' Hwl Hq Hl) as (Hwl' & Hadd & Hbit & Hs').
      assert (Hlnn : l <> NULL).
      { intros ->. rewrite node_at_NULL in Hq. discriminate. }
      specialize (Hbl Hlnn).
      assert (Hsub : forall k, In k (keys (Node bit pfx dat l' r)) ->
                               In k (keys (Node bit pfx dat l r))).
      { intros k Hk. apply keys_Node_in in Hk. apply keys_Node_in.
        destruct Hk as [Hk|[Hk|Hk]]; auto.
        right; left. apply (adds_sub _ _ _ Hadd). exact Hk. }
      assert (Hnode : (pfx = None -> l' <> NULL) ->
                wf_node (Node bit pfx dat l' r) /\
                adds q0 (keys (Node bit pfx dat l' r)) (keys (Node bit pfx dat l r)) /\
                (Node bit pfx dat l' r <> NULL ->
                 bit_of (Node bit pfx dat l r) <= bit_of (Node bit pfx dat l' r)) /\
                (false = false -> Node bit pfx dat l' r <> NULL)).
      { intros Hg. split; [|split; [|split; [reflexivity|discriminate]]].
        - apply wf_node_intro; try assumption.
          + intros E. destruct (Hglue E) as [_ H2]. split; [exact (Hg E) | exact H2].
          + intros k Hk. apply Hkl. apply (adds_sub _ _ _ Hadd). exact Hk.
          + intros q q' Hin Hin'. apply Hag; apply Hsub; assumption.
          + intros Hnn. specialize (Hbit Hnn). lia.
        - cbn [keys]. apply adds_app_l. apply adds_app_r. exact Hadd. }
      destruct s'.
      * destruct pfx as [qn|].
        -- cbn [collapse] in Hrm. inversion Hrm; subst t' s.
           apply Hnode. intros E; discriminate.
        -- destruct (Hglue eq_refl) as [_ Hrnn].
           destruct r as [|rb rp rd rl rr]; [contradiction|].
           destruct l' as [|lb' lp' ld' ll' lr'].
           ++ cbn [collapse] in Hrm. inversion Hrm; subst t' s.
              split; [exact Hwr|].
              split; [|split; [intros _; specialize (Hbr Hrnn); cbn [bit_of] in *; lia
                              |intros E; discriminate]].
              destruct Hadd as (k1 & k2 & Hk1 & Hk2). cbn [keys] in Hk1.
              symmetry in Hk1. apply app_eq_nil in Hk1. destruct Hk1 as [-> ->].
              cbn [keys app]. rewrite Hk2. apply adds_here.
           ++ cbn [collapse] in Hrm. inversion Hrm; subst t' s.
              apply Hnode. intros _; discriminate.
      * inversion Hrm; subst t' s. apply Hnode. intros _. apply Hs'. reflexivity.
Qed.

(* ================================================================= *)
(** * Part XII.  What holds of every reachable tree                   *)
(* ================================================================= *)

Lemma BIT_TEST_past (a : list Z) (i : nat) :
  List.length a <= 4 -> 32 <= i -> BIT_TEST a i = false.
Proof.
  intros Hlen Hi. unfold BIT_TEST.
  assert (H8 : 4 <= i / 8).
  { change 4 with (32 / 8). apply Nat.Div0.div_le_mono. exact Hi. }
  rewrite nth_overflow by lia. apply Z.testbit_0_l.
Qed.

(** The walk's stack never needs more than 32 slots on a well-formed
    tree of IPv4 keys: only a node shorter than 32 bits has a right
    child. *)
Lemma wf_stack_need (t : patricia_node_t) :
  wf_node t ->
  (forall q, In q (keys t) -> List.length (add_sin q) <= 4) ->
  stack_need t + Nat.min (bit_of t) 32 <= 32.
Proof.
  induction t as [|bit pfx dat l IHl r IHr]; intros Hwf Hbytes; [simpl; lia|].
  pose proof Hwf as Hwf0. wf_split Hwf.
  assert (Hl : stack_need l + Nat.min (bit_of l) 32 <= 32).
  { apply IHl; [exact Hwl|]. intros q Hq. apply Hbytes. apply keys_Node_in. auto. }
  assert (Hr : stack_need r + Nat.min (bit_of r) 32 <= 32).
  { apply IHr; [exact Hwr|]. intros q Hq. apply Hbytes. apply keys_Node_in. auto. }
  rewrite stack_need_Node. cbn [bit_of].
  destruct l as [|lb lp ld ll lr]; destruct r as [|rb rp rd rl rr];
    cbn [is_null orb].
  - simpl. lia.
  - specialize (Hbr ltac:(discriminate)). cbn [bit_of stack_need] in *.
    change (stack_need NULL) with 0. lia.
  - specialize (Hbl ltac:(discriminate)). cbn [bit_of] in *.
    change (stack_need NULL) with 0. lia.
  - specialize (Hbl ltac:(discriminate)). specialize (Hbr ltac:(discriminate)).
    destruct (wf_has_key _ Hwr ltac:(discriminate)) as (k & Hk).
    assert (Hb32 : bit < 32).
    { destruct (Nat.lt_ge_cases bit 32) as [H|H]; [exact H|]. exfalso.
      pose proof (Hkr k Hk) as E.
      rewrite BIT_TEST_past in E; [discriminate| |exact H].
      apply Hbytes. apply keys_Node_in. auto. }
    cbn [bit_of] in *. lia.
Qed.

Lemma tree_inv_stack (tree : patricia_tree_t) :
  tree_inv tree -> stack_need (head tree) <= XSTACK_SLOTS.
Proof.
  intros (Hwf & _ & _ & Hbytes).
  pose proof (wf_stack_need _ Hwf Hbytes) as H.
  unfold XSTACK_SLOTS, PATRICIA_MAXBITS. simpl Z.to_nat.
  change (Pos.to_nat 129) with 129. lia.
Qed.

Lemma remove_at_data_ok :
  forall t h, data_ok t -> data_ok (fst (remove_at t h)).
Proof.
  induction t as [|bit pfx dat l IHl r IHr]; intros h Hok; [exact I|].
  cbn [data_ok] in Hok. destruct Hok as (Hpd & Hdl & Hdr).
  destruct h as [|[|] h']; cbn [remove_at].
  - destruct l as [|lb lp ld ll lr]; [exact Hdr|].
    destruct r as [|rb rp rd rl rr]; [exact Hdl|].
    cbn [fst data_ok]. cbn [data_ok] in Hdl, Hdr. intuition.
  - specialize (IHr h' Hdr). destruct (remove_at r h') as [r' s'].
    cbn [fst] in IHr. destruct s'.
    + destruct pfx as [q|]; [cbn; intuition|].
      destruct l as [|lb lp ld ll lr]; [exact IHr|].
      destruct r' as [|rb' rp' rd' rl' rr']; [exact Hdl|].
      cbn [collapse fst data_ok]. cbn [data_ok] in Hdl, IHr. intuition.
    + cbn [fst data_ok]. intuition.
  - specialize (IHl h' Hdl). destruct (remove_at l h') as [l' s'].
    cbn [fst] in IHl. destruct s'.
    + destruct pfx as [q|]; [cbn; intuition|].
      destruct l' as [|lb' lp' ld' ll' lr']; [exact Hdr|].
      destruct r as [|rb rp rd rl rr]; [exact IHl|].
      cbn [collapse fst data_ok]. cbn [data_ok] in Hdr, IHl. intuition.
    + cbn [fst data_ok]. intuition.
Qed.

(** ** The methods in terms of [key_to_prefix] *)

Lemma pytricia_subscript_eq (self : patricia_tree_t) (key : PyObject) :
  pytricia_subscript self key =
  match key_to_prefix key with
  | KeyBadObject => Raise ValueError "Error parsing key."
  | KeyBadPrefix => Raise ValueError "Error parsing prefix."
  | KeyOverrun => Undefined
  | KeyOk subnet =>
      if engine_defined self subnet then
        match patricia_search_best self subnet with
        | None => Raise KeyError "Prefix not found."
        | Some node =>
            match data_of (node_at (head self) node) with
            | Some data => Return data
            | None => Undefined
            end
        end
      else Undefined
  | KeyErrSet subnet =>
      if engine_defined self subnet then
        match patricia_search_best self subnet with
        | None => Raise KeyError "Prefix not found."
        | Some node => Undefined
        end
      else Undefined
  end.
Proof.
  unfold pytricia_subscript, key_to_prefix.
  destruct (convert_key_to_cstring key) as [rv keystr].
  destruct (rv <? 0)%Z; [reflexivity|].
  destruct (keystr_terminated keystr); cbn [negb]; [|reflexivity].
  destruct (pystr_to_prefix keystr) as [p|]; [|reflexivity].
  destruct (convert_key_error key); cbn [negb];
    destruct (engine_defined self p); cbn [negb]; try reflexivity;
    destruct (patricia_search_best self p); try reflexivity;
    destruct (data_of _); reflexivity.
Qed.

Lemma pytricia_internal_delete_eq (self : patricia_tree_t) (key : PyObject) :
  pytricia_internal_delete self key =
  match key_to_prefix key with
  | KeyBadObject => (Raise ValueError "Error parsing key.", self)
  | KeyBadPrefix => (Raise ValueError "Error parsing prefix.", self)
  | KeyOverrun => (Undefined, self)
  | KeyOk prefix | KeyErrSet prefix =>
      if engine_defined self prefix then
        match patricia_search_exact self prefix with
        | None => (Raise KeyError "Prefix doesn't exist.", self)
        | Some node => (Return tt, patricia_remove self node)
        end
      else (Undefined, self)
  end.
Proof.
  unfold pytricia_internal_delete, key_to_prefix.
  destruct (convert_key_to_cstring key) as [rv keystr].
  destruct (rv <? 0)%Z; [reflexivity|].
  destruct (keystr_terminated keystr); cbn [negb]; [|reflexivity].
  destruct (pystr_to_prefix keystr) as [p|]; [|reflexivity].
  destruct (convert_key_error key); cbn [negb];
    destruct (engine_defined self p); reflexivity.
Qed.

(** Canonical text is a C string that parses to the prefix it writes. *)
Lemma canonical_cidr_parse (s : string) (p : prefix_t) :
  canonical_cidr s = Some p ->
  pystr_to_prefix s = Some p /\ prefix_toa2x p = s.
Proof.
  unfold canonical_cidr. destruct (pystr_to_prefix s) as [q|]; [|discriminate].
  destruct (String.eqb (prefix_toa2x q) s) eqn:E; [|discriminate].
  intros H. inversion H; subst q. split; [reflexivity|].
  apply String.eqb_eq. exact E.
Qed.

(** Assignment, in the three ways it can end. *)
Lemma pytricia_assign_eq (self : patricia_tree_t) (key v : PyObject) :
  pytricia_assign_subscript self key (Some v) =
  if (fst (convert_key_to_cstring key) <? 0)%Z
  then (Raise ValueError "Error parsing key.", self)
  else
    match canonical_cidr (snd (convert_key_to_cstring key)) with
    | Some p =>
        if engine_defined self p
        then (Return tt,
              {| head := set_data (head (fst (patricia_lookup self p)))
                                  (snd (patricia_lookup self p)) (Some v);
                 maxbits := maxbits (fst (patricia_lookup self p));
                 num_active_node := num_active_node (fst (patricia_lookup self p)) |})
        else (Undefined, self)
    | None => (Undefined, self)
    end.
Proof.
  unfold pytricia_assign_subscript, make_and_lookup.
  destruct (convert_key_to_cstring key) as [rv keystr]. cbn [fst snd].
  destruct (rv <? 0)%Z; [reflexivity|].
  destruct (canonical_cidr keystr) as [p|]; [|reflexivity].
  destruct (engine_defined self p); [|reflexivity].
  destruct (patricia_lookup self p) as [tree' node]. reflexivity.
Qed.

Lemma pytricia_get_eq (obj : patricia_tree_t) (key : PyObject)
      (defvalue : option PyObject) :
  pytricia_get obj (key :: match defvalue with Some d => [d] | None => [] end) =
  match key_to_prefix key with
  | KeyBadObject => Raise ValueError "Error parsing key."
  | KeyBadPrefix => Raise ValueError "Error parsing prefix."
  | KeyOverrun => Undefined
  | KeyOk prefix =>
      if engine_defined obj prefix then
        match patricia_search_best obj prefix with
        | None => match defvalue with Some d => Return d | None => Return PyNone end
        | Some node =>
            match data_of (node_at (head obj) node) with
            | Some data => Return data
            | None => Undefined
            end
        end
      else Undefined
  | KeyErrSet prefix =>
      if engine_defined obj prefix then
        match patricia_search_best obj prefix with
        | None => Raise SystemError "returned a result with an exception set"
        | Some node =>
            match data_of (node_at (head obj) node) with
            | Some data =>
                Raise SystemError "returned a result with an exception set"
            | None => Undefined
            end
        end
      else Undefined
  end.
Proof.
  unfold pytricia_get, key_to_prefix.
  destruct defvalue as [d|];
    destruct (convert_key_to_cstring key) as [rv keystr];
    (destruct (rv <? 0)%Z; [reflexivity|]);
    (destruct (keystr_terminated keystr); cbn [negb]; [|reflexivity]);
    (destruct (pystr_to_prefix keystr) as [p|]; [|reflexivity]);
    destruct (convert_key_error key); cbn [negb];
    destruct (engine_defined obj p); cbn [negb]; try reflexivity;
    destruct (patricia_search_best obj p); try reflexivity;
    destruct (data_of _); reflexivity.
Qed.

Lemma pytricia_contains_eq (self : patricia_tree_t) (key : PyObject) :
  pytricia_contains self key =
  match key_to_prefix key with
  | KeyBadObject => Raise ValueError "Error parsing key."
  | KeyBadPrefix => Raise ValueError "Error parsing prefix."
  | KeyOverrun => Undefined
  | KeyOk prefix =>
      if engine_defined self prefix then
        match patricia_search_best self prefix with
        | Some _ => Return true
        | None => Return false
        end
      else Undefined
  | KeyErrSet _ => Undefined
  end.
Proof.
  unfold pytricia_contains, key_to_prefix.
  destruct (convert_key_to_cstring key) as [rv keystr].
  destruct (rv <? 0)%Z; [reflexivity|].
  destruct (keystr_terminated keystr); cbn [negb]; [|reflexivity].
  destruct (pystr_to_prefix keystr) as [p|]; [|reflexivity].
  destruct (convert_key_error key); cbn [negb];
    destruct (engine_defined self p); cbn [negb]; try reflexivity;
    destruct (patricia_search_best self p); reflexivity.
Qed.

Lemma pytricia_has_key_eq (self : patricia_tree_t) (key : PyObject) :
  pytricia_has_key self [key] =
  match key_to_prefix key with
  | KeyBadObject => Raise ValueError "Error parsing key."
  | KeyBadPrefix => Raise ValueError "Error parsing prefix."
  | KeyOverrun => Undefined
  | KeyOk prefix =>
      if engine_defined self prefix then
        match patricia_search_exact self prefix with
        | Some _ => Return (PyBool true)
        | None => Return (PyBool false)
        end
      else Undefined
  | KeyErrSet prefix =>
      if engine_defined self prefix
      then Raise SystemError "returned a result with an exception set"
      else Undefined
  end.
Proof.
  unfold pytricia_has_key, key_to_prefix.
  destruct (convert_key_to_cstring key) as [rv keystr].
  destruct (rv <? 0)%Z; [reflexivity|].
  destruct (keystr_terminated keystr); cbn [negb]; [|reflexivity].
  destruct (pystr_to_prefix keystr) as [p|]; [|reflexivity].
  destruct (convert_key_error key); cbn [negb];
    destruct (engine_defined self p); cbn [negb]; try reflexivity;
    destruct (patricia_search_exact self p); reflexivity.
Qed.

Lemma pystr_to_prefix_bytes (s : string) (p : prefix_t) :
  pystr_to_prefix s = Some p ->
  List.length (add_sin p) <= 4 /\ family p = AF_INET.
Proof.
  unfold pystr_to_prefix.
  destruct (parse_cidr s) as [[subnet mask]|]; [|discriminate].
  intros E. inversion E; subst p. cbn [make_prefix add_sin family].
  split; [apply firstn_le_length | reflexivity].
Qed.

Lemma key_to_prefix_parse (key : PyObject) (p : prefix_t) :
  key_to_prefix key = KeyOk p \/ key_to_prefix key = KeyErrSet p ->
  pystr_to_prefix (snd (convert_key_to_cstring key)) = Some p /\
  (fst (convert_key_to_cstring key) <? 0)%Z = false /\
  keystr_terminated (snd (convert_key_to_cstring key)) = true.
Proof.
  unfold key_to_prefix.
  destruct (convert_key_to_cstring key) as [rv keystr]. cbn [fst snd].
  destruct (rv <? 0)%Z; [intros [H|H]; discriminate H|].
  destruct (keystr_terminated keystr); cbn [negb]; [|intros [H|H]; discriminate H].
  destruct (pystr_to_prefix keystr) as [q|]; [|intros [H|H]; discriminate H].
  destruct (convert_key_error key); intros [H|H]; inversion H; subst; auto.
Qed.

Lemma key_to_prefix_bytes (key : PyObject) (p : prefix_t) :
  key_to_prefix key = KeyOk p ->
  List.length (add_sin p) <= 4 /\ family p = AF_INET.
Proof.
  intros Hk. apply (pystr_to_prefix_bytes (snd (convert_key_to_cstring key))).
  apply (key_to_prefix_parse key p). left. exact Hk.
Qed.

Lemma key_ok_no_error (key : PyObject) (p : prefix_t) :
  key_to_prefix key = KeyOk p -> convert_key_error key = None.
Proof.
  unfold key_to_prefix.
  destruct (convert_key_to_cstring key) as [rv keystr].
  destruct (rv <? 0)%Z; [discriminate|].
  destruct (keystr_terminated keystr); cbn [negb]; [|discriminate].
  destruct (pystr_to_prefix keystr); [|discriminate].
  destruct (convert_key_error key); [discriminate | reflexivity].
Qed.


(** ** Exact search decides whether a pair is stored *)

Lemma search_exact_stored (tree : patricia_tree_t) (p : prefix_t) :
  wf_node (head tree) ->
  (patricia_search_exact tree p <> None <-> stored tree p).
Proof.
  intros Hwf. unfold patricia_search_exact, stored. split.
  - intros Hs. destruct (search_exact_from p (head tree)) as [h|] eqn:E;
      [|contradiction].
    destruct (search_exact_sound p _ Hwf h E) as (q & _ & Hin & Hsk).
    exists q. auto.
  - intros (q & Hin & Hsk).
    destruct (search_exact_complete p _ Hwf q Hin Hsk) as (h & Hs & _).
    rewrite Hs. discriminate.
Qed.

Lemma search_best_covered (tree : patricia_tree_t) (p : prefix_t) :
  wf_node (head tree) ->
  (patricia_search_best tree p <> None <-> covered tree p).
Proof.
  intros Hwf. rewrite patricia_search_best_below. unfold covered. split.
  - intros Hs. destruct (best_below p (head tree)) as [h|] eqn:E;
      [|contradiction].
    destruct (best_below_sound p _ Hwf h E) as (q & _ & Hin & Hc).
    exists q. auto.
  - intros (q & Hin & Hc). apply (best_below_complete p _ Hwf q Hin Hc).
Qed.

(** ** Insertion and deletion on a tree that satisfies the invariant *)

Lemma assigned_spec (tree : patricia_tree_t) (p : prefix_t) (v : PyObject) :
  tree_inv tree -> List.length (add_sin p) <= 4 ->
  tree_inv (assigned tree p v) /\
  maxbits (assigned tree p v) = maxbits tree /\
  ((exists h, patricia_search_exact tree p = Some h /\
              assigned tree p v =
              {| head := set_data (head tree) h (Some v);
                 maxbits := maxbits tree;
                 num_active_node := num_active_node tree |}) \/
   (patricia_search_exact tree p = None /\
    adds p (keys (head tree)) (keys (head (assigned tree p v))) /\
    num_active_node (assigned tree p v) = S (num_active_node tree))).
Proof.
  intros (Hwf & Hdat & Hcnt & Hbytes) Hp. unfold assigned.
  destruct (patricia_lookup_ok tree p Hwf) as (t' & h & c & Hlk & Hok).
  assert (Hdat' : data_ok (set_data t' h (Some v))).
  { unfold patricia_lookup in Hlk.
    destruct (splice p _ _ (head tree)) as [[t1 h1] c1] eqn:Hs in Hlk.
    inversion Hlk; subst t1 h1. eapply splice_data_ok; eauto. }
  rewrite Hlk. cbn [fst snd head maxbits num_active_node].
  destruct Hok as (Hwf' & Hnn' & Hnew & Hold).
  destruct c.
  - destruct (Hnew eq_refl) as (Hadd & Hnot & Hh).
    split; [|split; [reflexivity|right]].
    + unfold tree_inv. cbn [head num_active_node]. rewrite set_data_keys.
      split; [apply set_data_wf; exact Hwf'|]. split; [exact Hdat'|].
      split; [rewrite (adds_length _ _ _ Hadd), Hcnt; reflexivity|].
      intros q Hq. apply (adds_in _ _ _ Hadd) in Hq.
      destruct Hq as [->|Hq]; auto.
    + split; [|split; [rewrite set_data_keys; exact Hadd | reflexivity]].
      destruct (patricia_search_exact tree p) as [h0|] eqn:E; [|reflexivity].
      exfalso. unfold patricia_search_exact in E.
      destruct (search_exact_sound p _ Hwf h0 E) as (q & _ & Hin & Hsk).
      apply (Hnot q Hin Hsk).
  - destruct (Hold eq_refl) as (-> & Hse & q0 & Hq0 & Hin0 & Hsk).
    split; [|split; [reflexivity|left]].
    + unfold tree_inv. cbn [head num_active_node]. rewrite set_data_keys.
      split; [apply set_data_wf; exact Hwf|]. split; [exact Hdat'|].
      split; [exact Hcnt | exact Hbytes].
    + exists h. split; [exact Hse | reflexivity].
Qed.

Lemma node_at_real_in (t : patricia_node_t) :
  forall h q, prefix_of (node_at t h) = Some q -> is_real (node_at t h) = true.
Proof. intros h q Hq. unfold is_real. rewrite Hq. reflexivity. Qed.

Lemma removed_spec (tree : patricia_tree_t) (p : prefix_t) (h : node_ref) :
  tree_inv tree -> patricia_search_exact tree p = Some h ->
  tree_inv (patricia_remove tree h) /\
  maxbits (patricia_remove tree h) = maxbits tree /\
  exists q0, same_key q0 p /\
             adds q0 (keys (head (patricia_remove tree h))) (keys (head tree)) /\
             S (num_active_node (patricia_remove tree h)) = num_active_node tree.
Proof.
  intros (Hwf & Hdat & Hcnt & Hbytes) Hs. unfold patricia_search_exact in Hs.
  destruct (search_exact_sound p _ Hwf h Hs) as (q0 & Hq0 & Hin0 & Hsk).
  destruct (remove_at (head tree) h) as [t' s] eqn:Hrm.
  destruct (remove_at_spec _ _ _ _ _ Hwf Hq0 Hrm) as (Hwf' & Hadd & _ & _).
  unfold patricia_remove. rewrite Hrm, (node_at_real_in _ _ _ Hq0).
  cbn [fst head maxbits num_active_node].
  pose proof (adds_length _ _ _ Hadd) as Hlen.
  split; [|split; [reflexivity|]].
  - unfold tree_inv. cbn [head num_active_node].
    split; [exact Hwf'|].
    split; [pose proof (remove_at_data_ok _ h Hdat) as Hd;
            rewrite Hrm in Hd; exact Hd|].
    split; [lia|].
    intros q Hq. apply Hbytes. apply (adds_sub _ _ _ Hadd). exact Hq.
  - exists q0. split; [exact Hsk|]. split; [exact Hadd | lia].
Qed.

Lemma tree_inv_New (mb : Z) : tree_inv (New_Patricia mb).
Proof.
  unfold tree_inv, New_Patricia. cbn. repeat split; auto. intros q [].
Qed.

Lemma pytricia_init_tree (args : list PyObject) (tree : patricia_tree_t) :
  pytricia_init args = (Return tt, tree) ->
  exists mb, tree = New_Patricia mb /\ (0 <= mb <= PATRICIA_MAXBITS)%Z.
Proof.
  unfold pytricia_init. destruct (parse_optional_int args 32) as [n|];
    [|discriminate].
  destruct ((n <? 0)%Z || (PATRICIA_MAXBITS <? n)%Z) eqn:E; [discriminate|].
  intros H. inversion H; subst tree. exists n. split; [reflexivity|].
  apply Bool.orb_false_iff in E. destruct E as [E1 E2].
  apply Z.ltb_ge in E1. apply Z.ltb_ge in E2. lia.
Qed.

(** How an assignment can end: a bad key object, no defined outcome, or
    the insertion of the canonical key's prefix. *)
Lemma assign_cases (tree : patricia_tree_t) (key v : PyObject) :
  (exists r, pytricia_assign_subscript tree key (Some v) = (r, tree)) \/
  (exists p, canonical_cidr (snd (convert_key_to_cstring key)) = Some p /\
             engine_defined tree p = true /\
             pytricia_assign_subscript tree key (Some v)
             = (Return tt, assigned tree p v)).
Proof.
  rewrite pytricia_assign_eq.
  destruct (fst (convert_key_to_cstring key) <? 0)%Z; [left; eexists; reflexivity|].
  destruct (canonical_cidr (snd (convert_key_to_cstring key))) as [p|] eqn:Hc;
    [|left; eexists; reflexivity].
  destruct (engine_defined tree p) eqn:E; [|left; eexists; reflexivity].
  right. exists p. split; [reflexivity|]. split; [exact E | reflexivity].
Qed.

(** How a deletion can end: the tree as it was, or the removal of the
    node exact search found for the key's prefix. *)
Lemma delete_cases (tree : patricia_tree_t) (key : PyObject) :
  (exists r, pytricia_internal_delete tree key = (r, tree)) \/
  (exists p h, (key_to_prefix key = KeyOk p \/ key_to_prefix key = KeyErrSet p) /\
               engine_defined tree p = true /\
               patricia_search_exact tree p = Some h /\
               pytricia_internal_delete tree key
               = (Return tt, patricia_remove tree h)).
Proof.
  rewrite pytricia_internal_delete_eq.
  destruct (key_to_prefix key) as [p| | | |p] eqn:Hk;
    try (left; eexists; reflexivity);
    (destruct (engine_defined tree p) eqn:E; [|left; eexists; reflexivity]);
    (destruct (patricia_search_exact tree p) as [h|] eqn:Hs;
     [|left; eexists; reflexivity]);
    right; exists p, h; auto.
Qed.

Lemma canonical_cidr_bytes (s : string) (p : prefix_t) :
  canonical_cidr s = Some p -> List.length (add_sin p) <= 4.
Proof.
  intros H. apply (pystr_to_prefix_bytes s p).
  apply (canonical_cidr_parse s p H).
Qed.

Lemma tree_inv_assign (tree : patricia_tree_t) (key : PyObject)
      (value : option PyObject) r tree' :
  tree_inv tree ->
  pytricia_assign_subscript tree key value = (r, tree') ->
  tree_inv tree'.
Proof.
  intros Hinv Hop. destruct value as [v|].
  - destruct (assign_cases tree key v) as [(r0 & E) | (p & Hc & _ & E)];
      rewrite E in Hop; inversion Hop; subst; [exact Hinv|].
    apply assigned_spec; [exact Hinv|].
    apply (canonical_cidr_bytes _ p Hc).
  - cbn [pytricia_assign_subscript] in Hop.
    destruct (delete_cases tree key) as [(r0 & E) | (p & h & _ & _ & Hs & E)];
      rewrite E in Hop; inversion Hop; subst; [exact Hinv|].
    apply (removed_spec tree p h Hinv Hs).
Qed.

Lemma canonical_key_prefix (key : PyObject) (p : prefix_t) :
  key_to_prefix key = KeyOk p \/ key_to_prefix key = KeyErrSet p ->
  canonical_key key = true ->
  canonical_cidr (snd (convert_key_to_cstring key)) = Some p.
Proof.
  intros Hk Hc. unfold canonical_key in Hc.
  destruct (canonical_cidr (snd (convert_key_to_cstring key))) as [q|] eqn:E;
    [|discriminate Hc].
  destruct (canonical_cidr_parse _ q E) as (Hq & _).
  destruct (key_to_prefix_parse key p Hk) as (Hp & _).
  rewrite Hq in Hp. exact Hp.
Qed.

(** Assignment on a canonical key that parses to a prefix inside the
    engine's domain. *)
Lemma pytricia_assign_ok (tree : patricia_tree_t) (key v : PyObject)
      (p : prefix_t) :
  key_to_prefix key = KeyOk p \/ key_to_prefix key = KeyErrSet p ->
  canonical_key key = true ->
  engine_defined tree p = true ->
  pytricia_assign_subscript tree key (Some v) = (Return tt, assigned tree p v).
Proof.
  intros Hk Hc Hd. rewrite pytricia_assign_eq.
  destruct (key_to_prefix_parse key p Hk) as (_ & Hrv & _).
  rewrite Hrv, (canonical_key_prefix key p Hk Hc), Hd. reflexivity.
Qed.

Lemma reachable_inv (tree : patricia_tree_t) :
  reachable tree -> tree_inv tree.
Proof.
  induction 1 as [args tree Hinit | tree key value r tree' Hr IH Hop].
  - destruct (pytricia_init_tree args tree Hinit) as (mb & -> & _).
    apply tree_inv_New.
  - apply (tree_inv_assign tree key value r tree' IH Hop).
Qed.

(** ** [len()] on a reachable tree *)

Lemma pytricia_length_keys (tree : patricia_tree_t) :
  tree_inv tree ->
  pytricia_length tree = Return (List.length (keys (head tree))).
Proof.
  intros Hinv. unfold pytricia_length.
  rewrite (PATRICIA_WALK_correct _ (tree_inv_stack _ Hinv)).
  rewrite real_nodes_length. reflexivity.
Qed.

(** ** Stored keys are pairwise distinct *)

Lemma distinct_app (A B : list prefix_t) :
  distinct (A ++ B) <->
  distinct A /\ distinct B /\
  (forall a b, In a A -> In b B -> ~ same_key a b).
Proof.
  induction A as [|a A IH]; cbn [app distinct].
  - split; [intros H; repeat split; auto; intros a b []|intros (_ & H & _); exact H].
  - rewrite IH. split.
    + intros (Ha & HA & HB & HAB). repeat split; auto.
      * intros b Hb. apply Ha. apply in_or_app. auto.
      * intros x b [<-|Hx] Hb; [apply Ha; apply in_or_app; auto | apply HAB; auto].
    + intros ((Ha & HA) & HB & HAB). repeat split; auto.
      * intros b Hb. apply in_app_or in Hb. destruct Hb as [Hb|Hb];
          [apply Ha; exact Hb | apply HAB; [left; reflexivity | exact Hb]].
      * intros x b Hx Hb. apply HAB; [right; exact Hx | exact Hb].
Qed.

Lemma wf_keys_distinct (t : patricia_node_t) :
  wf_node t -> distinct (keys t).
Proof.
  induction t as [|bit pfx dat l IHl r IHr]; intros Hwf; [exact I|].
  pose proof Hwf as Hwf0. wf_split Hwf. cbn [keys].
  assert (Hlong : forall k, In k (keys l ++ keys r) -> bit < bitlen k).
  { intros k Hk. apply in_app_or in Hk. destruct Hk as [Hk|Hk].
    - pose proof (keys_bitlen_ge _ Hwl _ Hk). specialize (Hbl (keys_not_NULL _ _ Hk)). lia.
    - pose proof (keys_bitlen_ge _ Hwr _ Hk). specialize (Hbr (keys_not_NULL _ _ Hk)). lia. }
  apply distinct_app. split; [|split].
  - destruct pfx; cbn; auto.
  - apply distinct_app. split; [auto|]. split; [auto|].
    intros a b Ha Hb Hsk.
    pose proof (Hlong b ltac:(apply in_or_app; auto)) as Hb'.
    pose proof (same_key_bit a b bit Hsk Hb') as E.
    rewrite (Hkl a Ha), (Hkr b Hb) in E. discriminate.
  - intros a b Ha Hb [Hsl _]. destruct pfx as [q|]; [|contradiction].
    destruct Ha as [<-|[]]. pose proof (Hlen q eq_refl). pose proof (Hlong b Hb). lia.
Qed.

Lemma distinct_adds (q0 : prefix_t) (K K' : list prefix_t) :
  adds q0 K' K -> distinct K ->
  distinct K' /\ forall k, In k K' -> ~ same_key k q0.
Proof.
  intros (k1 & k2 & -> & ->) Hd.
  apply distinct_app in Hd. destruct Hd as (H1 & H2 & H12).
  cbn [distinct] in H2. destruct H2 as (Hq & H2).
  split.
  - apply distinct_app. split; [exact H1|]. split; [exact H2|].
    intros a b Ha Hb. apply H12; [exact Ha | right; exact Hb].
  - intros k Hk Hsk. apply in_app_or in Hk. destruct Hk as [Hk|Hk].
    + apply (H12 k q0 Hk); [left; reflexivity | exact Hsk].
    + apply (Hq k Hk). apply same_key_sym. exact Hsk.
Qed.

(* ================================================================= *)
(** * Part XIII.  The tree holds the pairs inserted and not deleted   *)
(* ================================================================= *)

Lemma existsb_same_key (m : list prefix_t) (p : prefix_t) :
  existsb (fun q => same_keyb q p) m = true <->
  exists q, In q m /\ same_key q p.
Proof.
  rewrite existsb_exists. split; intros (q & Hin & H); exists q;
    (split; [exact Hin|]); apply same_keyb_true; exact H.
Qed.

Lemma filter_other_in (m : list prefix_t) (p x : prefix_t) :
  In x (filter (fun q => negb (same_keyb q p)) m) <->
  In x m /\ ~ same_key x p.
Proof.
  rewrite filter_In, Bool.negb_true_iff. split; intros [Hin H]; split; auto.
  - intros Hsk. apply same_keyb_true in Hsk. congruence.
  - destruct (same_keyb x p) eqn:E; [|reflexivity].
    exfalso. apply H. apply same_keyb_true. exact E.
Qed.

Lemma filter_other_all (m : list prefix_t) (p : prefix_t) :
  (forall q, In q m -> ~ same_key q p) ->
  filter (fun q => negb (same_keyb q p)) m = m.
Proof.
  induction m as [|a m IH]; intros Hno; [reflexivity|].
  cbn [filter].
  destruct (same_keyb a p) eqn:E.
  - exfalso. apply (Hno a); [left; reflexivity|]. apply same_keyb_true. exact E.
  - cbn [negb]. rewrite IH; [reflexivity|].
    intros q Hq. apply Hno. right. exact Hq.
Qed.

Lemma filter_other_one (m : list prefix_t) (p q : prefix_t) :
  distinct m -> In q m -> same_key q p ->
  S (List.length (filter (fun q => negb (same_keyb q p)) m)) = List.length m.
Proof.
  induction m as [|a m IH]; intros Hd Hin Hsk; [contradiction|].
  cbn [distinct] in Hd. destruct Hd as (Ha & Hd).
  cbn [filter].
  destruct (same_keyb a p) eqn:E.
  - cbn [negb]. rewrite filter_other_all; [reflexivity|].
    intros b Hb Hbp. apply (Ha b Hb).
    apply same_keyb_true in E.
    apply same_key_trans with p; [exact E | apply same_key_sym; exact Hbp].
  - cbn [negb List.length]. f_equal.
    destruct Hin as [->|Hin].
    + apply same_keyb_true in Hsk. congruence.
    + apply IH; assumption.
Qed.

Lemma distinct_filter (f : prefix_t -> bool) (m : list prefix_t) :
  distinct m -> distinct (filter f m).
Proof.
  induction m as [|a m IH]; intros Hd; [exact I|].
  cbn [distinct] in Hd. destruct Hd as (Ha & Hd). cbn [filter].
  destruct (f a); [|apply IH; exact Hd].
  cbn [distinct]. split; [|apply IH; exact Hd].
  intros b Hb. apply filter_In in Hb. apply Ha. apply Hb.
Qed.

Lemma models_New (mb : Z) : models [] (New_Patricia mb).
Proof.
  unfold models. split; [apply tree_inv_New|]. split; [exact I|].
  split; [|reflexivity]. intros x. cbn. split; intros (q & [] & _).
Qed.

Lemma models_stored (m : list prefix_t) (tree : patricia_tree_t) (p : prefix_t) :
  models m tree ->
  ((exists q, In q m /\ same_key q p) <-> patricia_search_exact tree p <> None).
Proof.
  intros (Hinv & _ & Hset & _).
  rewrite (search_exact_stored tree p (proj1 Hinv)). apply Hset.
Qed.

Lemma models_assign (m : list prefix_t) (tree : patricia_tree_t)
      (key value : PyObject) :
  models m tree ->
  op_defined (maxbits tree) (OpAssign key value) = true ->
  models (model_op m (OpAssign key value)) (apply_op tree (OpAssign key value)) /\
  maxbits (apply_op tree (OpAssign key value)) = maxbits tree.
Proof.
  intros Hm Hop. pose proof Hm as (Hinv & Hd & Hset & Hlen).
  cbn [model_op apply_op op_defined] in *.
  destruct (key_to_prefix key) as [p| | | |p] eqn:Hk; try discriminate Hop.
  - apply Bool.andb_true_iff in Hop. destruct Hop as [Hc Hdom].
    rewrite (pytricia_assign_ok tree key value p (or_introl Hk) Hc Hdom).
    cbn [snd].
    pose proof (proj1 (key_to_prefix_bytes key p Hk)) as Hp.
    destruct (assigned_spec tree p value Hinv Hp)
      as (Hinv' & Hmb & [(h & Hs & Heq) | (Hs & Hadd & Hcnt)]);
      (split; [|exact Hmb]).
    + assert (Hex : existsb (fun q => same_keyb q p) m = true).
      { apply existsb_same_key. apply (models_stored m tree p Hm). congruence. }
      rewrite Hex. unfold models. split; [exact Hinv'|]. split; [exact Hd|].
      rewrite Heq. cbn [head]. rewrite set_data_keys. split; assumption.
    + assert (Hnone : ~ exists q, In q m /\ same_key q p).
      { intros H. apply (models_stored m tree p Hm) in H. contradiction. }
      assert (Hex : existsb (fun q => same_keyb q p) m = false).
      { destruct (existsb (fun q => same_keyb q p) m) eqn:E; [|reflexivity].
        exfalso. apply Hnone. apply existsb_same_key. exact E. }
      rewrite Hex. unfold models. split; [exact Hinv'|]. split; [|split].
      * cbn [distinct]. split; [|exact Hd].
        intros b Hb Hsk. apply Hnone. exists b. split; [exact Hb|].
        apply same_key_sym. exact Hsk.
      * intros x. split.
        -- intros (q & [<-|Hq] & Hsk).
           ++ exists p. split; [apply (adds_in _ _ _ Hadd); auto | exact Hsk].
           ++ destruct (proj1 (Hset x) (ex_intro _ q (conj Hq Hsk))) as (q' & Hq' & Hsk').
              exists q'. split; [apply (adds_in _ _ _ Hadd); auto | exact Hsk'].
        -- intros (q & Hq & Hsk). apply (adds_in _ _ _ Hadd) in Hq.
           destruct Hq as [->|Hq].
           ++ exists p. split; [left; reflexivity | exact Hsk].
           ++ destruct (proj2 (Hset x) (ex_intro _ q (conj Hq Hsk))) as (q' & Hq' & Hsk').
              exists q'. split; [right; exact Hq' | exact Hsk'].
      * cbn [List.length]. rewrite (adds_length _ _ _ Hadd). f_equal. exact Hlen.
  - rewrite pytricia_assign_eq.
    assert (Hrv : (fst (convert_key_to_cstring key) <? 0)%Z = true).
    { unfold key_to_prefix in Hk.
      destruct (convert_key_to_cstring key) as [rv keystr]. cbn [fst].
      destruct (rv <? 0)%Z; [reflexivity|].
      destruct (keystr_terminated keystr); cbn [negb] in Hk; [|discriminate Hk].
      destruct (pystr_to_prefix keystr); [|discriminate Hk].
      destruct (convert_key_error key); discriminate Hk. }
    rewrite Hrv. cbn [snd]. split; [exact Hm | reflexivity].
Qed.

Lemma models_delete (m : list prefix_t) (tree : patricia_tree_t) (key : PyObject) :
  models m tree ->
  op_defined (maxbits tree) (OpDelete key) = true ->
  models (model_op m (OpDelete key)) (apply_op tree (OpDelete key)) /\
  maxbits (apply_op tree (OpDelete key)) = maxbits tree.
Proof.
  intros Hm Hop. pose proof Hm as (Hinv & Hd & Hset & Hlen).
  cbn [model_op apply_op op_defined] in *. rewrite pytricia_internal_delete_eq.
  destruct (key_to_prefix key) as [p| | | |p] eqn:Hk; cbn [snd];
    try discriminate Hop; try (split; [exact Hm | reflexivity]).
  unfold engine_defined. rewrite Hop.
  destruct (patricia_search_exact tree p) as [h|] eqn:Hs; cbn [snd].
  - destruct (removed_spec tree p h Hinv Hs)
      as (Hinv' & Hmb & q0 & Hsk0 & Hadd & Hcnt).
    split; [|exact Hmb].
    destruct (distinct_adds q0 _ _ Hadd (wf_keys_distinct _ (proj1 Hinv)))
      as (_ & Hother).
    assert (Hin : exists q, In q m /\ same_key q p).
    { apply (models_stored m tree p Hm). congruence. }
    destruct Hin as (qm & Hqm & Hskm).
    unfold models. split; [exact Hinv'|]. split; [apply distinct_filter; exact Hd|].
    split.
    + intros x. split.
      * intros (q & Hq & Hsk). apply filter_other_in in Hq. destruct Hq as [Hq Hnp].
        destruct (proj1 (Hset x) (ex_intro _ q (conj Hq Hsk))) as (q' & Hq' & Hsk').
        apply (adds_in _ _ _ Hadd) in Hq'. destruct Hq' as [->|Hq'].
        -- exfalso. apply Hnp.
           apply same_key_trans with x; [exact Hsk|].
           apply same_key_trans with q0; [apply same_key_sym; exact Hsk' | exact Hsk0].
        -- exists q'. auto.
      * intros (q' & Hq' & Hsk').
        destruct (proj2 (Hset x)
                    (ex_intro _ q' (conj (adds_sub _ _ _ Hadd q' Hq') Hsk')))
          as (q & Hq & Hsk).
        exists q. split; [|exact Hsk]. apply filter_other_in. split; [exact Hq|].
        intros Hqp. apply (Hother q' Hq').
        apply same_key_trans with x; [exact Hsk'|].
        apply same_key_trans with q; [apply same_key_sym; exact Hsk|].
        apply same_key_trans with p; [exact Hqp | apply same_key_sym; exact Hsk0].
    + pose proof (filter_other_one m p qm Hd Hqm Hskm) as H1.
      pose proof (adds_length _ _ _ Hadd) as H2. lia.
  - split; [|reflexivity].
    assert (Hnone : forall q, In q m -> ~ same_key q p).
    { intros q Hq Hsk.
      assert (H : patricia_search_exact tree p <> None).
      { apply (models_stored m tree p Hm). exists q. auto. }
      contradiction. }
    rewrite (filter_other_all m p Hnone). exact Hm.
Qed.

Lemma models_step (m : list prefix_t) (tree : patricia_tree_t) (o : pytricia_op) :
  models m tree -> op_defined (maxbits tree) o = true ->
  models (model_op m o) (apply_op tree o) /\
  maxbits (apply_op tree o) = maxbits tree.
Proof.
  destruct o as [key value | key];
    [apply models_assign | apply models_delete].
Qed.

Lemma models_run (ops : list pytricia_op) :
  forall m tree,
    models m tree ->
    forallb (op_defined (maxbits tree)) ops = true ->
    models (fold_left model_op ops m) (run_ops tree ops) /\
    maxbits (run_ops tree ops) = maxbits tree.
Proof.
  induction ops as [|o ops IH]; intros m tree Hm Hops; [split; [exact Hm | reflexivity]|].
  cbn [forallb] in Hops. apply Bool.andb_true_iff in Hops.
  destruct Hops as [Ho Hops].
  destruct (models_step m tree o Hm Ho) as (Hm' & Hmb).
  cbn [fold_left]. unfold run_ops. cbn [fold_left].
  rewrite <- Hmb in Hops.
  destruct (IH _ _ Hm' Hops) as (H1 & H2).
  split; [exact H1|]. unfold run_ops in H2. rewrite H2. exact Hmb.
Qed.

(* ================================================================= *)
(** * Part XIV.  The key codec                                        *)
(* ================================================================= *)

Lemma byte_text_ok_all (b : Z) : (0 <= b < 256)%Z -> byte_text_ok b = true.
Proof.
  intros Hb.
  assert (Hall : forallb byte_text_ok (map Z.of_nat (seq 0 256)) = true)
    by (vm_compute; reflexivity).
  rewrite forallb_forall in Hall. apply Hall.
  rewrite <- (Z2Nat.id b) by lia. apply in_map. apply in_seq. lia.
Qed.

Lemma digit_of_10_digit (c : ascii) :
  isdigit c = true ->
  digit_of 10 c = Some (Z.of_nat (nat_of_ascii c) - 48)%Z.
Proof.
  destruct c as [[] [] [] [] [] [] [] []]; vm_compute; intros H;
    first [reflexivity | discriminate].
Qed.

Lemma digit_of_10_other (c : ascii) :
  isdigit c = false -> digit_of 10 c = None.
Proof.
  destruct c as [[] [] [] [] [] [] [] []]; vm_compute; intros H;
    first [reflexivity | discriminate].
Qed.

Lemma strtoul0_decimal (c : ascii) (s : string) :
  c <> "0"%char -> strtoul0 (String c s) = strto_digits 10 0 (String c s).
Proof.
  intros Hc.
  destruct c as [[] [] [] [] [] [] [] []]; try reflexivity.
  exfalso. apply Hc. reflexivity.
Qed.

Lemma strto_digits_app (ds : string) :
  forall acc rest,
    all_digits ds = true -> ends_number rest ->
    strto_digits 10 acc (ds ++ rest) = (fst (strto_digits 10 acc ds), rest).
Proof.
  induction ds as [|c ds IH]; intros acc rest Hd Hrest.
  - cbn [append strto_digits fst]. destruct rest as [|c r]; [reflexivity|].
    cbn [strto_digits]. cbn in Hrest. rewrite (digit_of_10_other c Hrest).
    reflexivity.
  - cbn [all_digits] in Hd. apply Bool.andb_true_iff in Hd. destruct Hd as [Hc Hd].
    cbn [append strto_digits]. rewrite (digit_of_10_digit c Hc).
    apply IH; assumption.
Qed.

(** Reading back the text of a byte, whatever follows it in a dotted
    quad. *)
Lemma strtoul0_byte_text (b : Z) (rest : string) :
  (0 <= b < 256)%Z ->
  rest = EmptyString \/ (exists r, rest = String "." r) ->
  exists c s', string_of_Z b = String c s' /\ isdigit c = true /\
               strtoul0 (string_of_Z b ++ rest) = (b, rest).
Proof.
  intros Hb Hrest. pose proof (byte_text_ok_all b Hb) as Hok.
  unfold byte_text_ok in Hok.
  destruct (string_of_Z b) as [|c s'] eqn:Hs; [discriminate|].
  apply Bool.andb_true_iff in Hok. destruct Hok as [Hok Hval].
  apply Bool.andb_true_iff in Hok. destruct Hok as [Hok Hzero].
  apply Bool.andb_true_iff in Hok. destruct Hok as [Hok Hlen].
  apply Bool.andb_true_iff in Hok. destruct Hok as [Hc Hds].
  exists c, s'. split; [reflexivity|]. split; [exact Hc|].
  assert (Hend : ends_number rest).
  { destruct Hrest as [->|(r & ->)]; [exact I | reflexivity]. }
  apply Z.eqb_eq in Hval.
  destruct (Ascii.eqb c "0") eqn:Hc0.
  - apply Ascii.eqb_eq in Hc0. subst c.
    destruct s' as [|c1 s1]; [|discriminate].
    cbn in Hval. subst b. cbn [append].
    destruct Hrest as [->|(r & ->)]; [reflexivity|].
    destruct r as [|h r']; reflexivity.
  - apply Ascii.eqb_neq in Hc0.
    change (String c s' ++ rest)%string with (String c (s' ++ rest)).
    rewrite (strtoul0_decimal c (s' ++ rest) Hc0).
    change (String c (s' ++ rest)) with (String c s' ++ rest)%string.
    rewrite strto_digits_app; [rewrite Hval; reflexivity| |exact Hend].
    cbn [all_digits]. rewrite Hc. exact Hds.
Qed.

Lemma byte_text_length (b : Z) :
  (0 <= b < 256)%Z ->
  1 <= String.length (string_of_Z b) <= 3 /\
  has_char "/" (string_of_Z b) = false.
Proof.
  intros Hb.
  assert (Hall : forallb (fun b => let s := string_of_Z b in
                            (1 <=? String.length s) && (String.length s <=? 3)
                            && negb (has_char "/" s))
                         (map Z.of_nat (seq 0 256)) = true)
    by (vm_compute; reflexivity).
  rewrite forallb_forall in Hall.
  specialize (Hall b). cbv zeta in Hall.
  assert (Hin : In b (map Z.of_nat (seq 0 256))).
  { rewrite <- (Z2Nat.id b) by lia. apply in_map. apply in_seq. lia. }
  specialize (Hall Hin).
  apply Bool.andb_true_iff in Hall. destruct Hall as [Hall H3].
  apply Bool.andb_true_iff in Hall. destruct Hall as [H1 H2].
  apply Nat.leb_le in H1. apply Nat.leb_le in H2.
  apply Bool.negb_true_iff in H3. auto.
Qed.

Lemma inet_aton_loop_dot (n : nat) (b : Z) (R : string) (bytes : list Z) :
  (0 <= b < 256)%Z -> List.length bytes <= 2 ->
  inet_aton_loop (S n) (string_of_Z b ++ String "." R) bytes =
  inet_aton_loop n R (bytes ++ [b]).
Proof.
  intros Hb Hlen.
  destruct (strtoul0_byte_text b (String "." R) Hb
              (or_intror (ex_intro _ R eq_refl))) as (c & s' & Hs & Hc & Hv).
  rewrite Hs in *. cbn [append] in *. cbn [inet_aton_loop]. rewrite Hc, Hv.
  assert (E1 : (4294967295 <? b)%Z = false) by (apply Z.ltb_ge; lia).
  assert (E2 : (255 <? b)%Z = false) by (apply Z.ltb_ge; lia).
  assert (E3 : (2 <? List.length bytes) = false) by (apply Nat.ltb_ge; lia).
  rewrite E1, E2, E3. reflexivity.
Qed.

Lemma inet_aton_loop_last (n : nat) (b : Z) (bytes : list Z) :
  (0 <= b < 256)%Z ->
  inet_aton_loop n (string_of_Z b) bytes = Some (aton_merge bytes b).
Proof.
  intros Hb.
  destruct (strtoul0_byte_text b EmptyString Hb (or_introl eq_refl))
    as (c & s' & Hs & Hc & Hv).
  assert (Happ : forall s, (s ++ EmptyString)%string = s).
  { induction s as [|a s IH]; [reflexivity|]. cbn [append]. rewrite IH. reflexivity. }
  rewrite Happ in Hv. rewrite Hs in *.
  destruct n; cbn [inet_aton_loop]; rewrite Hc, Hv;
    assert (E1 : (4294967295 <? b)%Z = false) by (apply Z.ltb_ge; lia);
    rewrite E1;
    assert (E2 : (aton_max (List.length bytes) <? b)%Z = false)
      by (apply Z.ltb_ge;
          destruct (List.length bytes) as [|[|[|k]]]; cbn [aton_max]; lia);
    rewrite E2; reflexivity.
Qed.

Lemma inet_aton_dotted_quad (b0 b1 b2 b3 : Z) :
  (0 <= b0 < 256)%Z -> (0 <= b1 < 256)%Z ->
  (0 <= b2 < 256)%Z -> (0 <= b3 < 256)%Z ->
  inet_aton (dotted_quad [b0; b1; b2; b3]) = Some [b0; b1; b2; b3].
Proof.
  intros H0 H1 H2 H3. unfold inet_aton, dotted_quad. cbn [nth].
  change (String.append "." ?x) with (String "." x).
  cbn [append].
  rewrite inet_aton_loop_dot by (auto; simpl; lia).
  rewrite inet_aton_loop_dot by (auto; simpl; lia).
  rewrite inet_aton_loop_dot by (auto; simpl; lia).
  rewrite inet_aton_loop_last by auto.
  unfold aton_merge, be_bytes4. cbn [List.length app Nat.sub repeat combine map fst snd].
  rewrite (Z.div_small b3 16777216), (Z.div_small b3 65536),
    (Z.div_small b3 256) by lia.
  rewrite (Z.mod_small b3 256) by lia.
  change (0 mod 256)%Z with 0%Z.
  rewrite !Z.lor_0_r, Z.lor_0_l. reflexivity.
Qed.

Lemma string_length_app (a b : string) :
  String.length (a ++ b) = String.length a + String.length b.
Proof. induction a as [|c a IH]; [reflexivity|]. cbn. rewrite IH. reflexivity. Qed.

Lemma has_char_app (c : ascii) (a b : string) :
  has_char c (a ++ b) = has_char c a || has_char c b.
Proof.
  induction a as [|x a IH]; [reflexivity|].
  cbn [append has_char]. rewrite IH, Bool.orb_assoc. reflexivity.
Qed.

Lemma strchr_app (c : ascii) (a b : string) :
  has_char c a = false -> strchr (a ++ String c b) c = Some (a, b).
Proof.
  induction a as [|x a IH]; intros H.
  - cbn [append strchr]. rewrite Ascii.eqb_refl. reflexivity.
  - cbn [has_char] in H. apply Bool.orb_false_iff in H. destruct H as [Hx Ha].
    cbn [append strchr]. rewrite Hx, (IH Ha). reflexivity.
Qed.

Lemma strchr_none (c : ascii) (s : string) :
  strchr s c = None <-> has_char c s = false.
Proof.
  induction s as [|x s IH]; [split; reflexivity|].
  cbn [strchr has_char]. destruct (Ascii.eqb x c); cbn [orb].
  - split; discriminate.
  - rewrite <- IH. destruct (strchr s c) as [[a b]|]; split; congruence.
Qed.

Lemma string_take_app (a b : string) :
  string_take (String.length a) (a ++ b) = a.
Proof. induction a as [|c a IH]; [destruct b; reflexivity|]. cbn. rewrite IH. reflexivity. Qed.



Lemma le_bytes4_range (v : Z) :
  exists b0 b1 b2 b3,
    le_bytes4 v = [b0; b1; b2; b3] /\
    (0 <= b0 < 256)%Z /\ (0 <= b1 < 256)%Z /\
    (0 <= b2 < 256)%Z /\ (0 <= b3 < 256)%Z.
Proof.
  unfold le_bytes4. do 4 eexists. split; [reflexivity|].
  repeat split; apply Z.mod_pos_bound; lia.
Qed.

Lemma dotted_quad_text (b0 b1 b2 b3 : Z) :
  (0 <= b0 < 256)%Z -> (0 <= b1 < 256)%Z ->
  (0 <= b2 < 256)%Z -> (0 <= b3 < 256)%Z ->
  String.length (dotted_quad [b0; b1; b2; b3]) <= 15 /\
  has_char "/" (dotted_quad [b0; b1; b2; b3]) = false.
Proof.
  intros H0 H1 H2 H3. unfold dotted_quad. cbn [nth].
  destruct (byte_text_length b0 H0) as (L0 & C0).
  destruct (byte_text_length b1 H1) as (L1 & C1).
  destruct (byte_text_length b2 H2) as (L2 & C2).
  destruct (byte_text_length b3 H3) as (L3 & C3).
  rewrite !string_length_app, !has_char_app, C0, C1, C2, C3.
  split; [cbn [String.length]; lia | reflexivity].
Qed.

(** An integer key is rendered as a dotted quad with "/32" appended and
    parses back to those four bytes with length 32; the outcome is clean
    unless [PyLong_AsLong] left OverflowError set. *)
Lemma integer_key_codec (key : PyObject) :
  (exists v, key = PyLong v) \/ (exists b, key = PyBool b) ->
  let bytes := le_bytes4 (htonl (PyLong_AsLong key)) in
  convert_key_to_cstring key = (0%Z, (dotted_quad bytes ++ "/32")%string) /\
  key_to_prefix key =
  match convert_key_error key with
  | None => KeyOk (mk_prefix AF_INET 32 bytes)
  | Some _ => KeyErrSet (mk_prefix AF_INET 32 bytes)
  end.
Proof.
  intros Hkey bytes.
  destruct (le_bytes4_range (htonl (PyLong_AsLong key)))
    as (b0 & b1 & b2 & b3 & Hbytes & H0 & H1 & H2 & H3).
  fold bytes in Hbytes.
  destruct (dotted_quad_text b0 b1 b2 b3 H0 H1 H2 H3) as (Hlen & Hslash).
  assert (Hconv : convert_key_to_cstring key =
                  (0%Z, (dotted_quad bytes ++ "/32")%string)).
  { assert (Hntop : inet_ntop_with_prefix bytes ADDRSTRLEN =
                    Some (dotted_quad bytes ++ "/32")%string).
    { unfold inet_ntop_with_prefix, inet_ntop. rewrite Hbytes.
      assert (E : (String.length (dotted_quad [b0; b1; b2; b3]) <? ADDRSTRLEN) = true)
        by (apply Nat.ltb_lt; unfold ADDRSTRLEN; lia).
      rewrite E. reflexivity. }
    destruct Hkey as [(v & ->)|(b & ->)];
      cbn [convert_key_to_cstring]; fold bytes; rewrite Hntop; reflexivity. }
  split; [exact Hconv|].
  unfold key_to_prefix. rewrite Hconv. cbn [Z.ltb Z.compare].
  assert (Hterm : keystr_terminated (dotted_quad bytes ++ "/32") = true).
  { unfold keystr_terminated, ADDRSTRLEN. apply Nat.ltb_lt.
    rewrite Hbytes, string_length_app. cbn [String.length]. lia. }
  rewrite Hterm. cbn [negb].
  unfold pystr_to_prefix, parse_cidr. rewrite Hbytes.
  rewrite (strchr_app "/" _ "32" Hslash).
  assert (E : (String.length (dotted_quad [b0; b1; b2; b3]) <? 32) = true)
    by (apply Nat.ltb_lt; lia).
  rewrite E, string_take_app, (inet_aton_dotted_quad b0 b1 b2 b3 H0 H1 H2 H3).
  destruct (convert_key_error key); reflexivity.
Qed.



(* ================================================================= *)
(** * Part XV.  The claims                                            *)
(* ================================================================= *)

Lemma reachable_fresh : reachable fresh_tree.
Proof. apply (reachable_init []). reflexivity. Qed.

Lemma reachable_step (tree : patricia_tree_t) (key : PyObject)
      (value : option PyObject) :
  reachable tree -> reachable (snd (pytricia_assign_subscript tree key value)).
Proof.
  intros H.
  apply (reachable_assign tree key value
           (fst (pytricia_assign_subscript tree key value)) _ H).
  apply surjective_pairing.
Qed.

Lemma reachable_scenario : reachable scenario_tree.
Proof.
  unfold scenario_tree, scenario_b, scenario_a.
  repeat apply reachable_step. apply reachable_fresh.
Qed.

Lemma reachable_run_ops (ops : list pytricia_op) :
  forall tree, reachable tree -> reachable (run_ops tree ops).
Proof.
  induction ops as [|o ops IH]; intros tree H; [exact H|].
  unfold run_ops. cbn [fold_left]. apply IH.
  destruct o as [key value|key]; cbn [apply_op].
  - apply reachable_step. exact H.
  - apply (reachable_step tree key None H).
Qed.

Lemma data_ok_node_at (t : patricia_node_t) :
  forall h q, data_ok t -> prefix_of (node_at t h) = Some q ->
  exists v, data_of (node_at t h) = Some v.
Proof.
  induction t as [|bit pfx dat l IHl r IHr]; intros h q Hok Hq.
  - rewrite node_at_NULL in Hq. discriminate.
  - cbn [data_ok] in Hok. destruct Hok as (Hpd & Hl & Hr).
    destruct h as [|[|] h']; cbn [node_at] in *.
    + cbn [prefix_of data_of] in *. destruct dat as [v|]; [exists v; reflexivity|].
      exfalso. rewrite (proj2 Hpd eq_refl) in Hq. discriminate.
    + apply (IHr h' q Hr Hq).
    + apply (IHl h' q Hl Hq).
Qed.

(** C1.  With 10.0.0.0/8 -> "A", 10.1.0.0/16 -> "B" and 10.1.1.0/24 ->
    "C" inserted into a fresh tree, subscript access returns "C" for
    10.1.1.5/32, "B" for 10.1.2.5/32, "A" for 10.2.0.0/32 and raises
    KeyError for 11.0.0.0/32; after 10.1.0.0/16 is deleted, 10.1.2.5/32
    gives "A". *)
Theorem C1_longest_prefix_scenario :
  pytricia_init [] = (Return tt, fresh_tree) /\
  fst (pytricia_assign_subscript fresh_tree (str "10.0.0.0/8") (Some (str "A")))
    = Return tt /\
  fst (pytricia_assign_subscript scenario_a (str "10.1.0.0/16") (Some (str "B")))
    = Return tt /\
  fst (pytricia_assign_subscript scenario_b (str "10.1.1.0/24") (Some (str "C")))
    = Return tt /\
  pytricia_subscript scenario_tree (str "10.1.1.5/32") = Return (str "C") /\
  pytricia_subscript scenario_tree (str "10.1.2.5/32") = Return (str "B") /\
  pytricia_subscript scenario_tree (str "10.2.0.0/32") = Return (str "A") /\
  pytricia_subscript scenario_tree (str "11.0.0.0/32")
    = Raise KeyError "Prefix not found." /\
  fst (pytricia_delitem scenario_tree [str "10.1.0.0/16"]) = Return PyNone /\
  pytricia_subscript scenario_after_delete (str "10.1.2.5/32") = Return (str "A").
Proof. vm_compute. repeat split; reflexivity. Qed.

(** C2.  On every tree a program can hold, [len()] returns the number
    of real nodes, and that number is the count the engine keeps up to
    date on insert and remove.  For every sequence of defined
    assignments and deletions on a newly constructed tree it is the
    number of distinct (bits, bitlen) pairs inserted and not deleted
    since.  ([pytricia_length] obtains the number by a walk over the
    nodes; no tree a program can hold tells the walk from the
    counter.) *)
Theorem C2_len_counts_stored_pairs :
  (forall tree : patricia_tree_t,
      reachable tree ->
      pytricia_length tree = Return (num_active_node tree) /\
      num_active_node tree = List.length (real_nodes (head tree))) /\
  (forall (args : list PyObject) (tree0 : patricia_tree_t)
          (ops : list pytricia_op),
      pytricia_init args = (Return tt, tree0) ->
      forallb (op_defined (maxbits tree0)) ops = true ->
      let tree := run_ops tree0 ops in
      pytricia_length tree = Return (List.length (model_ops ops)) /\
      List.length (real_nodes (head tree)) = List.length (model_ops ops) /\
      num_active_node tree = List.length (model_ops ops) /\
      distinct (model_ops ops) /\
      (forall p, stored tree p <->
                 exists q, In q (model_ops ops) /\ same_key q p)).
Proof.
  split.
  - intros tree Hr. pose proof (reachable_inv tree Hr) as Hinv.
    rewrite (pytricia_length_keys tree Hinv), real_nodes_length.
    destruct Hinv as (_ & _ & Hcnt & _). rewrite Hcnt. split; reflexivity.
  - intros args tree0 ops Hinit Hops tree.
    destruct (pytricia_init_tree args tree0 Hinit) as (mb & Ht0 & _).
    subst tree0.
    destruct (models_run ops [] (New_Patricia mb) (models_New mb) Hops)
      as ((Hinv & Hd & Hset & Hlen) & _).
    fold tree in Hinv, Hlen, Hset. fold (model_ops ops) in Hlen, Hd, Hset.
    split; [rewrite (pytricia_length_keys tree Hinv); rewrite Hlen; reflexivity|].
    split; [rewrite real_nodes_length; symmetry; exact Hlen|].
    split; [destruct Hinv as (_ & _ & Hcnt & _); rewrite Hcnt; symmetry; exact Hlen|].
    split; [exact Hd|].
    intros p; symmetry; apply Hset.
Qed.

(** C2 on an example: four assignments, one of them a second
    assignment to 10.0.0.0/8, and two deletions, one of a missing key,
    leave two entries. *)
Lemma C2_witness :
  reachable scenario_tree /\
  pytricia_length scenario_tree = Return (num_active_node scenario_tree) /\
  pytricia_init [] = (Return tt, fresh_tree) /\
  pytricia_length
    (run_ops fresh_tree
       [OpAssign (str "10.0.0.0/8") (str "A");
        OpAssign (str "10.1.0.0/16") (str "B");
        OpAssign (PyLong 167772160) (str "C");
        OpAssign (str "10.0.0.0/8") (str "D");
        OpDelete (str "10.1.0.0/16");
        OpDelete (str "10.9.0.0/16")])
  = Return 2.
Proof.
  split; [exact reachable_scenario|].
  split; [exact (proj1 (proj1 C2_len_counts_stored_pairs scenario_tree
                          reachable_scenario))|].
  split; [reflexivity|].
  exact (proj1 (proj2 C2_len_counts_stored_pairs [] fresh_tree
                  [OpAssign (str "10.0.0.0/8") (str "A");
                   OpAssign (str "10.1.0.0/16") (str "B");
                   OpAssign (PyLong 167772160) (str "C");
                   OpAssign (str "10.0.0.0/8") (str "D");
                   OpDelete (str "10.1.0.0/16");
                   OpDelete (str "10.9.0.0/16")] eq_refl eq_refl)).
Defined.

Lemma iterate_texts (n : nat) (t : patricia_node_t) :
  map (fun x => Return (node_text x)) (firstn n (real_nodes t)) =
  map (fun q => Return (prefix_toa2x q)) (firstn n (keys t)).
Proof.
  rewrite <- !firstn_map.
  rewrite <- (map_map node_text (@Return string)).
  rewrite <- (map_map prefix_toa2x (@Return string)).
  rewrite real_nodes_keys. reflexivity.
Qed.

(** C3.  On every reachable tree (and on any tree whose pending right
    subtrees fit the iterator's stack) a fresh iterator returns the text
    of each real node once, in pre-order, and of real nodes only; from
    then on every call raises StopIteration.  The first [n] calls give
    the first [n] stored prefixes followed by StopIteration for the
    rest. *)
Theorem C3_iterator_yields_each_real_node_once :
  forall (tree : patricia_tree_t) (n : nat),
    reachable tree \/ stack_need (head tree) <= XSTACK_SLOTS ->
    iterate_next n (pytricia_iter tree) =
    map (fun q => Return (prefix_toa2x q)) (firstn n (keys (head tree)))
    ++ repeat StopIteration_raised (n - List.length (keys (head tree))).
Proof.
  intros tree n Hr.
  assert (Hfit : stack_need (head tree) <= XSTACK_SLOTS).
  { destruct Hr as [Hr|Hfit]; [|exact Hfit].
    apply tree_inv_stack. apply reachable_inv. exact Hr. }
  rewrite iterate_next_spec.
  - unfold pytricia_iter. cbn [m_Xrn m_Xsp]. unfold walk_list.
    cbn [flat_map]. rewrite app_nil_r, iterate_texts, real_nodes_length.
    reflexivity.
  - unfold pytricia_iter. cbn [m_Xrn m_Xsp]. apply walk_inv_start.
    exact Hfit.
Qed.

(** C3 on the example tree: three prefixes, then StopIteration twice. *)
Lemma C3_witness :
  reachable scenario_tree /\
  iterate_next 5 (pytricia_iter scenario_tree) =
  [Return "10.0.0.0/8"%string; Return "10.1.0.0/16"%string;
   Return "10.1.1.0/24"%string; StopIteration_raised; StopIteration_raised].
Proof.
  split; [exact reachable_scenario|].
  rewrite (C3_iterator_yields_each_real_node_once scenario_tree 5
             (or_introl reachable_scenario)).
  vm_compute. reflexivity.
Defined.

(** C4.  On every reachable tree, assigning to a canonical key whose
    exact pair is already present ([has_key] is true) returns the
    existing node: the tree keeps its shape and its stored prefixes, the
    value at that node is overwritten, and [len()] is unchanged;
    [insert] does the same. *)
Theorem C4_reinsert_overwrites_in_place :
  forall (tree : patricia_tree_t) (key v : PyObject),
    reachable tree ->
    canonical_key key = true ->
    pytricia_has_key tree [key] = Return (PyBool true) ->
    exists p h,
      key_to_prefix key = KeyOk p /\
      engine_defined tree p = true /\
      patricia_search_exact tree p = Some h /\
      pytricia_assign_subscript tree key (Some v) =
      (Return tt, mk_tree (set_data (head tree) h (Some v)) (maxbits tree)
                          (num_active_node tree)) /\
      pytricia_insert tree [key; v] =
      (Return PyNone, mk_tree (set_data (head tree) h (Some v)) (maxbits tree)
                              (num_active_node tree)) /\
      data_of (node_at (set_data (head tree) h (Some v)) h) = Some v /\
      keys (set_data (head tree) h (Some v)) = keys (head tree) /\
      pytricia_length (snd (pytricia_assign_subscript tree key (Some v)))
      = pytricia_length tree.
Proof.
  intros tree key v Hr Hcan Hhas. pose proof (reachable_inv tree Hr) as Hinv.
  rewrite pytricia_has_key_eq in Hhas.
  destruct (key_to_prefix key) as [p| | | |p] eqn:Hk; try discriminate Hhas;
    (destruct (engine_defined tree p) eqn:Hdef; [|discriminate Hhas]);
    [|discriminate Hhas].
  destruct (patricia_search_exact tree p) as [h|] eqn:Hs; [|discriminate].
  exists p, h. split; [reflexivity|]. split; [exact Hdef|]. split; [exact Hs|].
  destruct (assigned_spec tree p v Hinv (proj1 (key_to_prefix_bytes key p Hk)))
    as (Hinv' & _ & [(h' & Hs' & Heq) | (Hs' & _)]); [|congruence].
  assert (h' = h) by congruence. subst h'.
  assert (Hassign : pytricia_assign_subscript tree key (Some v) =
                    (Return tt, mk_tree (set_data (head tree) h (Some v))
                                        (maxbits tree) (num_active_node tree))).
  { rewrite (pytricia_assign_ok tree key v p (or_introl Hk) Hcan Hdef), Heq.
    reflexivity. }
  split; [exact Hassign|].
  split.
  { cbn [pytricia_insert]. rewrite Hassign, (key_ok_no_error key p Hk).
    reflexivity. }
  split.
  { unfold patricia_search_exact in Hs.
    destruct (search_exact_sound p _ (proj1 Hinv) h Hs) as (q & Hq & _ & _).
    clear -Hq. revert h Hq. induction (head tree) as [|bit pfx dat l IHl r IHr];
      intros h Hq.
    - rewrite node_at_NULL in Hq. discriminate.
    - destruct h as [|[|] h']; cbn [set_data node_at] in *;
        [reflexivity | apply IHr; exact Hq | apply IHl; exact Hq]. }
  split; [apply set_data_keys|].
  rewrite Hassign. cbn [snd]. rewrite <- Heq in *.
  rewrite (pytricia_length_keys _ Hinv'), (pytricia_length_keys _ Hinv).
  rewrite Heq. cbn [head]. rewrite set_data_keys. reflexivity.
Qed.

(** C4 on the example tree: 10.1.0.0/16 is assigned a second time. *)
Lemma C4_witness :
  reachable scenario_tree /\
  canonical_key (str "10.1.0.0/16") = true /\
  pytricia_has_key scenario_tree [str "10.1.0.0/16"] = Return (PyBool true) /\
  exists p h,
    key_to_prefix (str "10.1.0.0/16") = KeyOk p /\
    engine_defined scenario_tree p = true /\
    patricia_search_exact scenario_tree p = Some h /\
    pytricia_assign_subscript scenario_tree (str "10.1.0.0/16") (Some (str "Z")) =
    (Return tt, mk_tree (set_data (head scenario_tree) h (Some (str "Z")))
                        (maxbits scenario_tree) (num_active_node scenario_tree)) /\
    pytricia_insert scenario_tree [str "10.1.0.0/16"; str "Z"] =
    (Return PyNone, mk_tree (set_data (head scenario_tree) h (Some (str "Z")))
                            (maxbits scenario_tree) (num_active_node scenario_tree)) /\
    data_of (node_at (set_data (head scenario_tree) h (Some (str "Z"))) h)
    = Some (str "Z") /\
    keys (set_data (head scenario_tree) h (Some (str "Z"))) = keys (head scenario_tree) /\
    pytricia_length
      (snd (pytricia_assign_subscript scenario_tree (str "10.1.0.0/16") (Some (str "Z"))))
    = pytricia_length scenario_tree.
Proof.
  split; [exact reachable_scenario|].
  split; [vm_compute; reflexivity|].
  split; [vm_compute; reflexivity|].
  apply (C4_reinsert_overwrites_in_place scenario_tree (str "10.1.0.0/16") (str "Z")
           reachable_scenario); vm_compute; reflexivity.
Defined.

(** C5.  Deleting a key starts with an exact-match lookup.  On every
    reachable tree, for a key that parses cleanly to a prefix inside
    the engine's domain: when no node stores the key's exact (address,
    length) pair, [delete] (and [del t[key]]) raises KeyError and leaves
    the tree as it was. *)
Theorem C5_delete_missing_key_raises :
  forall (tree : patricia_tree_t) (key : PyObject) (p : prefix_t),
    reachable tree ->
    key_to_prefix key = KeyOk p ->
    engine_defined tree p = true ->
    ~ stored tree p ->
    patricia_search_exact tree p = None /\
    pytricia_delitem tree [key] = (Raise KeyError "Prefix doesn't exist.", tree) /\
    pytricia_internal_delete tree key
      = (Raise KeyError "Prefix doesn't exist.", tree) /\
    pytricia_assign_subscript tree key None
      = (Raise KeyError "Prefix doesn't exist.", tree).
Proof.
  intros tree key p Hr Hk Hdef Hno. pose proof (reachable_inv tree Hr) as Hinv.
  assert (Hs : patricia_search_exact tree p = None).
  { destruct (patricia_search_exact tree p) as [h|] eqn:E; [|reflexivity].
    exfalso. apply Hno. apply (search_exact_stored tree p (proj1 Hinv)).
    congruence. }
  assert (Hdel : pytricia_internal_delete tree key =
                 (Raise KeyError "Prefix doesn't exist.", tree)).
  { rewrite pytricia_internal_delete_eq, Hk, Hdef, Hs. reflexivity. }
  split; [exact Hs|]. split; [|split; [exact Hdel | exact Hdel]].
  cbn [pytricia_delitem]. rewrite Hdel. reflexivity.
Qed.

(** C5 on the example tree: 10.1.0.0/17 is covered but not stored. *)
Lemma C5_witness :
  reachable scenario_tree /\
  key_to_prefix (str "10.1.0.0/17") = KeyOk (mk_prefix AF_INET 17 [10; 1; 0; 0]%Z) /\
  engine_defined scenario_tree (mk_prefix AF_INET 17 [10; 1; 0; 0]%Z) = true /\
  pytricia_delitem scenario_tree [str "10.1.0.0/17"]
  = (Raise KeyError "Prefix doesn't exist.", scenario_tree).
Proof.
  split; [exact reachable_scenario|].
  split; [vm_compute; reflexivity|].
  split; [vm_compute; reflexivity|].
  refine (proj1 (proj2 (C5_delete_missing_key_raises
                          scenario_tree (str "10.1.0.0/17")
                          (mk_prefix AF_INET 17 [10; 1; 0; 0]%Z)
                          reachable_scenario _ _ _))).
  - vm_compute. reflexivity.
  - vm_compute. reflexivity.
  - intros (q & Hin & Hsk). apply same_keyb_true in Hsk.
    vm_compute in Hin.
    destruct Hin as [<-|[<-|[<-|[]]]]; vm_compute in Hsk; discriminate Hsk.
Defined.

(** C6.  On every reachable tree, for a key that parses cleanly to a
    prefix inside the engine's domain: [has_key] is true exactly when
    the key's exact pair is stored; the [in] operator is true exactly
    when some stored prefix covers the key; so [has_key] true implies
    [in] true.  The converse fails: 10.1.2.5 is in the example tree and
    is not one of its keys. *)
Theorem C6_has_key_exact_contains_best :
  forall (tree : patricia_tree_t) (key : PyObject) (p : prefix_t),
    reachable tree ->
    key_to_prefix key = KeyOk p ->
    engine_defined tree p = true ->
    (pytricia_has_key tree [key] = Return (PyBool true) <-> stored tree p) /\
    (pytricia_has_key tree [key] = Return (PyBool false) <-> ~ stored tree p) /\
    (pytricia_contains tree key = Return true <-> covered tree p) /\
    (pytricia_contains tree key = Return false <-> ~ covered tree p) /\
    (pytricia_has_key tree [key] = Return (PyBool true) ->
     pytricia_contains tree key = Return true) /\
    (exists tree' key',
        reachable tree' /\
        pytricia_contains tree' key' = Return true /\
        pytricia_has_key tree' [key'] = Return (PyBool false)).
Proof.
  intros tree key p Hr Hk Hdef. pose proof (reachable_inv tree Hr) as (Hwf & _).
  pose proof (search_exact_stored tree p Hwf) as Hex.
  pose proof (search_best_covered tree p Hwf) as Hbest.
  rewrite pytricia_has_key_eq, pytricia_contains_eq, Hk, Hdef.
  assert (H1 : match patricia_search_exact tree p with
               | Some _ => Return (PyBool true)
               | None => Return (PyBool false)
               end = Return (PyBool true) <-> stored tree p).
  { rewrite <- Hex. destruct (patricia_search_exact tree p); split; intros H;
      try reflexivity; try discriminate; try congruence. }
  assert (H2 : match patricia_search_best tree p with
               | Some _ => Return true
               | None => Return false
               end = Return true <-> covered tree p).
  { rewrite <- Hbest. destruct (patricia_search_best tree p); split; intros H;
      try reflexivity; try discriminate; try congruence. }
  split; [exact H1|]. split; [|split; [exact H2|split; [|split]]].
  - rewrite <- H1. destruct (patricia_search_exact tree p); split; intros H;
      try reflexivity; try discriminate; try congruence;
      exfalso; apply H; reflexivity.
  - rewrite <- H2. destruct (patricia_search_best tree p); split; intros H;
      try reflexivity; try discriminate; try congruence;
      exfalso; apply H; reflexivity.
  - intros Hhas. apply H2. apply H1 in Hhas. destruct Hhas as (q & Hin & Hsk).
    exists q. split; [exact Hin | apply same_key_covers; exact Hsk].
  - exists scenario_tree, (str "10.1.2.5").
    split; [exact reachable_scenario|]. split; vm_compute; reflexivity.
Qed.

(** C6 on the example tree, for the stored key 10.1.0.0/16. *)
Lemma C6_witness :
  reachable scenario_tree /\
  key_to_prefix (str "10.1.0.0/16") = KeyOk (mk_prefix AF_INET 16 [10; 1; 0; 0]%Z) /\
  engine_defined scenario_tree (mk_prefix AF_INET 16 [10; 1; 0; 0]%Z) = true /\
  (pytricia_has_key scenario_tree [str "10.1.0.0/16"] = Return (PyBool true)
   <-> stored scenario_tree (mk_prefix AF_INET 16 [10; 1; 0; 0]%Z)).
Proof.
  split; [exact reachable_scenario|].
  split; [vm_compute; reflexivity|].
  split; [vm_compute; reflexivity|].
  refine (proj1 (C6_has_key_exact_contains_best
                   scenario_tree (str "10.1.0.0/16")
                   (mk_prefix AF_INET 16 [10; 1; 0; 0]%Z)
                   reachable_scenario _ _)); vm_compute; reflexivity.
Defined.


(** C8.  The constructor takes an optional maximum bit length, 32 when
    omitted; a value in [0, 128] is accepted and becomes the tree's
    [maxbits]; any other value raises ValueError. *)
Theorem C8_maxbits_validated :
  pytricia_init [] = (Return tt, New_Patricia 32) /\
  forall v : Z,
    match fst (pytricia_init [PyLong v]) with
    | Return _ =>
        (0 <= v <= 128)%Z /\ snd (pytricia_init [PyLong v]) = New_Patricia v
    | Raise e _ => e = ValueError /\ ~ (0 <= v <= 128)%Z
    | Undefined => False
    end.
Proof.
  split; [reflexivity|]. intros v.
  unfold pytricia_init, parse_optional_int, INT_MIN, INT_MAX, PATRICIA_MAXBITS.
  destruct ((-2147483648 <=? v)%Z && (v <=? 2147483647)%Z) eqn:Hint.
  - destruct ((v <? 0)%Z || (128 <? v)%Z) eqn:Hrange; cbn [fst snd].
    + split; [reflexivity|]. apply Bool.orb_true_iff in Hrange.
      destruct Hrange as [H|H]; apply Z.ltb_lt in H; lia.
    + apply Bool.orb_false_iff in Hrange. destruct Hrange as [H1 H2].
      apply Z.ltb_ge in H1. apply Z.ltb_ge in H2. split; [lia | reflexivity].
  - cbn [fst]. split; [reflexivity|].
    apply Bool.andb_false_iff in Hint. destruct Hint as [H|H];
      apply Z.leb_gt in H; lia.
Qed.



(** C10.  On every reachable tree, for a key that parses cleanly to a
    prefix inside the engine's domain: when no stored prefix covers the
    key, [get(key)] returns None and [get(key, default)] returns the
    default, while subscript access raises KeyError; when some stored
    prefix covers it, all three return the value of the longest
    covering prefix. *)
Theorem C10_get_default_on_absence :
  forall (tree : patricia_tree_t) (key d : PyObject) (p : prefix_t),
    reachable tree ->
    key_to_prefix key = KeyOk p ->
    engine_defined tree p = true ->
    (~ covered tree p ->
     pytricia_get tree [key] = Return PyNone /\
     pytricia_get tree [key; d] = Return d /\
     pytricia_subscript tree key = Raise KeyError "Prefix not found.") /\
    (covered tree p ->
     exists h q v,
       patricia_search_best tree p = Some h /\
       prefix_of (node_at (head tree) h) = Some q /\
       data_of (node_at (head tree) h) = Some v /\
       In q (keys (head tree)) /\ covers q p /\
       (forall q', In q' (keys (head tree)) -> covers q' p ->
                   bitlen q' <= bitlen q) /\
       pytricia_get tree [key] = Return v /\
       pytricia_get tree [key; d] = Return v /\
       pytricia_subscript tree key = Return v).
Proof.
  intros tree key d p Hr Hk Hdef.
  pose proof (reachable_inv tree Hr) as (Hwf & Hdat & _).
  pose proof (search_best_covered tree p Hwf) as Hbest.
  pose proof (pytricia_get_eq tree key None) as Hg1.
  pose proof (pytricia_get_eq tree key (Some d)) as Hg2.
  cbn [app] in Hg1, Hg2.
  rewrite Hg1, Hg2, pytricia_subscript_eq, Hk, Hdef.
  split.
  - intros Hno.
    destruct (patricia_search_best tree p) as [h|] eqn:Hs.
    + exfalso. apply Hno. apply Hbest. discriminate.
    + repeat split; reflexivity.
  - intros Hcov. apply Hbest in Hcov.
    destruct (patricia_search_best tree p) as [h|] eqn:Hs; [|contradiction].
    rewrite patricia_search_best_below in Hs.
    destruct (best_below_sound p _ Hwf h Hs) as (q & Hq & Hin & Hc).
    destruct (data_ok_node_at _ h q Hdat Hq) as (v & Hv).
    exists h, q, v. rewrite Hv.
    split; [reflexivity|]. split; [exact Hq|]. split; [reflexivity|].
    split; [exact Hin|]. split; [exact Hc|].
    split; [apply (best_below_longest p _ Hwf h q Hs Hq)|].
    repeat split; reflexivity.
Qed.

(** C10 on the example tree, for 11.0.0.0/32, which nothing covers. *)
Lemma C10_witness :
  reachable scenario_tree /\
  key_to_prefix (str "11.0.0.0/32")
  = KeyOk (mk_prefix AF_INET 32 [11; 0; 0; 0]%Z) /\
  engine_defined scenario_tree (mk_prefix AF_INET 32 [11; 0; 0; 0]%Z) = true /\
  pytricia_get scenario_tree [str "11.0.0.0/32"] = Return PyNone /\
  pytricia_get scenario_tree [str "11.0.0.0/32"; PyLong 7] = Return (PyLong 7) /\
  pytricia_subscript scenario_tree (str "11.0.0.0/32")
  = Raise KeyError "Prefix not found.".
Proof.
  split; [exact reachable_scenario|].
  split; [vm_compute; reflexivity|].
  split; [vm_compute; reflexivity|].
  refine (proj1 (C10_get_default_on_absence
                   scenario_tree (str "11.0.0.0/32") (PyLong 7)
                   (mk_prefix AF_INET 32 [11; 0; 0; 0]%Z)
                   reachable_scenario _ _) _).
  - vm_compute. reflexivity.
  - vm_compute. reflexivity.
  - intros (q & Hin & Hbl & Hag). vm_compute in Hin.
    destruct Hin as [<-|[<-|[<-|[]]]];
      specialize (Hag 7); cbn [bitlen add_sin] in Hag;
      specialize (Hag ltac:(lia)); vm_compute in Hag; discriminate Hag.
Defined.

(** On a reachable tree no read of a defined key runs into undefined
    behaviour: the value slot of a node found is never NULL and the walk
    stays inside its stack. *)
Lemma reachable_defined (tree : patricia_tree_t) (key d : PyObject) :
  reachable tree ->
  key_defined tree key = true ->
  pytricia_subscript tree key <> Undefined /\
  pytricia_get tree [key] <> Undefined /\
  pytricia_get tree [key; d] <> Undefined /\
  pytricia_length tree <> Undefined /\
  pytricia_keys tree <> Undefined.
Proof.
  intros Hr Hkd. pose proof (reachable_inv tree Hr) as Hinv.
  pose proof Hinv as (Hwf & Hdat & _).
  pose proof (pytricia_get_eq tree key None) as Hg1.
  pose proof (pytricia_get_eq tree key (Some d)) as Hg2.
  cbn [app] in Hg1, Hg2.
  rewrite Hg1, Hg2, pytricia_subscript_eq, (pytricia_length_keys tree Hinv).
  unfold pytricia_keys.
  rewrite (PATRICIA_WALK_correct _ (tree_inv_stack _ Hinv)).
  assert (Hfound : forall p h, patricia_search_best tree p = Some h ->
                     exists v, data_of (node_at (head tree) h) = Some v).
  { intros p h Hs. rewrite patricia_search_best_below in Hs.
    destruct (best_below_sound p _ Hwf h Hs) as (q & Hq & _ & _).
    apply (data_ok_node_at _ h q Hdat Hq). }
  unfold key_defined in Hkd.
  destruct (key_to_prefix key) as [p| | | |p]; try discriminate Hkd;
    try (repeat split; discriminate).
  rewrite Hkd.
  destruct (patricia_search_best tree p) as [h|] eqn:Hs.
  - destruct (Hfound p h Hs) as (v & Hv). rewrite Hv.
    repeat split; discriminate.
  - repeat split; discriminate.
Qed.

(* ================================================================= *)
(** * Part XVI.  Further properties of the facade                     *)
(* ================================================================= *)

Lemma fits_stack (tree : patricia_tree_t) :
  reachable tree \/ stack_need (head tree) <= XSTACK_SLOTS ->
  stack_need (head tree) <= XSTACK_SLOTS.
Proof.
  intros [Hr|Hfit]; [|exact Hfit].
  apply tree_inv_stack. apply reachable_inv. exact Hr.
Qed.

Lemma keys_texts_of_real_nodes (t : patricia_node_t) :
  flat_map (fun n => match prefix_of n with
                     | Some q => [prefix_toa2x q]
                     | None => []
                     end) (real_nodes t)
  = map prefix_toa2x (keys t).
Proof.
  induction t as [|bit pfx dat l IHl r IHr]; [reflexivity|].
  cbn [real_nodes keys]. rewrite !flat_map_app, !map_app, IHl, IHr.
  destruct pfx as [q|]; reflexivity.
Qed.

(** X1.  [keys()], [len()] and iteration agree: on every reachable tree (and
    on any tree whose walk fits the stack) [keys()] returns a list,
    [len()] is its length, and a fresh iterator returns exactly that
    list, in that order, before it raises StopIteration. *)
Theorem keys_len_iteration_agree :
  forall (tree : patricia_tree_t) (n : nat),
    reachable tree \/ stack_need (head tree) <= XSTACK_SLOTS ->
    exists texts,
      pytricia_keys tree = Return texts /\
      pytricia_length tree = Return (List.length texts) /\
      iterate_next (List.length texts + n) (pytricia_iter tree)
      = map (@Return string) texts ++ repeat StopIteration_raised n.
Proof.
  intros tree n Hr. pose proof (fits_stack tree Hr) as Hfit.
  exists (map prefix_toa2x (keys (head tree))).
  unfold pytricia_keys, pytricia_length.
  rewrite (PATRICIA_WALK_correct _ Hfit), keys_texts_of_real_nodes.
  split; [reflexivity|].
  split; [rewrite real_nodes_length, length_map; reflexivity|].
  rewrite iterate_next_spec
    by (unfold pytricia_iter; cbn [m_Xrn m_Xsp]; apply walk_inv_start; exact Hfit).
  unfold pytricia_iter. cbn [m_Xrn m_Xsp]. unfold walk_list.
  cbn [flat_map]. rewrite app_nil_r, iterate_texts, real_nodes_length, length_map.
  rewrite firstn_all2 by lia.
  rewrite map_map.
  replace (List.length (keys (head tree)) + n - List.length (keys (head tree)))
    with n by lia.
  reflexivity.
Qed.

(** The example tree: three texts, then StopIteration. *)
Lemma keys_len_iteration_agree_witness :
  reachable scenario_tree /\
  exists texts,
    pytricia_keys scenario_tree = Return texts /\
    pytricia_length scenario_tree = Return (List.length texts) /\
    iterate_next (List.length texts + 1) (pytricia_iter scenario_tree)
    = map (@Return string) texts ++ repeat StopIteration_raised 1.
Proof.
  split; [exact reachable_scenario|].
  exact (keys_len_iteration_agree scenario_tree 1 (or_introl reachable_scenario)).
Defined.


(** X3.  [get] and [in] follow subscript access.  For every tree and
    every key on which reading is defined (the codec rejects it, or it
    parses cleanly to a prefix inside the engine's domain): [get(key,
    d)] is [t[key]] with KeyError replaced by [d] (by None without a
    default), and [key in t] is false exactly where [t[key]] raises
    KeyError; a ValueError is passed on by all three. *)
Theorem get_and_in_follow_subscript :
  forall (tree : patricia_tree_t) (key d : PyObject),
    key_defined tree key = true ->
    pytricia_get tree [key; d] =
    match pytricia_subscript tree key with
    | Raise KeyError _ => Return d
    | r => r
    end /\
    pytricia_get tree [key] =
    match pytricia_subscript tree key with
    | Raise KeyError _ => Return PyNone
    | r => r
    end /\
    pytricia_contains tree key =
    match pytricia_subscript tree key with
    | Raise KeyError _ => Return false
    | Raise e msg => Raise e msg
    | _ => Return true
    end.
Proof.
  intros tree key d Hkd.
  pose proof (pytricia_get_eq tree key None) as Hg1.
  pose proof (pytricia_get_eq tree key (Some d)) as Hg2.
  cbn [app] in Hg1, Hg2.
  rewrite Hg1, Hg2, pytricia_contains_eq, pytricia_subscript_eq.
  unfold key_defined in Hkd.
  destruct (key_to_prefix key) as [p| | | |p]; try discriminate Hkd;
    try (repeat split; reflexivity).
  rewrite Hkd.
  destruct (patricia_search_best tree p) as [h|]; [|repeat split; reflexivity].
  destruct (data_of (node_at (head tree) h)); repeat split; reflexivity.
Qed.

Lemma get_and_in_follow_subscript_witness :
  key_defined scenario_tree (str "11.0.0.0/32") = true /\
  pytricia_get scenario_tree [str "11.0.0.0/32"; PyLong 7] = Return (PyLong 7).
Proof.
  split; [reflexivity|].
  rewrite (proj1 (get_and_in_follow_subscript scenario_tree (str "11.0.0.0/32")
                    (PyLong 7) eq_refl)).
  reflexivity.
Defined.

(** X4.  [delete] succeeds exactly where [has_key] is true.  For every
    tree and every key on which reading is defined: when
    [has_key(key)] is True, [delete(key)] returns None and the node
    found by the exact search is removed; when it is False,
    [delete(key)] raises KeyError and changes nothing; when [has_key]
    raises (the codec rejects the key), [delete] raises the same error
    and changes nothing. *)
Theorem delete_succeeds_iff_has_key :
  forall (tree : patricia_tree_t) (key : PyObject),
    key_defined tree key = true ->
    match pytricia_has_key tree [key] with
    | Return (PyBool true) =>
        exists node,
          patricia_search_exact_key tree key = Some node /\
          pytricia_delitem tree [key] = (Return PyNone, patricia_remove tree node)
    | Return _ =>
        pytricia_delitem tree [key] = (Raise KeyError "Prefix doesn't exist.", tree)
    | Raise e msg => pytricia_delitem tree [key] = (Raise e msg, tree)
    | Undefined => False
    end.
Proof.
  intros tree key Hkd. unfold patricia_search_exact_key.
  cbn [pytricia_delitem].
  rewrite pytricia_has_key_eq, pytricia_internal_delete_eq.
  unfold key_defined in Hkd.
  destruct (key_to_prefix key) as [p| | | |p] eqn:Hk; try discriminate Hkd;
    try reflexivity.
  rewrite Hkd, (key_ok_no_error key p Hk).
  destruct (patricia_search_exact tree p) as [h|]; [|reflexivity].
  exists h. split; reflexivity.
Qed.

Lemma delete_succeeds_iff_has_key_witness :
  key_defined scenario_tree (str "10.1.0.0/17") = true /\
  pytricia_delitem scenario_tree [str "10.1.0.0/17"]
  = (Raise KeyError "Prefix doesn't exist.", scenario_tree).
Proof.
  split; [reflexivity|].
  exact (delete_succeeds_iff_has_key scenario_tree (str "10.1.0.0/17") eq_refl).
Defined.

(** ** The key codec: integer keys *)

Lemma le_bytes4_htonl (x : Z) :
  le_bytes4 (htonl x) = be_bytes4 (x mod 4294967296).
Proof.
  unfold le_bytes4, htonl, be_bytes4.
  set (v := (x mod 4294967296)%Z).
  assert (Hv : (0 <= v < 4294967296)%Z) by (apply Z.mod_pos_bound; lia).
  clearbody v.
  repeat (f_equal; [Z.div_mod_to_equations; lia|]).
  f_equal. Z.div_mod_to_equations. lia.
Qed.

(** X5.  An integer key that fits a C [long] denotes the address whose four
    bytes are the integer modulo 2^32 in big-endian order, with length
    32: 167772161 is 10.0.0.1/32, and integers that differ by a multiple
    of 2^32 are the same key. *)
Theorem integer_key_is_big_endian_address :
  forall v : Z,
    (LONG_MIN <= v <= LONG_MAX)%Z ->
    key_to_prefix (PyLong v)
    = KeyOk (mk_prefix AF_INET 32 (be_bytes4 (v mod 4294967296))) /\
    snd (convert_key_to_cstring (PyLong v))
    = (dotted_quad (be_bytes4 (v mod 4294967296)) ++ "/32")%string.
Proof.
  intros v Hv.
  destruct (integer_key_codec (PyLong v) (or_introl (ex_intro _ v eq_refl)))
    as (Hc & Hk).
  assert (E : ((LONG_MIN <=? v) && (v <=? LONG_MAX))%Z = true).
  { apply Bool.andb_true_iff. split; apply Z.leb_le; lia. }
  assert (Hlong : PyLong_AsLong (PyLong v) = v)
    by (cbn [PyLong_AsLong]; rewrite E; reflexivity).
  assert (Herr : convert_key_error (PyLong v) = None)
    by (cbn [convert_key_error PyLong_AsLong_error]; rewrite E; reflexivity).
  rewrite Herr in Hk.
  rewrite Hlong, le_bytes4_htonl in Hc, Hk.
  split; [exact Hk|]. rewrite Hc. reflexivity.
Qed.

Lemma integer_key_is_big_endian_address_witness :
  (LONG_MIN <= 4294967296 + 167772161 <= LONG_MAX)%Z /\
  key_to_prefix (PyLong (4294967296 + 167772161))
  = KeyOk (mk_prefix AF_INET 32 [10; 0; 0; 1]%Z).
Proof.
  split; [unfold LONG_MIN, LONG_MAX; lia|].
  refine (proj1 (integer_key_is_big_endian_address (4294967296 + 167772161) _)).
  unfold LONG_MIN, LONG_MAX. lia.
Defined.

(** ** The key codec: what a parsed key looks like *)

Lemma lor_byte (x y : Z) : is_byte x -> is_byte y -> is_byte (Z.lor x y).
Proof.
  unfold is_byte. intros Hx Hy.
  assert (Hall : forallb (fun a => forallb (fun b =>
                    (0 <=? Z.lor a b)%Z && (Z.lor a b <? 256)%Z)
                    (map Z.of_nat (seq 0 256))) (map Z.of_nat (seq 0 256)) = true)
    by (vm_compute; reflexivity).
  assert (Hin : forall b, (0 <= b < 256)%Z -> In b (map Z.of_nat (seq 0 256))).
  { intros b Hb. rewrite <- (Z2Nat.id b) by lia. apply in_map. apply in_seq. lia. }
  rewrite forallb_forall in Hall. specialize (Hall x (Hin x Hx)).
  rewrite forallb_forall in Hall. specialize (Hall y (Hin y Hy)).
  apply Bool.andb_true_iff in Hall. destruct Hall as [H1 H2].
  apply Z.leb_le in H1. apply Z.ltb_lt in H2. lia.
Qed.

Lemma be_bytes4_bytes (v : Z) : Forall is_byte (be_bytes4 v).
Proof.
  unfold be_bytes4, is_byte.
  repeat constructor; apply Z.mod_pos_bound; lia.
Qed.

Lemma aton_merge_bytes (bytes : list Z) (val : Z) :
  Forall is_byte bytes ->
  List.length (aton_merge bytes val) = 4 /\ Forall is_byte (aton_merge bytes val).
Proof.
  intros Hb. unfold aton_merge. split.
  - rewrite length_map, length_combine, length_app, repeat_length.
    cbn [be_bytes4 List.length]. lia.
  - apply Forall_forall. intros x Hx. apply in_map_iff in Hx.
    destruct Hx as ([a b] & <- & Hin). cbn [fst snd].
    apply lor_byte.
    + apply in_combine_l in Hin. apply in_app_or in Hin.
      destruct Hin as [Hin|Hin].
      * rewrite Forall_forall in Hb. apply Hb. exact Hin.
      * apply repeat_spec in Hin. subst a. unfold is_byte. lia.
    + apply in_combine_r in Hin.
      pose proof (be_bytes4_bytes val) as Hbe.
      rewrite Forall_forall in Hbe. apply Hbe. exact Hin.
Qed.

Lemma digit_of_nonneg (base : Z) (c : ascii) (d : Z) :
  digit_of base c = Some d -> (0 <= d)%Z.
Proof.
  unfold digit_of. cbv zeta.
  set (n := Z.of_nat (nat_of_ascii c)).
  destruct ((48 <=? n) && (n <=? 57))%Z eqn:E1.
  - apply Bool.andb_true_iff in E1. destruct E1 as [E1 _]. apply Z.leb_le in E1.
    destruct (n - 48 <? base)%Z; intros E; inversion E; lia.
  - destruct ((97 <=? n) && (n <=? 122))%Z eqn:E2.
    + apply Bool.andb_true_iff in E2. destruct E2 as [E2 _]. apply Z.leb_le in E2.
      destruct (n - 87 <? base)%Z; intros E; inversion E; lia.
    + destruct ((65 <=? n) && (n <=? 90))%Z eqn:E3; [|discriminate].
      apply Bool.andb_true_iff in E3. destruct E3 as [E3 _]. apply Z.leb_le in E3.
      destruct (n - 55 <? base)%Z; intros E; inversion E; lia.
Qed.

Lemma strto_digits_nonneg (base : Z) (s : string) :
  forall acc, (0 <= base)%Z -> (0 <= acc)%Z ->
              (0 <= fst (strto_digits base acc s))%Z.
Proof.
  induction s as [|c s IH]; intros acc Hbase Hacc; [exact Hacc|].
  cbn [strto_digits]. destruct (digit_of base c) as [d|] eqn:Hd; [|exact Hacc].
  apply IH; [exact Hbase|]. pose proof (digit_of_nonneg base c d Hd). nia.
Qed.

Lemma strtoul0_nonneg (s : string) : (0 <= fst (strtoul0 s))%Z.
Proof.
  destruct s as [|c s]; [cbn; lia|].
  destruct c as [[] [] [] [] [] [] [] []];
    try (apply strto_digits_nonneg; lia).
  destruct s as [|x [|h rest]]; try (apply strto_digits_nonneg; lia).
  unfold strtoul0.
  destruct ((x =? "x") || (x =? "X"))%char;
    [|apply strto_digits_nonneg; lia].
  destruct (digit_of 16 h); [apply strto_digits_nonneg; lia | cbn; lia].
Qed.

(** The loop of [inet_aton] with the test for the dot written as a
    comparison. *)
Lemma inet_aton_loop_eq (n : nat) (cp : string) (bytes : list Z) :
  inet_aton_loop n cp bytes =
  match cp with
  | EmptyString => None
  | String c _ =>
      if isdigit c then
        let val := fst (strtoul0 cp) in
        let last :=
          if (aton_max (List.length bytes) <? val)%Z then None
          else Some (aton_merge bytes val) in
        if (0xffffffff <? val)%Z then None
        else match snd (strtoul0 cp) with
             | EmptyString => last
             | String c' rest' =>
                 if (c' =? ".")%char then
                   if (2 <? List.length bytes) || (0xff <? val)%Z then None
                   else match n with
                        | O => None
                        | S n' => inet_aton_loop n' rest' (bytes ++ [val])
                        end
                 else if isspace c' then last else None
             end
      else None
  end.
Proof.
  destruct n; (destruct cp as [|c cp]; [reflexivity|]);
    cbn [inet_aton_loop]; cbv zeta;
    (destruct (isdigit c); [|reflexivity]);
    destruct (strtoul0 (String c cp)) as [val rest]; cbn [fst snd];
    (destruct (4294967295 <? val)%Z; [reflexivity|]);
    (destruct rest as [|c' rest']; [reflexivity|]);
    destruct c' as [[] [] [] [] [] [] [] []]; reflexivity.
Qed.

Lemma inet_aton_loop_bytes (n : nat) :
  forall (cp : string) (bytes res : list Z),
    Forall is_byte bytes ->
    inet_aton_loop n cp bytes = Some res ->
    List.length res = 4 /\ Forall is_byte res.
Proof.
  induction n as [|n IH]; intros cp bytes res Hb; rewrite inet_aton_loop_eq;
    (destruct cp as [|c cp]; [discriminate|]);
    (destruct (isdigit c); [|discriminate]); cbv zeta;
    pose proof (strtoul0_nonneg (String c cp)) as Hval;
    destruct (strtoul0 (String c cp)) as [val rest]; cbn [fst snd] in *;
    (destruct (4294967295 <? val)%Z; [discriminate|]);
    assert (Hlast : (if (aton_max (List.length bytes) <? val)%Z then None
                     else Some (aton_merge bytes val)) = Some res ->
                    List.length res = 4 /\ Forall is_byte res)
      by (destruct (aton_max (List.length bytes) <? val)%Z; [discriminate|];
          intros E; inversion E; apply aton_merge_bytes; exact Hb);
    (destruct rest as [|c' rest']; [exact Hlast|]);
    (destruct (Ascii.eqb c' "."); 
     [|destruct (isspace c'); [exact Hlast|discriminate]]);
    (destruct (2 <? List.length bytes); [discriminate|]); cbn [orb];
    destruct (255 <? val)%Z eqn:E255; try discriminate.
  apply IH. apply Forall_app. split; [exact Hb|].
  constructor; [|constructor]. apply Z.ltb_ge in E255. unfold is_byte. lia.
Qed.

Lemma pystr_to_prefix_wf (keystr : string) (p : prefix_t) :
  pystr_to_prefix keystr = Some p -> prefix_wf p.
Proof.
  unfold pystr_to_prefix, parse_cidr.
  set (sm := match strchr keystr "/" with
             | Some (before, after) =>
                 (string_take (if String.length before <? 32
                               then String.length before else 31) keystr,
                  (atoi after mod 65536)%Z)
             | None => (keystr, 32%Z)
             end).
  assert (Hm : (0 <= snd sm <= 65535)%Z).
  { unfold sm. destruct (strchr keystr "/") as [[before after]|]; cbn [snd]; [|lia].
    pose proof (Z.mod_pos_bound (atoi after) 65536). lia. }
  destruct sm as [s masklen]. cbn [snd] in Hm.
  destruct (inet_aton s) as [addr|] eqn:Ha; [|discriminate].
  intros E. inversion E; subst p. clear E.
  destruct (inet_aton_loop_bytes 4 s [] addr (Forall_nil _) Ha) as (Hlen & Hbytes).
  unfold prefix_wf, make_prefix. cbn [family bitlen add_sin].
  rewrite firstn_all2 by lia.
  repeat split; [rewrite Z2Nat.id; lia | exact Hlen | exact Hbytes].
Qed.

Lemma key_to_prefix_wf (key : PyObject) (p : prefix_t) :
  key_to_prefix key = KeyOk p -> prefix_wf p.
Proof.
  intros Hk. apply (pystr_to_prefix_wf (snd (convert_key_to_cstring key))).
  apply (key_to_prefix_parse key p). left. exact Hk.
Qed.

(** X6.  Every key that parses gives a well-formed IPv4 prefix: four address
    bytes, each between 0 and 255, and a length between 0 and 65535,
    whatever text or integer the key was. *)
Theorem parsed_key_is_well_formed :
  forall (key : PyObject) (p : prefix_t),
    key_to_prefix key = KeyOk p ->
    family p = AF_INET /\ (Z.of_nat (bitlen p) <= 65535)%Z /\
    List.length (add_sin p) = 4 /\
    (forall b, In b (add_sin p) -> (0 <= b < 256)%Z).
Proof.
  intros key p Hk.
  destruct (key_to_prefix_wf key p Hk) as (Hf & Hl & Hn & Hb).
  repeat split; try assumption; rewrite Forall_forall in Hb; apply (Hb b); assumption.
Qed.

Lemma parsed_key_is_well_formed_witness :
  key_to_prefix (str "10.1.1.0/24") = KeyOk (mk_prefix AF_INET 24 [10; 1; 1; 0]%Z) /\
  List.length (add_sin (mk_prefix AF_INET 24 [10; 1; 1; 0]%Z)) = 4.
Proof.
  split; [reflexivity|].
  apply (parsed_key_is_well_formed (str "10.1.1.0/24")). reflexivity.
Defined.

(** ** The key codec: canonical text parses to the prefix it writes *)

Lemma length_text_ok_all (n : Z) :
  (0 <= n <= 65535)%Z -> length_text_ok n = true.
Proof.
  intros Hn.
  assert (Hhi : (0 <= n / 256 < 256)%Z) by (Z.div_mod_to_equations; lia).
  assert (Hlo : (0 <= n mod 256 < 256)%Z) by (Z.div_mod_to_equations; lia).
  assert (Hn' : (256 * (n / 256) + n mod 256 = n)%Z)
    by (symmetry; apply Z.div_mod; lia).
  assert (Hin : forall b, (0 <= b < 256)%Z -> In b (map Z.of_nat (seq 0 256))).
  { intros b Hb. rewrite <- (Z2Nat.id b) by lia. apply in_map. apply in_seq. lia. }
  assert (Hall : forallb (fun hi => forallb (fun lo =>
                    length_text_ok (256 * hi + lo))
                    (map Z.of_nat (seq 0 256))) (map Z.of_nat (seq 0 256)) = true)
    by (vm_compute; reflexivity).
  rewrite forallb_forall in Hall.
  specialize (Hall (n / 256)%Z (Hin _ Hhi)).
  rewrite forallb_forall in Hall.
  specialize (Hall (n mod 256)%Z (Hin _ Hlo)).
  rewrite Hn' in Hall. exact Hall.
Qed.

Lemma byte_text_no_nul (b : Z) :
  is_byte b -> has_char "000" (string_of_Z b) = false.
Proof.
  unfold is_byte. intros Hb.
  assert (Hall : forallb (fun b => negb (has_char "000" (string_of_Z b)))
                         (map Z.of_nat (seq 0 256)) = true)
    by (vm_compute; reflexivity).
  rewrite forallb_forall in Hall. apply Bool.negb_true_iff. apply Hall.
  rewrite <- (Z2Nat.id b) by lia. apply in_map. apply in_seq. lia.
Qed.

Lemma dotted_quad_no_nul (b0 b1 b2 b3 : Z) :
  is_byte b0 -> is_byte b1 -> is_byte b2 -> is_byte b3 ->
  has_char "000" (dotted_quad [b0; b1; b2; b3]) = false.
Proof.
  intros H0 H1 H2 H3. unfold dotted_quad. cbn [nth].
  rewrite !has_char_app, !byte_text_no_nul by assumption. reflexivity.
Qed.

Lemma c_str_id (s : string) : has_char "000" s = false -> c_str s = s.
Proof.
  induction s as [|a s IH]; intros H; [reflexivity|].
  cbn [has_char] in H. apply Bool.orb_false_iff in H. destruct H as [Ha Hs].
  cbn [c_str]. rewrite Ha, (IH Hs). reflexivity.
Qed.

Lemma string_take_all (n : nat) :
  forall s : string, String.length s <= n -> string_take n s = s.
Proof.
  induction n as [|n IH]; intros [|a s] H; try reflexivity.
  - cbn in H. lia.
  - cbn [string_take]. rewrite IH; [reflexivity|]. cbn in H. lia.
Qed.

(** A string key without NUL that fits the buffer reaches the parser
    unchanged. *)
Lemma convert_plain_string (s : string) :
  has_char "000" s = false -> String.length s <= 32 ->
  convert_key_to_cstring (PyUnicode (Some s)) = (0%Z, s).
Proof.
  intros Hn Hl. cbn [convert_key_to_cstring].
  rewrite (c_str_id s Hn), string_take_all by exact Hl. reflexivity.
Qed.

(** A string key without NUL and shorter than the buffer: its outcome is
    that of parsing the text itself. *)
Lemma string_key_parses (s : string) :
  has_char "000" s = false -> String.length s < 32 ->
  key_to_prefix (str s) =
  match pystr_to_prefix s with
  | Some p => KeyOk p
  | None => KeyBadPrefix
  end.
Proof.
  intros Hn Hl. unfold key_to_prefix, str.
  rewrite (convert_plain_string s Hn (Nat.lt_le_incl _ _ Hl)).
  cbn [Z.ltb Z.compare convert_key_error].
  assert (E : keystr_terminated s = true)
    by (apply Nat.ltb_lt; unfold ADDRSTRLEN; exact Hl).
  rewrite E. reflexivity.
Qed.

Lemma canonical_text_codec (b0 b1 b2 b3 n : Z) :
  is_byte b0 -> is_byte b1 -> is_byte b2 -> is_byte b3 ->
  (0 <= n <= 65535)%Z ->
  key_to_prefix (str (dotted_quad [b0; b1; b2; b3] ++ "/" ++ string_of_Z n))
  = KeyOk (mk_prefix AF_INET (Z.to_nat n) [b0; b1; b2; b3]) /\
  key_to_prefix (str (dotted_quad [b0; b1; b2; b3]))
  = KeyOk (mk_prefix AF_INET 32 [b0; b1; b2; b3]).
Proof.
  intros H0 H1 H2 H3 Hn.
  set (dq := dotted_quad [b0; b1; b2; b3]).
  destruct (dotted_quad_text b0 b1 b2 b3 H0 H1 H2 H3) as (Hlen & Hslash).
  pose proof (dotted_quad_no_nul b0 b1 b2 b3 H0 H1 H2 H3) as Hnul.
  pose proof (inet_aton_dotted_quad b0 b1 b2 b3 H0 H1 H2 H3) as Haton.
  fold dq in Hlen, Hslash, Hnul, Haton.
  pose proof (length_text_ok_all n Hn) as Hok. unfold length_text_ok in Hok.
  cbv zeta in Hok.
  apply Bool.andb_true_iff in Hok. destruct Hok as [Hok Hval].
  apply Bool.andb_true_iff in Hok. destruct Hok as [Hl5 Hn0].
  apply Nat.leb_le in Hl5. apply Bool.negb_true_iff in Hn0.
  apply Z.eqb_eq in Hval.
  assert (Hlt : (String.length dq <? 32) = true) by (apply Nat.ltb_lt; lia).
  split.
  - change (dq ++ "/" ++ string_of_Z n)%string
      with (dq ++ String "/" (string_of_Z n))%string.
    rewrite string_key_parses.
    + unfold pystr_to_prefix, parse_cidr.
      rewrite (strchr_app "/" dq (string_of_Z n) Hslash).
      rewrite Hlt, string_take_app, Haton, Hval.
      rewrite Z.mod_small by lia. reflexivity.
    + rewrite has_char_app, Hnul. cbn [has_char orb].
      rewrite Hn0. reflexivity.
    + rewrite string_length_app. cbn [String.length]. lia.
  - rewrite string_key_parses; [|exact Hnul|lia].
    unfold pystr_to_prefix, parse_cidr.
    assert (Hno : strchr dq "/" = None) by (apply strchr_none; exact Hslash).
    rewrite Hno, Haton. reflexivity.
Qed.

(** X7.  Canonical text is accepted and means what it says: for address
    bytes between 0 and 255 and a length between 0 and 65535 (lengths
    above 32 are not rejected), the string key "b0.b1.b2.b3/n" parses to
    exactly those bytes with length n, and the bare address
    "b0.b1.b2.b3" to those bytes with length 32. *)
Theorem canonical_text_parses :
  forall (b0 b1 b2 b3 n : Z),
    (0 <= b0 < 256)%Z -> (0 <= b1 < 256)%Z ->
    (0 <= b2 < 256)%Z -> (0 <= b3 < 256)%Z ->
    (0 <= n <= 65535)%Z ->
    key_to_prefix (str (dotted_quad [b0; b1; b2; b3] ++ "/" ++ string_of_Z n))
    = KeyOk (mk_prefix AF_INET (Z.to_nat n) [b0; b1; b2; b3]) /\
    key_to_prefix (str (dotted_quad [b0; b1; b2; b3]))
    = KeyOk (mk_prefix AF_INET 32 [b0; b1; b2; b3]).
Proof.
  intros b0 b1 b2 b3 n H0 H1 H2 H3 Hn.
  apply canonical_text_codec; assumption.
Qed.

Lemma canonical_text_parses_witness :
  key_to_prefix (str "192.168.0.1/40")
  = KeyOk (mk_prefix AF_INET 40 [192; 168; 0; 1]%Z).
Proof.
  refine (proj1 (canonical_text_parses 192 168 0 1 40 _ _ _ _ _)); lia.
Defined.

(** ** The key codec: a mask that is no number *)

Lemma atoi_without_number (after : string) :
  starts_without_number after = true -> atoi after = 0%Z.
Proof.
  destruct after as [|c r]; [reflexivity|].
  destruct c as [[] [] [] [] [] [] [] []]; intros H;
    first [discriminate H | reflexivity].
Qed.

(** X8.  The mask is never validated: when the text after the slash does not
    start with a number (it is empty, or starts with a letter or a
    punctuation mark), [atoi] reads 0 and the key is accepted with
    length 0, a prefix that covers every address. *)
Theorem mask_without_number_is_length_0 :
  forall (before after : string) (addr : list Z),
    inet_aton before = Some addr ->
    has_char "/" before = false ->
    has_char "000" (before ++ "/" ++ after) = false ->
    String.length (before ++ "/" ++ after) < 32 ->
    starts_without_number after = true ->
    key_to_prefix (str (before ++ "/" ++ after))
    = KeyOk (mk_prefix AF_INET 0 addr).
Proof.
  intros before after addr Haton Hslash Hnul Hlen Hnum.
  change (before ++ "/" ++ after)%string
    with (before ++ String "/" after)%string in *.
  rewrite (string_key_parses _ Hnul Hlen).
  unfold pystr_to_prefix, parse_cidr.
  rewrite (strchr_app "/" before after Hslash).
  rewrite string_length_app in Hlen. cbn [String.length] in Hlen.
  assert (Hlt : (String.length before <? 32) = true) by (apply Nat.ltb_lt; lia).
  rewrite Hlt, string_take_app, Haton, (atoi_without_number after Hnum).
  destruct (inet_aton_loop_bytes 4 before [] addr (Forall_nil _) Haton) as (Hl4 & _).
  unfold make_prefix. rewrite firstn_all2 by lia. reflexivity.
Qed.

Lemma mask_without_number_is_length_0_witness :
  key_to_prefix (str "10.0.0.0/x24")
  = KeyOk (mk_prefix AF_INET 0 [10; 0; 0; 0]%Z).
Proof.
  apply (mask_without_number_is_length_0 "10.0.0.0" "x24" [10; 0; 0; 0]%Z);
    first [reflexivity | cbn; lia].
Defined.

(** ** The key codec: the key buffer *)

Lemma c_str_app_nul (s t : string) :
  has_char "000" s = false -> c_str (s ++ String "000" t) = s.
Proof.
  induction s as [|a s IH]; intros H; [reflexivity|].
  cbn [has_char] in H. apply Bool.orb_false_iff in H. destruct H as [Ha Hs].
  cbn [append c_str]. rewrite Ha, (IH Hs). reflexivity.
Qed.

(** X9.  A string key ends at its first NUL: [strncpy] copies nothing past
    it.  For every text [s] without NUL and shorter than the key buffer
    and every [t], the key [s] followed by NUL and [t] leaves the same
    key buffer as the key [s] and has the same outcome in every keyed
    operation. *)
Theorem embedded_nul_ends_key :
  forall (s t : string),
    has_char "000" s = false ->
    String.length s < 32 ->
    convert_key_to_cstring (str (s ++ String "000" t)) = (0%Z, s) /\
    convert_key_to_cstring (str s) = (0%Z, s) /\
    key_to_prefix (str (s ++ String "000" t)) = key_to_prefix (str s).
Proof.
  intros s t Hs Hl.
  assert (E1 : convert_key_to_cstring (str s) = (0%Z, s))
    by (apply convert_plain_string; [exact Hs | lia]).
  assert (E2 : convert_key_to_cstring (str (s ++ String "000" t)) = (0%Z, s)).
  { rewrite <- E1. unfold str. cbn [convert_key_to_cstring].
    rewrite (c_str_app_nul s t Hs), (c_str_id s Hs). reflexivity. }
  split; [exact E2|]. split; [exact E1|].
  unfold key_to_prefix. rewrite E1, E2. reflexivity.
Qed.

Lemma embedded_nul_ends_key_witness :
  key_to_prefix (str ("10.0.0.0/8" ++ String "000" "/24"))
  = key_to_prefix (str "10.0.0.0/8").
Proof.
  apply (proj2 (proj2 (embedded_nul_ends_key "10.0.0.0/8" "/24" eq_refl
                         ltac:(cbn; lia)))).
Defined.

(** ** Handles and stored prefixes *)

Lemma node_at_in_keys (t : patricia_node_t) :
  forall h q, prefix_of (node_at t h) = Some q -> In q (keys t).
Proof.
  induction t as [|bit pfx dat l IHl r IHr]; intros h q H.
  - rewrite node_at_NULL in H. discriminate H.
  - destruct h as [|d h].
    + cbn in H. apply keys_Node_in. left. exact H.
    + cbn [node_at] in H. apply keys_Node_in. right.
      destruct d; [right; apply (IHr h) | left; apply (IHl h)]; exact H.
Qed.

(** In a well-formed trie a (bits, bitlen) pair sits at one node only. *)
Lemma wf_handle_unique (t : patricia_node_t) :
  wf_node t ->
  forall h1 h2 q1 q2,
    prefix_of (node_at t h1) = Some q1 ->
    prefix_of (node_at t h2) = Some q2 ->
    same_key q1 q2 -> h1 = h2.
Proof.
  induction t as [|bit pfx dat l IHl r IHr]; intros Hwf h1 h2 q1 q2 H1 H2 Hsk.
  - rewrite node_at_NULL in H1. discriminate H1.
  - wf_split Hwf.
    assert (Hdeep : forall (d : bool) h q,
               prefix_of (node_at (if d then r else l) h) = Some q ->
               bit < bitlen q /\ BIT_TEST (add_sin q) bit = d).
    { intros d h q Hq. pose proof (node_at_in_keys _ _ _ Hq) as Hin.
      destruct d.
      - pose proof (keys_bitlen_ge _ Hwr _ Hin).
        specialize (Hbr (keys_not_NULL _ _ Hin)). split; [lia|]. apply Hkr. exact Hin.
      - pose proof (keys_bitlen_ge _ Hwl _ Hin).
        specialize (Hbl (keys_not_NULL _ _ Hin)). split; [lia|]. apply Hkl. exact Hin. }
    destruct h1 as [|d1 h1], h2 as [|d2 h2]; cbn [node_at] in H1, H2.
    + reflexivity.
    + cbn in H1. pose proof (Hlen q1 H1) as E1.
      destruct (Hdeep d2 h2 q2 H2) as (L2 & _). destruct Hsk as [Hb _]. lia.
    + cbn in H2. pose proof (Hlen q2 H2) as E2.
      destruct (Hdeep d1 h1 q1 H1) as (L1 & _). destruct Hsk as [Hb _]. lia.
    + destruct (Hdeep d1 h1 q1 H1) as (L1 & B1).
      destruct (Hdeep d2 h2 q2 H2) as (L2 & B2).
      pose proof (same_key_bit q1 q2 bit Hsk L2) as E.
      rewrite B1, B2 in E. clear B1 B2. subst d2. f_equal.
      destruct d1; [apply (IHr Hwr h1 h2 q1 q2) | apply (IHl Hwl h1 h2 q1 q2)];
        assumption.
Qed.

Lemma set_data_node_at_prefix (t : patricia_node_t) :
  forall h h' v,
    prefix_of (node_at (set_data t h v) h') = prefix_of (node_at t h').
Proof.
  induction t as [|bit pfx dat l IHl r IHr]; intros h h' v; [reflexivity|].
  destruct h as [|[] h]; cbn [set_data]; destruct h' as [|[] h'];
    cbn [node_at prefix_of]; auto.
Qed.

Lemma set_data_node_at_data (t : patricia_node_t) :
  forall h v, node_at t h <> NULL -> data_of (node_at (set_data t h v) h) = v.
Proof.
  induction t as [|bit pfx dat l IHl r IHr]; intros h v Hn.
  - rewrite node_at_NULL in Hn. contradiction.
  - destruct h as [|[] h]; cbn [set_data node_at data_of] in *; auto.
Qed.

(** After [t[key] = v] both searches for the key's prefix end at the
    node that holds [v]. *)
Lemma assigned_found (tree : patricia_tree_t) (p : prefix_t) (v : PyObject) :
  tree_inv tree -> List.length (add_sin p) <= 4 ->
  exists h,
    patricia_search_best (assigned tree p v) p = Some h /\
    data_of (node_at (head (assigned tree p v)) h) = Some v /\
    patricia_search_exact (assigned tree p v) p <> None.
Proof.
  intros Hinv Hp.
  destruct (assigned_spec tree p v Hinv Hp) as ((Hwf' & _) & _).
  destruct Hinv as (Hwf & _).
  destruct (patricia_lookup_ok tree p Hwf) as (t' & h & c & Hlk & Hok).
  destruct Hok as (Hwt' & Hnn' & Hnew & Hold).
  unfold assigned in *. rewrite Hlk in *. cbn [fst snd head] in *.
  assert (Hq0 : exists q0, prefix_of (node_at t' h) = Some q0 /\ same_key q0 p).
  { destruct c.
    - destruct (Hnew eq_refl) as (_ & _ & Hh). exists p. split; [exact Hh|].
      apply same_key_refl.
    - destruct (Hold eq_refl) as (-> & _ & q0 & Hq0 & _ & Hsk). exists q0. auto. }
  destruct Hq0 as (q0 & Hq0 & Hsk0).
  assert (Hq0' : prefix_of (node_at (set_data t' h (Some v)) h) = Some q0)
    by (rewrite set_data_node_at_prefix; exact Hq0).
  pose proof (node_at_in_keys _ _ _ Hq0') as Hin0.
  exists h. split; [|split].
  - rewrite patricia_search_best_below. cbn [head].
    destruct (best_below p (set_data t' h (Some v))) as [hb|] eqn:Hb.
    + destruct (best_below_sound p _ Hwf' hb Hb) as (q & Hq & Hin & Hcov).
      pose proof (best_below_longest p _ Hwf' hb q Hb Hq q0 Hin0
                    (same_key_covers q0 p Hsk0)) as Hlong.
      assert (Hsk : same_key q q0).
      { destruct Hcov as [Hle Hag]. destruct Hsk0 as [Hb0 Hag0].
        assert (Hbq : bitlen q = bitlen p) by lia.
        split; [lia|]. intros i Hi. rewrite Hag by lia.
        symmetry. apply Hag0. lia. }
      f_equal. apply (wf_handle_unique _ Hwf' hb h q q0 Hq Hq0' Hsk).
    + exfalso. apply (best_below_complete p _ Hwf' q0 Hin0
                        (same_key_covers q0 p Hsk0)). exact Hb.
  - apply set_data_node_at_data. intros E. rewrite E in Hq0. discriminate Hq0.
  - apply search_exact_stored; [exact Hwf'|]. exists q0. split; assumption.
Qed.

(** ** Assignment followed by a lookup *)

(** X11.  Read after write.  The engine behind the facade is modelled from
    the specification.  On every reachable tree, for a canonical key
    that parses cleanly to a prefix inside the engine's domain:
    [t[key] = v] and [insert (key, v)] succeed, and the tree they leave
    answers [v] to [t[key]], [get (key)] and [get (key, d)], and true to
    [has_key (key)] and [key in t]: no longer prefix can shadow the one
    just written. *)
Theorem assigned_value_is_read_back :
  forall (tree : patricia_tree_t) (key v d : PyObject) (p : prefix_t),
    reachable tree ->
    key_to_prefix key = KeyOk p ->
    canonical_key key = true ->
    engine_defined tree p = true ->
    let tree' := snd (pytricia_assign_subscript tree key (Some v)) in
    fst (pytricia_assign_subscript tree key (Some v)) = Return tt /\
    pytricia_insert tree [key; v] = (Return PyNone, tree') /\
    pytricia_subscript tree' key = Return v /\
    pytricia_get tree' [key] = Return v /\
    pytricia_get tree' [key; d] = Return v /\
    pytricia_has_key tree' [key] = Return (PyBool true) /\
    pytricia_contains tree' key = Return true.
Proof.
  intros tree key v d p Hr Hk Hcan Hdef tree'.
  pose proof (pytricia_assign_ok tree key v p (or_introl Hk) Hcan Hdef) as Ha.
  unfold tree'. clear tree'.
  split; [rewrite Ha; reflexivity|].
  split.
  { cbn [pytricia_insert]. rewrite Ha, (key_ok_no_error key p Hk). reflexivity. }
  rewrite Ha. cbn [snd].
  pose proof (reachable_inv tree Hr) as Hinv.
  pose proof (proj1 (key_to_prefix_bytes key p Hk)) as Hp.
  destruct (assigned_found tree p v Hinv Hp) as (h & Hb & Hd & He).
  destruct (assigned_spec tree p v Hinv Hp) as (_ & Hmb & _).
  assert (Hdef' : engine_defined (assigned tree p v) p = true)
    by (unfold engine_defined in *; rewrite Hmb; exact Hdef).
  rewrite pytricia_subscript_eq, (pytricia_get_eq _ key None),
    (pytricia_get_eq _ key (Some d)), pytricia_has_key_eq, pytricia_contains_eq.
  rewrite Hk, Hdef', Hb, Hd.
  destruct (patricia_search_exact (assigned tree p v) p); [|contradiction].
  repeat split; reflexivity.
Qed.

Lemma assigned_value_is_read_back_witness :
  pytricia_subscript
    (snd (pytricia_assign_subscript scenario_tree (str "10.1.1.0/25")
            (Some (str "D"))))
    (str "10.1.1.0/25") = Return (str "D").
Proof.
  apply (assigned_value_is_read_back scenario_tree (str "10.1.1.0/25")
           (str "D") PyNone (mk_prefix AF_INET 25 [10; 1; 1; 0]%Z)
           reachable_scenario); reflexivity.
Defined.

(** ** One assignment or deletion changes one key *)

Lemma assigned_stored (tree : patricia_tree_t) (p : prefix_t) (v : PyObject) :
  tree_inv tree -> List.length (add_sin p) <= 4 ->
  forall p', stored (assigned tree p v) p' <-> stored tree p' \/ same_key p p'.
Proof.
  intros Hinv Hp p'.
  destruct (assigned_spec tree p v Hinv Hp)
    as (_ & _ & [(h & Hs & Heq) | (Hs & Hadd & _)]).
  - rewrite Heq. unfold stored. cbn [head]. rewrite set_data_keys.
    split; [auto|]. intros [H|Hsk]; [exact H|].
    assert (Hst : stored tree p).
    { apply (search_exact_stored tree p (proj1 Hinv)). congruence. }
    destruct Hst as (q & Hq & Hqp). exists q. split; [exact Hq|].
    apply same_key_trans with p; assumption.
  - unfold stored. split.
    + intros (q & Hq & Hsk). apply (adds_in _ _ _ Hadd) in Hq.
      destruct Hq as [->|Hq]; [right; exact Hsk | left; exists q; auto].
    + intros [(q & Hq & Hsk)|Hsk].
      * exists q. split; [apply (adds_sub _ _ _ Hadd); exact Hq | exact Hsk].
      * exists p. split; [apply (adds_in _ _ _ Hadd); auto | exact Hsk].
Qed.

Lemma removed_stored (tree : patricia_tree_t) (p : prefix_t) (h : node_ref) :
  tree_inv tree -> patricia_search_exact tree p = Some h ->
  forall p', stored (patricia_remove tree h) p' <->
             stored tree p' /\ ~ same_key p p'.
Proof.
  intros Hinv Hs p'.
  destruct (removed_spec tree p h Hinv Hs) as (_ & _ & q0 & Hsk0 & Hadd & _).
  destruct (distinct_adds q0 _ _ Hadd (wf_keys_distinct _ (proj1 Hinv)))
    as (_ & Hother).
  unfold stored. split.
  - intros (q & Hq & Hsk). split.
    + exists q. split; [apply (adds_sub _ _ _ Hadd); exact Hq | exact Hsk].
    + intros Hpp'. apply (Hother q Hq).
      apply same_key_trans with p'; [exact Hsk|].
      apply same_key_trans with p; apply same_key_sym; assumption.
  - intros ((q & Hq & Hsk) & Hnot). apply (adds_in _ _ _ Hadd) in Hq.
    destruct Hq as [->|Hq]; [|exists q; auto].
    exfalso. apply Hnot.
    apply same_key_trans with q0; [apply same_key_sym; exact Hsk0 | exact Hsk].
Qed.

Lemma has_key_stored (tree : patricia_tree_t) (key : PyObject) (p : prefix_t) :
  wf_node (head tree) -> key_to_prefix key = KeyOk p ->
  engine_defined tree p = true ->
  pytricia_has_key tree [key]
  = Return (PyBool (match patricia_search_exact tree p with
                    | Some _ => true
                    | None => false
                    end)) /\
  (patricia_search_exact tree p <> None <-> stored tree p).
Proof.
  intros Hwf Hk Hdef. rewrite pytricia_has_key_eq, Hk, Hdef.
  split; [destruct (patricia_search_exact tree p); reflexivity|].
  apply search_exact_stored. exact Hwf.
Qed.

Lemma has_key_same (tree tree' : patricia_tree_t) (key : PyObject) (p : prefix_t) :
  wf_node (head tree) -> wf_node (head tree') ->
  key_to_prefix key = KeyOk p ->
  engine_defined tree p = true -> engine_defined tree' p = true ->
  (stored tree' p <-> stored tree p) ->
  pytricia_has_key tree' [key] = pytricia_has_key tree [key].
Proof.
  intros Hwf Hwf' Hk Hdef Hdef' Hiff.
  destruct (has_key_stored tree key p Hwf Hk Hdef) as (E & S).
  destruct (has_key_stored tree' key p Hwf' Hk Hdef') as (E' & S').
  rewrite E, E'.
  destruct (patricia_search_exact tree p) as [h|],
           (patricia_search_exact tree' p) as [h'|]; try reflexivity; exfalso.
  - assert (H : stored tree' p) by (apply Hiff, S; discriminate).
    apply S' in H. apply H. reflexivity.
  - assert (H : stored tree p) by (apply Hiff, S'; discriminate).
    apply S in H. apply H. reflexivity.
Qed.

(** X12.  One assignment touches one key.  The engine behind the facade is
    modelled from the specification.  On every reachable tree, after
    [t[key] = v] for a canonical key that parses cleanly to a prefix
    inside the engine's domain, [len()] is one more than before when
    [has_key (key)] was false and the same when it was true, and
    [has_key] answers as before for every key that parses cleanly to
    another (bits, bitlen) pair inside the engine's domain. *)
Theorem assignment_touches_one_key :
  forall (tree : patricia_tree_t) (key v : PyObject) (p : prefix_t),
    reachable tree ->
    key_to_prefix key = KeyOk p ->
    canonical_key key = true ->
    engine_defined tree p = true ->
    let tree' := snd (pytricia_assign_subscript tree key (Some v)) in
    (exists n,
        pytricia_length tree = Return n /\
        pytricia_length tree'
        = Return (match pytricia_has_key tree [key] with
                  | Return (PyBool true) => n
                  | _ => S n
                  end)) /\
    (forall (key' : PyObject) (p' : prefix_t),
        key_to_prefix key' = KeyOk p' ->
        engine_defined tree p' = true ->
        ~ same_key p p' ->
        pytricia_has_key tree' [key'] = pytricia_has_key tree [key']).
Proof.
  intros tree key v p Hr Hk Hcan Hdef tree'.
  pose proof (reachable_inv tree Hr) as Hinv.
  pose proof (proj1 (key_to_prefix_bytes key p Hk)) as Hp.
  assert (Ht : tree' = assigned tree p v).
  { unfold tree'.
    rewrite (pytricia_assign_ok tree key v p (or_introl Hk) Hcan Hdef).
    reflexivity. }
  rewrite Ht. clear Ht tree'.
  destruct (assigned_spec tree p v Hinv Hp) as (Hinv' & Hmb & Hcases).
  split.
  - exists (List.length (keys (head tree))).
    rewrite (pytricia_length_keys tree Hinv), (pytricia_length_keys _ Hinv').
    split; [reflexivity|]. rewrite pytricia_has_key_eq, Hk, Hdef.
    destruct Hcases as [(h & Hs & Heq) | (Hs & Hadd & _)]; rewrite Hs.
    + rewrite Heq. cbn [head]. rewrite set_data_keys. reflexivity.
    + rewrite (adds_length _ _ _ Hadd). reflexivity.
  - intros key' p' Hk' Hdef' Hnot.
    apply (has_key_same tree (assigned tree p v) key' p'
             (proj1 Hinv) (proj1 Hinv') Hk' Hdef').
    + unfold engine_defined in *. rewrite Hmb. exact Hdef'.
    + rewrite (assigned_stored tree p v Hinv Hp p'). tauto.
Qed.

Lemma assignment_touches_one_key_witness :
  pytricia_has_key
    (snd (pytricia_assign_subscript scenario_tree (str "10.1.1.0/25")
            (Some (str "D"))))
    [str "10.1.1.0/24"]
  = pytricia_has_key scenario_tree [str "10.1.1.0/24"].
Proof.
  apply (proj2 (assignment_touches_one_key scenario_tree (str "10.1.1.0/25")
                  (str "D") (mk_prefix AF_INET 25 [10; 1; 1; 0]%Z)
                  reachable_scenario eq_refl eq_refl eq_refl)
           (str "10.1.1.0/24") (mk_prefix AF_INET 24 [10; 1; 1; 0]%Z)
           eq_refl eq_refl).
  intros [H _]. discriminate H.
Defined.

(** X13.  One deletion removes one key.  The engine behind the facade is
    modelled from the specification.  On every reachable tree, when
    [delete (key)] succeeds for a key that parses cleanly, the tree it
    leaves has one entry fewer, [has_key (key)] is false, a second
    [delete (key)] raises KeyError, and [has_key] answers as before for
    every key that parses cleanly to another (bits, bitlen) pair inside
    the engine's domain. *)
Theorem deletion_removes_one_key :
  forall (tree : patricia_tree_t) (key : PyObject) (p : prefix_t),
    reachable tree ->
    key_to_prefix key = KeyOk p ->
    fst (pytricia_delitem tree [key]) = Return PyNone ->
    let tree' := snd (pytricia_delitem tree [key]) in
    (exists n,
        pytricia_length tree = Return (S n) /\
        pytricia_length tree' = Return n) /\
    pytricia_has_key tree' [key] = Return (PyBool false) /\
    pytricia_delitem tree' [key]
    = (Raise KeyError "Prefix doesn't exist.", tree') /\
    (forall (key' : PyObject) (p' : prefix_t),
        key_to_prefix key' = KeyOk p' ->
        engine_defined tree p' = true ->
        ~ same_key p p' ->
        pytricia_has_key tree' [key'] = pytricia_has_key tree [key']).
Proof.
  intros tree key p Hr Hk Hok tree'.
  pose proof (reachable_inv tree Hr) as Hinv.
  unfold tree'. clear tree'. unfold pytricia_delitem in *.
  rewrite pytricia_internal_delete_eq, Hk in *.
  destruct (engine_defined tree p) eqn:Hdef; cbn [fst snd] in *;
    [|discriminate Hok].
  destruct (patricia_search_exact tree p) as [h|] eqn:Hs; cbn [fst snd] in *;
    [|discriminate Hok].
  destruct (removed_spec tree p h Hinv Hs)
    as (Hinv' & Hmb & q0 & Hsk0 & Hadd & _).
  pose proof (removed_stored tree p h Hinv Hs) as Hst.
  assert (Hgone : patricia_search_exact (patricia_remove tree h) p = None).
  { destruct (patricia_search_exact (patricia_remove tree h) p) as [h'|] eqn:E;
      [|reflexivity].
    exfalso.
    assert (H : stored (patricia_remove tree h) p).
    { apply (search_exact_stored _ p (proj1 Hinv')). congruence. }
    apply Hst in H. destruct H as [_ H]. apply H. apply same_key_refl. }
  assert (Hdom : forall q, engine_defined tree q = true ->
                           engine_defined (patricia_remove tree h) q = true).
  { intros q Hq. unfold engine_defined in *. rewrite Hmb. exact Hq. }
  split; [|split; [|split]].
  - exists (List.length (keys (head (patricia_remove tree h)))).
    rewrite (pytricia_length_keys tree Hinv), (pytricia_length_keys _ Hinv').
    rewrite (adds_length _ _ _ Hadd). split; reflexivity.
  - rewrite pytricia_has_key_eq, Hk, (Hdom p Hdef), Hgone. reflexivity.
  - rewrite pytricia_internal_delete_eq, Hk, (Hdom p Hdef), Hgone. reflexivity.
  - intros key' p' Hk' Hdef' Hnot.
    apply (has_key_same tree (patricia_remove tree h) key' p'
             (proj1 Hinv) (proj1 Hinv') Hk' Hdef' (Hdom p' Hdef')).
    rewrite (Hst p'). tauto.
Qed.

Lemma deletion_removes_one_key_witness :
  pytricia_has_key scenario_after_delete [str "10.1.0.0/16"]
  = Return (PyBool false).
Proof.
  apply (deletion_removes_one_key scenario_tree (str "10.1.0.0/16")
           (mk_prefix AF_INET 16 [10; 1; 0; 0]%Z) reachable_scenario eq_refl).
  reflexivity.
Defined.

(** ** The keys listed are keys of the tree *)

(** Every stored prefix was parsed from canonical text and lies inside
    the engine's domain. *)
Lemma reachable_keys_wf (tree : patricia_tree_t) :
  reachable tree ->
  forall q, In q (keys (head tree)) ->
            prefix_wf q /\ engine_defined tree q = true.
Proof.
  induction 1 as [args tree Hinit | tree key value r tree' Hr IH Hop];
    intros q Hq.
  - destruct (pytricia_init_tree args tree Hinit) as (mb & -> & _).
    destruct Hq.
  - pose proof (reachable_inv tree Hr) as Hinv.
    destruct value as [v|].
    + destruct (assign_cases tree key v) as [(r0 & E) | (p & Hc & Hdef & E)];
        rewrite E in Hop; inversion Hop; subst; [apply IH; exact Hq|].
      destruct (assigned_spec tree p v Hinv (canonical_cidr_bytes _ p Hc))
        as (_ & Hmb & [(h & Hs & Heq) | (Hs & Hadd & _)]).
      * rewrite Heq in Hq. cbn [head] in Hq. rewrite set_data_keys in Hq.
        destruct (IH q Hq) as (Hw & Hd). split; [exact Hw|].
        unfold engine_defined in *. rewrite Hmb. exact Hd.
      * apply (adds_in _ _ _ Hadd) in Hq. destruct Hq as [->|Hq].
        -- split.
           ++ apply (pystr_to_prefix_wf (snd (convert_key_to_cstring key)) p).
              apply (canonical_cidr_parse _ p Hc).
           ++ unfold engine_defined in *. rewrite Hmb. exact Hdef.
        -- destruct (IH q Hq) as (Hw & Hd). split; [exact Hw|].
           unfold engine_defined in *. rewrite Hmb. exact Hd.
    + cbn [pytricia_assign_subscript] in Hop.
      destruct (delete_cases tree key) as [(r0 & E) | (p & h & _ & _ & Hs & E)];
        rewrite E in Hop; inversion Hop; subst; [apply IH; exact Hq|].
      destruct (removed_spec tree p h Hinv Hs) as (_ & Hmb & q0 & _ & Hadd & _).
      destruct (IH q (adds_sub _ _ _ Hadd q Hq)) as (Hw & Hd).
      split; [exact Hw|]. unfold engine_defined in *. rewrite Hmb. exact Hd.
Qed.

(** The text written for a well-formed prefix parses back to it. *)
Lemma prefix_text_parses (q : prefix_t) :
  prefix_wf q -> key_to_prefix (str (prefix_toa2x q)) = KeyOk q.
Proof.
  destruct q as [f n bytes]. unfold prefix_wf, prefix_toa2x.
  cbn [family bitlen add_sin]. intros (-> & Hn & Hlen & Hb).
  destruct bytes as [|b0 [|b1 [|b2 [|b3 [|b4 bytes]]]]]; try discriminate Hlen.
  inversion Hb as [|? ? H0 Hb1]; subst.
  inversion Hb1 as [|? ? H1 Hb2]; subst.
  inversion Hb2 as [|? ? H2 Hb3]; subst.
  inversion Hb3 as [|? ? H3 _]; subst.
  destruct (canonical_text_codec b0 b1 b2 b3 (Z.of_nat n) H0 H1 H2 H3
              ltac:(lia)) as (E & _).
  rewrite E, Nat2Z.id. reflexivity.
Qed.

(** That text has no NUL and fits the key buffer with its terminator. *)
Lemma prefix_text_plain (q : prefix_t) :
  prefix_wf q ->
  has_char "000" (prefix_toa2x q) = false /\
  String.length (prefix_toa2x q) < 32.
Proof.
  intros Hw. destruct q as [f n bytes]. unfold prefix_wf, prefix_toa2x in *.
  cbn [family bitlen add_sin] in *. destruct Hw as (_ & Hn & Hlen & Hb).
  destruct bytes as [|b0 [|b1 [|b2 [|b3 [|b4 bytes]]]]]; try discriminate Hlen.
  inversion Hb as [|? ? H0 Hb1]; subst.
  inversion Hb1 as [|? ? H1 Hb2]; subst.
  inversion Hb2 as [|? ? H2 Hb3]; subst.
  inversion Hb3 as [|? ? H3 _]; subst.
  destruct (dotted_quad_text b0 b1 b2 b3 H0 H1 H2 H3) as (Hl & _).
  pose proof (dotted_quad_no_nul b0 b1 b2 b3 H0 H1 H2 H3) as Hnul.
  pose proof (length_text_ok_all (Z.of_nat n) ltac:(lia)) as Hok.
  unfold length_text_ok in Hok. cbv zeta in Hok.
  apply Bool.andb_true_iff in Hok. destruct Hok as [Hok _].
  apply Bool.andb_true_iff in Hok. destruct Hok as [Hl5 Hn0].
  apply Nat.leb_le in Hl5. apply Bool.negb_true_iff in Hn0.
  change (dotted_quad [b0; b1; b2; b3] ++ "/" ++ string_of_Z (Z.of_nat n))%string
    with (dotted_quad [b0; b1; b2; b3]
          ++ String "/" (string_of_Z (Z.of_nat n)))%string.
  split.
  - rewrite has_char_app, Hnul. cbn [has_char orb]. rewrite Hn0. reflexivity.
  - rewrite string_length_app. cbn [String.length]. lia.
Qed.

(** It is a plain C string and canonical. *)
Lemma prefix_text_canonical (q : prefix_t) :
  prefix_wf q ->
  convert_key_to_cstring (str (prefix_toa2x q)) = (0%Z, prefix_toa2x q) /\
  canonical_cidr (prefix_toa2x q) = Some q.
Proof.
  intros Hw. pose proof (prefix_text_parses q Hw) as Hk.
  destruct (prefix_text_plain q Hw) as (Hnul & Hlen).
  split; [apply convert_plain_string; [exact Hnul | lia]|].
  rewrite (string_key_parses _ Hnul Hlen) in Hk.
  unfold canonical_cidr.
  destruct (pystr_to_prefix (prefix_toa2x q)) as [q'|]; [|discriminate Hk].
  inversion Hk; subst q'. rewrite String.eqb_refl. reflexivity.
Qed.

(** Canonical text is at most 21 characters long: the model of
    assignment never reads a key buffer that has no terminator. *)
Lemma canonical_cidr_terminated (s : string) (p : prefix_t) :
  canonical_cidr s = Some p -> keystr_terminated s = true.
Proof.
  intros H. destruct (canonical_cidr_parse s p H) as (Hp & Ht).
  destruct (prefix_text_plain p (pystr_to_prefix_wf s p Hp)) as (_ & Hl).
  rewrite Ht in Hl. apply Nat.ltb_lt. unfold ADDRSTRLEN. exact Hl.
Qed.

Lemma texts_NoDup (K : list prefix_t) :
  distinct K -> (forall q, In q K -> prefix_wf q) ->
  NoDup (map prefix_toa2x K).
Proof.
  induction K as [|a K IH]; intros Hd Hwf; [constructor|].
  cbn [distinct] in Hd. destruct Hd as (Ha & Hd). cbn [map].
  constructor.
  - intros Hin. apply in_map_iff in Hin. destruct Hin as (b & Hb & HbK).
    pose proof (prefix_text_parses a (Hwf a (or_introl eq_refl))) as Ea.
    pose proof (prefix_text_parses b (Hwf b (or_intror HbK))) as Eb.
    rewrite Hb, Ea in Eb. inversion Eb; subst b.
    apply (Ha a HbK). apply same_key_refl.
  - apply IH; [exact Hd|]. intros q Hq. apply Hwf. right. exact Hq.
Qed.

Lemma pytricia_keys_eq (tree : patricia_tree_t) :
  tree_inv tree ->
  pytricia_keys tree = Return (map prefix_toa2x (keys (head tree))).
Proof.
  intros Hinv. unfold pytricia_keys.
  rewrite (PATRICIA_WALK_correct _ (tree_inv_stack _ Hinv)),
    keys_texts_of_real_nodes.
  reflexivity.
Qed.

(** X14.  What [keys()] lists can be looked up.  The engine and the text
    written for a prefix are modelled from the specification.  On every
    reachable tree [keys()] lists no text twice, and each text it lists
    is a key of the tree: it is canonical, at most 32 bits long,
    [has_key] and [in] answer true for it and [t[text]] returns a
    value. *)
Theorem listed_keys_are_found :
  forall (tree : patricia_tree_t) (texts : list string) (text : string),
    reachable tree ->
    pytricia_keys tree = Return texts ->
    In text texts ->
    NoDup texts /\
    canonical_key (str text) = true /\
    key_defined tree (str text) = true /\
    pytricia_has_key tree [str text] = Return (PyBool true) /\
    pytricia_contains tree (str text) = Return true /\
    exists v, pytricia_subscript tree (str text) = Return v.
Proof.
  intros tree texts text Hr Hkeys Hin.
  pose proof (reachable_inv tree Hr) as Hinv.
  pose proof (reachable_keys_wf tree Hr) as Hwfk.
  rewrite (pytricia_keys_eq tree Hinv) in Hkeys. inversion Hkeys; subst texts.
  clear Hkeys.
  split.
  { apply texts_NoDup; [|intros q Hq; apply (Hwfk q Hq)].
    apply wf_keys_distinct. exact (proj1 Hinv). }
  apply in_map_iff in Hin. destruct Hin as (q & <- & Hq).
  destruct (Hwfk q Hq) as (Hwq & Hdef).
  pose proof (prefix_text_parses q Hwq) as Hk.
  destruct Hinv as (Hwf & Hdat & _).
  split.
  { destruct (prefix_text_canonical q Hwq) as (Hconv & Hcan).
    unfold canonical_key. rewrite Hconv. cbn [snd]. rewrite Hcan. reflexivity. }
  split; [unfold key_defined; rewrite Hk; exact Hdef|].
  rewrite pytricia_has_key_eq, pytricia_contains_eq, pytricia_subscript_eq, Hk,
    Hdef.
  assert (He : patricia_search_exact tree q <> None).
  { apply (search_exact_stored tree q Hwf). exists q.
    split; [exact Hq | apply same_key_refl]. }
  assert (Hb : patricia_search_best tree q <> None).
  { apply (search_best_covered tree q Hwf). exists q.
    split; [exact Hq | apply same_key_covers, same_key_refl]. }
  destruct (patricia_search_exact tree q) as [he|]; [|contradiction].
  destruct (patricia_search_best tree q) as [hb|] eqn:Ebest; [|contradiction].
  split; [reflexivity|]. split; [reflexivity|].
  rewrite patricia_search_best_below in Ebest.
  destruct (best_below_sound q _ Hwf hb Ebest) as (q' & Hq' & _ & _).
  destruct (data_ok_node_at _ hb q' Hdat Hq') as (v & Hv).
  exists v. rewrite Hv. reflexivity.
Qed.

Lemma listed_keys_are_found_witness :
  pytricia_has_key scenario_tree [str "10.1.0.0/16"] = Return (PyBool true).
Proof.
  apply (listed_keys_are_found scenario_tree
           ["10.0.0.0/8"; "10.1.0.0/16"; "10.1.1.0/24"]%string "10.1.0.0/16"
           reachable_scenario eq_refl).
  right. left. reflexivity.
Defined.
